(** * webpack: the module graph and the chunk topology

    A shallow embedding of [lib/ModuleGraph.js] and of the group-related
    part of [lib/Chunk.js], with the properties the specification states
    about them.

    JavaScript objects that are shared and mutated in place (connections,
    chunks, chunk groups) live in explicit stores and are named by
    references; a JavaScript [Set] is an insertion-ordered list without
    duplicates; an operation that may raise returns the state it leaves
    behind together with its outcome. *)

From stdpp Require Import gmap strings list fin_maps sorting pretty.
From Stdlib Require Import ZArith Lia.

Set Warnings "-clear-no-such-hyp".

Open Scope Z_scope.
Open Scope nat_scope.

(** ** JavaScript values shared by both files *)

(** A slot that holds [undefined], [null] or a proper value. *)
Inductive js (A : Type) : Type :=
  | undefined
  | null
  | val (a : A).
Arguments undefined {A}.
Arguments null {A}.
Arguments val {A} a.

#[global] Instance js_eq_dec {A} `{EqDecision A} : EqDecision (js A).
Proof. solve_decision. Defined.

(** A field that holds [null] ([None]) or a proper value, read as a
    JavaScript value. *)
Definition from_null {A} (x : option A) : js A :=
  match x with Some a => val a | None => null end.

(** The outcome of a call: a returned value, or a raised [TypeError]
    (reading a property of [undefined]). *)
Inductive outcome (A : Type) : Type :=
  | Returned (a : A)
  | TypeError.
Arguments Returned {A} a.
Arguments TypeError {A}.

(** [Set]: insertion order, no duplicates. *)
Module JsSet.
Section ops.
Context {A : Type} `{EqDecision A}.

(** [s.add(x)] *)
Definition add (x : A) (s : list A) : list A :=
  if decide (x ∈ s) then s else s ++ [x].

(** [s.delete(x)] *)
Definition delete (x : A) (s : list A) : list A :=
  filter (λ y, y ≠ x) s.

(** [s.has(x)] *)
Definition has (x : A) (s : list A) : bool := bool_decide (x ∈ s).

(** [new Set(xs)] and the set built by adding the elements of [xs] to [s]
    one by one. *)
Definition add_all (xs : list A) (s : list A) : list A :=
  foldl (λ acc x, add x acc) s xs.

Definition of_list (xs : list A) : list A := add_all xs [].
End ops.
End JsSet.

(** ** lib/ModuleGraph.js *)

Module ModuleGraphJs.

(** Modules, dependencies, blocks and the keys of [getMeta] are opaque
    objects compared by identity. *)
Definition ModuleId := nat.
Definition DependencyId := nat.
Definition BlockId := nat.
Definition Thing := nat.
(** A reference to a [ModuleGraphConnection] object. *)
Definition ConnRef := nat.

(** Modelled from the spec: the class [ModuleGraphConnection]
    ([./ModuleGraphConnection] is required by the file but is not part of
    the sources). The spec gives the fields origin module, dependency,
    target module and the explanations; [resolvedOriginModule] and
    [resolvedModule] are the fields the getters of the graph read, set
    when the connection is built and never assigned by [ModuleGraph].
    The origin and the dependency are a module and a dependency, or
    [null] ([None]). *)
Record ModuleGraphConnection := mkConnection {
  originModule : option ModuleId;
  resolvedOriginModule : option ModuleId;
  dependency : option DependencyId;
  resolvedModule : ModuleId;
  module : ModuleId;
  explanations : list string
}.

(** Modelled from the spec: the constructor
    [new ModuleGraphConnection(originModule, dependency, module, explanation)];
    the fourth argument is optional. *)
Definition new_ModuleGraphConnection (o : option ModuleId) (d : option DependencyId)
    (m : ModuleId) (explanation : option string) : ModuleGraphConnection :=
  {| originModule := o; resolvedOriginModule := o; dependency := d;
     resolvedModule := m; module := m;
     explanations := match explanation with Some s => [s] | None => [] end |}.

Definition set_module (m : ModuleId) (c : ModuleGraphConnection) :=
  {| originModule := originModule c; resolvedOriginModule := resolvedOriginModule c;
     dependency := dependency c; resolvedModule := resolvedModule c;
     module := m; explanations := explanations c |}.

Definition set_originModule (o : option ModuleId) (c : ModuleGraphConnection) :=
  {| originModule := o; resolvedOriginModule := resolvedOriginModule c;
     dependency := dependency c; resolvedModule := resolvedModule c;
     module := module c; explanations := explanations c |}.

(** Modelled from the spec: [ModuleGraphConnection.addExplanation], which
    appends a justification to the connection. *)
Definition connection_addExplanation (s : string) (c : ModuleGraphConnection) :=
  {| originModule := originModule c; resolvedOriginModule := resolvedOriginModule c;
     dependency := dependency c; resolvedModule := resolvedModule c;
     module := module c; explanations := explanations c ++ [s] |}.

#[global] Instance connection_inhabited : Inhabited ModuleGraphConnection :=
  populate (new_ModuleGraphConnection None None 0 None).

#[global] Instance connection_eq_dec : EqDecision ModuleGraphConnection.
Proof. solve_decision. Defined.

(** [false | true | SortableSet<string> | null] *)
Inductive UsedExports :=
  | UsedFalse
  | UsedTrue
  | UsedNames (names : list string)
  | UsedNull.

#[global] Instance UsedExports_eq_dec : EqDecision UsedExports.
Proof. solve_decision. Defined.

(** An entry of [optimizationBailout]: a string or a function, the latter
    known by its identity only. *)
Inductive Bailout :=
  | BailoutString (s : string)
  | BailoutFunction (f : nat).

#[global] Instance Bailout_eq_dec : EqDecision Bailout.
Proof. solve_decision. Defined.

Record ModuleGraphModule := mkMgm {
  incomingConnections : list ConnRef;
  outgoingConnections : list ConnRef;
  issuer : js ModuleId;
  optimizationBailout : list Bailout;
  usedExports : UsedExports
}.

(** [new ModuleGraphModule()] *)
Definition new_ModuleGraphModule : ModuleGraphModule :=
  {| incomingConnections := []; outgoingConnections := []; issuer := null;
     optimizationBailout := []; usedExports := UsedNull |}.

Definition map_incoming (f : list ConnRef → list ConnRef) (r : ModuleGraphModule) :=
  {| incomingConnections := f (incomingConnections r);
     outgoingConnections := outgoingConnections r; issuer := issuer r;
     optimizationBailout := optimizationBailout r; usedExports := usedExports r |}.

Definition map_outgoing (f : list ConnRef → list ConnRef) (r : ModuleGraphModule) :=
  {| incomingConnections := incomingConnections r;
     outgoingConnections := f (outgoingConnections r); issuer := issuer r;
     optimizationBailout := optimizationBailout r; usedExports := usedExports r |}.

Definition set_issuer (i : js ModuleId) (r : ModuleGraphModule) :=
  {| incomingConnections := incomingConnections r;
     outgoingConnections := outgoingConnections r; issuer := i;
     optimizationBailout := optimizationBailout r; usedExports := usedExports r |}.

Definition set_usedExports (u : UsedExports) (r : ModuleGraphModule) :=
  {| incomingConnections := incomingConnections r;
     outgoingConnections := outgoingConnections r; issuer := issuer r;
     optimizationBailout := optimizationBailout r; usedExports := u |}.

(** [connection] is [undefined] ([None]) or a connection object. *)
Record ModuleGraphDependency := mkMgd {
  connection : option ConnRef;
  parentModule : js ModuleId;
  parentBlock : js BlockId
}.

(** [new ModuleGraphDependency()] *)
Definition new_ModuleGraphDependency : ModuleGraphDependency :=
  {| connection := None; parentModule := undefined; parentBlock := undefined |}.

(** The object [getMeta] hands out: its own properties, in creation
    order. The object of a key is created once and never replaced, so the
    key names it. *)
Definition MetaObject := list (string * string).

(** The graph: the four maps of the constructor, and the store of the
    connection objects the maps and sets refer to. *)
Record ModuleGraph := mkGraph {
  _dependencyMap : gmap DependencyId ModuleGraphDependency;
  _moduleMap : gmap ModuleId ModuleGraphModule;
  _originMap : gmap ModuleId (list ConnRef);
  _metaMap : gmap Thing MetaObject;
  heap : list ModuleGraphConnection
}.

(** [new ModuleGraph()] *)
Definition new_ModuleGraph : ModuleGraph :=
  {| _dependencyMap := ∅; _moduleMap := ∅; _originMap := ∅; _metaMap := ∅;
     heap := [] |}.

Definition with_dependencyMap (f : gmap DependencyId ModuleGraphDependency →
    gmap DependencyId ModuleGraphDependency) (g : ModuleGraph) :=
  {| _dependencyMap := f (_dependencyMap g); _moduleMap := _moduleMap g;
     _originMap := _originMap g; _metaMap := _metaMap g; heap := heap g |}.

Definition with_moduleMap (f : gmap ModuleId ModuleGraphModule →
    gmap ModuleId ModuleGraphModule) (g : ModuleGraph) :=
  {| _dependencyMap := _dependencyMap g; _moduleMap := f (_moduleMap g);
     _originMap := _originMap g; _metaMap := _metaMap g; heap := heap g |}.

Definition with_metaMap (f : gmap Thing MetaObject → gmap Thing MetaObject)
    (g : ModuleGraph) :=
  {| _dependencyMap := _dependencyMap g; _moduleMap := _moduleMap g;
     _originMap := _originMap g; _metaMap := f (_metaMap g); heap := heap g |}.

Definition with_heap (f : list ModuleGraphConnection → list ModuleGraphConnection)
    (g : ModuleGraph) :=
  {| _dependencyMap := _dependencyMap g; _moduleMap := _moduleMap g;
     _originMap := _originMap g; _metaMap := _metaMap g; heap := f (heap g) |}.

(** Reading a connection through its reference. *)
Definition deref (g : ModuleGraph) (c : ConnRef) : ModuleGraphConnection :=
  heap g !!! c.

(** Assigning to the fields of the connection behind a reference. *)
Definition mutate (c : ConnRef) (f : ModuleGraphConnection → ModuleGraphConnection)
    (g : ModuleGraph) : ModuleGraph :=
  with_heap (λ h, <[c := f (h !!! c)]> h) g.

(** [_getModuleGraphModule]: the record of a module, created on first
    use. *)
Definition _getModuleGraphModule (m : ModuleId) (g : ModuleGraph)
    : ModuleGraph * ModuleGraphModule :=
  match _moduleMap g !! m with
  | Some mgm => (g, mgm)
  | None => (with_moduleMap (insert m new_ModuleGraphModule) g, new_ModuleGraphModule)
  end.

(** [_getModuleGraphDependency] *)
Definition _getModuleGraphDependency (d : DependencyId) (g : ModuleGraph)
    : ModuleGraph * ModuleGraphDependency :=
  match _dependencyMap g !! d with
  | Some mgd => (g, mgd)
  | None => (with_dependencyMap (insert d new_ModuleGraphDependency) g,
             new_ModuleGraphDependency)
  end.

(** An assignment to a field of the record [_getModuleGraphModule(m)]
    returned: the record is an object held by the map, so the map sees
    it. *)
Definition update_mgm (m : ModuleId) (f : ModuleGraphModule → ModuleGraphModule)
    (g : ModuleGraph) : ModuleGraph :=
  let '(g1, mgm) := _getModuleGraphModule m g in
  with_moduleMap (insert m (f mgm)) g1.

Definition update_mgd (d : DependencyId)
    (f : ModuleGraphDependency → ModuleGraphDependency) (g : ModuleGraph)
    : ModuleGraph :=
  let '(g1, mgd) := _getModuleGraphDependency d g in
  with_dependencyMap (insert d (f mgd)) g1.

(** [setParents] *)
Definition setParents (d : DependencyId) (block : js BlockId) (m : js ModuleId)
    (g : ModuleGraph) : ModuleGraph :=
  update_mgd d (λ mgd, {| connection := connection mgd;
                          parentModule := m; parentBlock := block |}) g.

(** [getParentModule] *)
Definition getParentModule (d : DependencyId) (g : ModuleGraph)
    : ModuleGraph * js ModuleId :=
  let '(g1, mgd) := _getModuleGraphDependency d g in (g1, parentModule mgd).

(** [getParentBlock] *)
Definition getParentBlock (d : DependencyId) (g : ModuleGraph)
    : ModuleGraph * js BlockId :=
  let '(g1, mgd) := _getModuleGraphDependency d g in (g1, parentBlock mgd).

(** [setResolvedModule]: the new connection object gets the next free
    reference. *)
Definition setResolvedModule (origin : ModuleId) (d : DependencyId) (m : ModuleId)
    (g : ModuleGraph) : ModuleGraph :=
  let c := length (heap g) in
  let g0 := with_heap (λ h, h ++ [new_ModuleGraphConnection (Some origin) (Some d) m None]) g in
  let g1 := update_mgd d (λ mgd, {| connection := Some c;
                                    parentModule := parentModule mgd;
                                    parentBlock := parentBlock mgd |}) g0 in
  let g2 := update_mgm m (map_incoming (JsSet.add c)) g1 in
  update_mgm origin (map_outgoing (JsSet.add c)) g2.

(** [updateModule] *)
Definition updateModule (d : DependencyId) (m : ModuleId) (g : ModuleGraph)
    : ModuleGraph * outcome unit :=
  let '(g1, mgd) := _getModuleGraphDependency d g in
  match connection mgd with
  | Some c =>
      if decide (module (deref g1 c) = m) then (g1, Returned ())
      else
        let g2 := update_mgm (module (deref g1 c)) (map_incoming (JsSet.delete c)) g1 in
        let g3 := mutate c (set_module m) g2 in
        (update_mgm m (map_incoming (JsSet.add c)) g3, Returned ())
  | None => (g1, TypeError)
  end.

(** [addExplanation] *)
Definition addExplanation (d : DependencyId) (s : string) (g : ModuleGraph)
    : ModuleGraph * outcome unit :=
  let '(g1, mgd) := _getModuleGraphDependency d g in
  match connection mgd with
  | Some c => (mutate c (connection_addExplanation s) g1, Returned ())
  | None => (g1, TypeError)
  end.

(** The predicate handed to [replaceModule] sees the connection object:
    its identity and its fields at the time of the call. *)
Definition Filter := ConnRef → ModuleGraphConnection → bool.

(** The body of the first loop of [replaceModule], for one connection. *)
Definition replace_outgoing_step (oldModule newModule : ModuleId)
    (filterConnection : Filter) (g : ModuleGraph) (c : ConnRef) : ModuleGraph :=
  if filterConnection c (deref g c) then
    let g1 := mutate c (set_originModule (Some newModule)) g in
    let g2 := with_moduleMap (alter (map_outgoing (JsSet.add c)) newModule) g1 in
    with_moduleMap (alter (map_outgoing (JsSet.delete c)) oldModule) g2
  else g.

(** The body of the second loop. *)
Definition replace_incoming_step (oldModule newModule : ModuleId)
    (filterConnection : Filter) (g : ModuleGraph) (c : ConnRef) : ModuleGraph :=
  if filterConnection c (deref g c) then
    let g1 := mutate c (set_module newModule) g in
    let g2 := with_moduleMap (alter (map_incoming (JsSet.add c)) newModule) g1 in
    with_moduleMap (alter (map_incoming (JsSet.delete c)) oldModule) g2
  else g.

(** [replaceModule]. Each loop runs over a set from which only the
    element at hand is deleted and to which nothing is added, so it
    visits the elements the set had when the loop began, in order. *)
Definition replaceModule (oldModule newModule : ModuleId)
    (filterConnection : Filter) (g : ModuleGraph) : ModuleGraph :=
  if decide (oldModule = newModule) then g
  else
    let '(g1, oldMgm) := _getModuleGraphModule oldModule g in
    let '(g2, _) := _getModuleGraphModule newModule g1 in
    let g3 := foldl (replace_outgoing_step oldModule newModule filterConnection)
                    g2 (outgoingConnections oldMgm) in
    foldl (replace_incoming_step oldModule newModule filterConnection)
          g3 (incomingConnections oldMgm).

(** [addExtraReason] *)
Definition addExtraReason (m : ModuleId) (explanation : string) (g : ModuleGraph)
    : ModuleGraph :=
  let g0 := fst (_getModuleGraphModule m g) in
  let c := length (heap g0) in
  let g1 := with_heap (λ h, h ++ [new_ModuleGraphConnection None None m (Some explanation)]) g0 in
  update_mgm m (map_incoming (JsSet.add c)) g1.

(** [getResolvedModule] *)
Definition getResolvedModule (d : DependencyId) (g : ModuleGraph)
    : ModuleGraph * js ModuleId :=
  let '(g1, mgd) := _getModuleGraphDependency d g in
  (g1, match connection mgd with
       | Some c => val (resolvedModule (deref g1 c))
       | None => null
       end).

(** [getConnection] *)
Definition getConnection (d : DependencyId) (g : ModuleGraph)
    : ModuleGraph * js ConnRef :=
  let '(g1, mgd) := _getModuleGraphDependency d g in
  (g1, match connection mgd with Some c => val c | None => undefined end).

(** [getModule] *)
Definition getModule (d : DependencyId) (g : ModuleGraph)
    : ModuleGraph * js ModuleId :=
  let '(g1, mgd) := _getModuleGraphDependency d g in
  (g1, match connection mgd with
       | Some c => val (module (deref g1 c))
       | None => null
       end).

(** [getOrigin] *)
Definition getOrigin (d : DependencyId) (g : ModuleGraph)
    : ModuleGraph * js ModuleId :=
  let '(g1, mgd) := _getModuleGraphDependency d g in
  (g1, match connection mgd with
       | Some c => from_null (originModule (deref g1 c))
       | None => null
       end).

(** [getResolvedOrigin] *)
Definition getResolvedOrigin (d : DependencyId) (g : ModuleGraph)
    : ModuleGraph * js ModuleId :=
  let '(g1, mgd) := _getModuleGraphDependency d g in
  (g1, match connection mgd with
       | Some c => from_null (resolvedOriginModule (deref g1 c))
       | None => null
       end).

(** [getIncomingConnections]: [Array.from] of the set. *)
Definition getIncomingConnections (m : ModuleId) (g : ModuleGraph)
    : ModuleGraph * list ConnRef :=
  let '(g1, mgm) := _getModuleGraphModule m g in (g1, incomingConnections mgm).

(** [getOutgoingConnection] *)
Definition getOutgoingConnection (m : ModuleId) (g : ModuleGraph)
    : ModuleGraph * list ConnRef :=
  let '(g1, mgm) := _getModuleGraphModule m g in (g1, outgoingConnections mgm).

(** [getIssuer] *)
Definition getIssuer (m : ModuleId) (g : ModuleGraph) : ModuleGraph * js ModuleId :=
  let '(g1, mgm) := _getModuleGraphModule m g in (g1, issuer mgm).

(** [setIssuer] *)
Definition setIssuer (m : ModuleId) (i : js ModuleId) (g : ModuleGraph) : ModuleGraph :=
  update_mgm m (set_issuer i) g.

(** [getOptimizationBailout]: the array of the record, by its content. *)
Definition getOptimizationBailout (m : ModuleId) (g : ModuleGraph)
    : ModuleGraph * list Bailout :=
  let '(g1, mgm) := _getModuleGraphModule m g in (g1, optimizationBailout mgm).

(** [getUsedExports] *)
Definition getUsedExports (m : ModuleId) (g : ModuleGraph)
    : ModuleGraph * UsedExports :=
  let '(g1, mgm) := _getModuleGraphModule m g in (g1, usedExports mgm).

(** [setUsedExports] *)
Definition setUsedExports (m : ModuleId) (u : UsedExports) (g : ModuleGraph)
    : ModuleGraph :=
  update_mgm m (set_usedExports u) g.

(** [getMeta]: [Object.create(null)] is the object without properties. *)
Definition getMeta (thing : Thing) (g : ModuleGraph) : ModuleGraph * MetaObject :=
  match _metaMap g !! thing with
  | Some meta => (g, meta)
  | None => (with_metaMap (insert thing []) g, [])
  end.

(** *** Calls as data *)

(** The query operations and what they return. *)
Inductive Query :=
  | QParentModule (d : DependencyId)
  | QParentBlock (d : DependencyId)
  | QModule (d : DependencyId)
  | QOrigin (d : DependencyId)
  | QResolvedModule (d : DependencyId)
  | QResolvedOrigin (d : DependencyId)
  | QConnection (d : DependencyId)
  | QIncomingConnections (m : ModuleId)
  | QOutgoingConnection (m : ModuleId)
  | QIssuer (m : ModuleId)
  | QOptimizationBailout (m : ModuleId)
  | QUsedExports (m : ModuleId)
  | QMeta (thing : Thing).

Inductive Answer :=
  | AModule (m : js ModuleId)
  | ABlock (b : js BlockId)
  | AConnection (c : js ConnRef)
  | AConnections (cs : list ConnRef)
  | ABailout (bs : list Bailout)
  | AUsedExports (u : UsedExports)
  | AMeta (thing : Thing) (meta : MetaObject).

Definition answer {A} (f : A → Answer) (r : ModuleGraph * A)
    : ModuleGraph * Answer := (fst r, f (snd r)).

Definition query (q : Query) (g : ModuleGraph) : ModuleGraph * Answer :=
  match q with
  | QParentModule d => answer AModule (getParentModule d g)
  | QParentBlock d => answer ABlock (getParentBlock d g)
  | QModule d => answer AModule (getModule d g)
  | QOrigin d => answer AModule (getOrigin d g)
  | QResolvedModule d => answer AModule (getResolvedModule d g)
  | QResolvedOrigin d => answer AModule (getResolvedOrigin d g)
  | QConnection d => answer AConnection (getConnection d g)
  | QIncomingConnections m => answer AConnections (getIncomingConnections m g)
  | QOutgoingConnection m => answer AConnections (getOutgoingConnection m g)
  | QIssuer m => answer AModule (getIssuer m g)
  | QOptimizationBailout m => answer ABailout (getOptimizationBailout m g)
  | QUsedExports m => answer AUsedExports (getUsedExports m g)
  | QMeta thing => answer (AMeta thing) (getMeta thing g)
  end.

(** Every public method of the class. *)
Inductive Op :=
  | OSetParents (d : DependencyId) (block : js BlockId) (m : js ModuleId)
  | OSetResolvedModule (origin : ModuleId) (d : DependencyId) (m : ModuleId)
  | OUpdateModule (d : DependencyId) (m : ModuleId)
  | OAddExplanation (d : DependencyId) (s : string)
  | OReplaceModule (oldModule newModule : ModuleId) (filterConnection : Filter)
  | OAddExtraReason (m : ModuleId) (explanation : string)
  | OSetIssuer (m : ModuleId) (i : js ModuleId)
  | OSetUsedExports (m : ModuleId) (u : UsedExports)
  | OQuery (q : Query).

(** The graph a call leaves behind, whether it returned or raised (a
    caller may catch the error and go on). *)
Definition exec (g : ModuleGraph) (o : Op) : ModuleGraph :=
  match o with
  | OSetParents d b m => setParents d b m g
  | OSetResolvedModule origin d m => setResolvedModule origin d m g
  | OUpdateModule d m => fst (updateModule d m g)
  | OAddExplanation d s => fst (addExplanation d s g)
  | OReplaceModule a b f => replaceModule a b f g
  | OAddExtraReason m s => addExtraReason m s g
  | OSetIssuer m i => setIssuer m i g
  | OSetUsedExports m u => setUsedExports m u g
  | OQuery q => fst (query q g)
  end.

Definition run (ops : list Op) (g : ModuleGraph) : ModuleGraph := foldl exec g ops.

(** The record of a module and of a dependency as the graph holds them,
    the fresh one where none was made yet. *)
Definition record_of (g : ModuleGraph) (m : ModuleId) : ModuleGraphModule :=
  (_getModuleGraphModule m g).2.

Definition dependency_record_of (g : ModuleGraph) (d : DependencyId)
    : ModuleGraphDependency :=
  (_getModuleGraphDependency d g).2.

Definition incoming (g : ModuleGraph) (m : ModuleId) : list ConnRef :=
  incomingConnections (record_of g m).

Definition outgoing (g : ModuleGraph) (m : ModuleId) : list ConnRef :=
  outgoingConnections (record_of g m).

(** A live connection: the current connection of some dependency, or one
    that [addExtraReason] built (those are the connections without a
    dependency). *)
Definition live (g : ModuleGraph) (c : ConnRef) : Prop :=
  (∃ d, connection (dependency_record_of g d) = Some c) ∨
  (c < length (heap g) ∧ dependency (deref g c) = None).

(** What the graph keeps true of its connection objects: a connection
    sits in the incoming set of exactly the module it points to and in
    the outgoing set of exactly the module it comes from; the sets hold
    no reference twice, and every reference held is to an object that
    was built. *)
Record consistent (g : ModuleGraph) : Prop := {
  consistent_incoming : ∀ c k,
    c ∈ incoming g k ↔ c < length (heap g) ∧ module (deref g c) = k;
  consistent_outgoing : ∀ c k,
    c ∈ outgoing g k ↔ c < length (heap g) ∧ originModule (deref g c) = Some k;
  consistent_NoDup : ∀ k, NoDup (incoming g k) ∧ NoDup (outgoing g k);
  consistent_dependencies : ∀ d c,
    connection (dependency_record_of g d) = Some c → c < length (heap g)
}.

(** *** What the proofs say of [replaceModule] *)

(** The shape the two loops of [replaceModule] share: over a set of the
    old record, and for the connections the predicate accepts, assign a
    field of the connection, add the connection to the set of the new
    record and delete it from the set being read. [replace_outgoing_step]
    is the shape with [map_outgoing] and the assignment of [originModule],
    [replace_incoming_step] the one with [map_incoming] and [module]. *)
Definition loop_step (oldModule newModule : ModuleId) (filterConnection : Filter)
    (on_set : (list ConnRef → list ConnRef) → ModuleGraphModule → ModuleGraphModule)
    (assign : ModuleGraphConnection → ModuleGraphConnection)
    (g : ModuleGraph) (c : ConnRef) : ModuleGraph :=
  if filterConnection c (deref g c) then
    let g1 := mutate c assign g in
    let g2 := with_moduleMap (alter (on_set (JsSet.add c)) newModule) g1 in
    with_moduleMap (alter (on_set (JsSet.delete c)) oldModule) g2
  else g.

(** The connections a run of the loop over [visited] has moved: those
    visited that the predicate accepted as they were before the loop. *)
Definition moved (filterConnection : Filter) (g : ModuleGraph)
    (visited : list ConnRef) (c : ConnRef) : bool :=
  bool_decide (c ∈ visited) && filterConnection c (deref g c).

(** What a loop that moved the connections [mv] has made of the graph. *)
Record loop_result (oldModule newModule : ModuleId)
    (on_set : (list ConnRef → list ConnRef) → ModuleGraphModule → ModuleGraphModule)
    (the_set : ModuleGraphModule → list ConnRef)
    (assign : ModuleGraphConnection → ModuleGraphConnection)
    (g : ModuleGraph) (mv : ConnRef → bool) (g' : ModuleGraph) : Prop := {
  loop_deref : ∀ c, deref g' c = if mv c then assign (deref g c) else deref g c;
  loop_old :
    the_set (record_of g' oldModule)
    = filter (λ x, mv x = false) (the_set (record_of g oldModule));
  loop_new : ∃ extra,
    the_set (record_of g' newModule) = the_set (record_of g newModule) ++ extra ∧
    (∀ x, x ∈ extra ↔ ((x ∉ the_set (record_of g newModule)) ∧ mv x = true)) ∧
    NoDup extra;
  loop_other : ∀ k, k ≠ oldModule → k ≠ newModule → record_of g' k = record_of g k;
  loop_record : ∀ k, ∃ F, record_of g' k = on_set F (record_of g k);
  loop_dependencies : ∀ d, dependency_record_of g' d = dependency_record_of g d;
  loop_meta : _metaMap g' = _metaMap g;
  loop_length : length (heap g') = length (heap g);
  loop_exist : is_Some (_moduleMap g' !! oldModule) ∧ is_Some (_moduleMap g' !! newModule)
}.

(** The graph between the two loops of [replaceModule a b f g]. *)
Definition between_loops (a b : ModuleId) (f : Filter) (g : ModuleGraph) : ModuleGraph :=
  foldl (loop_step a b f map_outgoing (set_originModule (Some b)))
        (_getModuleGraphModule b (_getModuleGraphModule a g).1).1 (outgoing g a).

(** What the second loop of [replaceModule a b f g] finds in a
    connection: the first loop has repointed the origin of those
    outgoing connections of [a] that the predicate accepted. *)
Definition seen_by_second_loop (a b : ModuleId) (f : Filter) (g : ModuleGraph)
    (c : ConnRef) : ModuleGraphConnection :=
  if bool_decide (c ∈ outgoing g a) && f c (deref g c)
  then set_originModule (Some b) (deref g c)
  else deref g c.

(** *** What the queries see *)

(** The object [getMeta] would hand out. *)
Definition meta_of (g : ModuleGraph) (thing : Thing) : MetaObject := (getMeta thing g).2.

(** Two graphs no query can tell apart: the records, the connection
    objects and the meta objects agree; which records were already
    created does not count. *)
Record same_view (g g' : ModuleGraph) : Prop := {
  view_records : ∀ m, record_of g m = record_of g' m;
  view_dependencies : ∀ d, dependency_record_of g d = dependency_record_of g' d;
  view_heap : heap g = heap g';
  view_meta : ∀ thing, meta_of g thing = meta_of g' thing
}.

(** What a query returns, read off the view. *)
Definition answer_of (q : Query) (g : ModuleGraph) : Answer :=
  let conn d := connection (dependency_record_of g d) in
  match q with
  | QParentModule d => AModule (parentModule (dependency_record_of g d))
  | QParentBlock d => ABlock (parentBlock (dependency_record_of g d))
  | QModule d =>
      AModule (match conn d with Some c => val (module (deref g c)) | None => null end)
  | QOrigin d =>
      AModule (match conn d with
               | Some c => from_null (originModule (deref g c)) | None => null end)
  | QResolvedModule d =>
      AModule (match conn d with
               | Some c => val (resolvedModule (deref g c)) | None => null end)
  | QResolvedOrigin d =>
      AModule (match conn d with
               | Some c => from_null (resolvedOriginModule (deref g c)) | None => null end)
  | QConnection d =>
      AConnection (match conn d with Some c => val c | None => undefined end)
  | QIncomingConnections m => AConnections (incoming g m)
  | QOutgoingConnection m => AConnections (outgoing g m)
  | QIssuer m => AModule (issuer (record_of g m))
  | QOptimizationBailout m => ABailout (optimizationBailout (record_of g m))
  | QUsedExports m => AUsedExports (usedExports (record_of g m))
  | QMeta thing => AMeta thing (meta_of g thing)
  end.

(** A run to try the operations on: module 1 requires module 2 through
    dependency 7 and itself through dependency 8, is kept as an entry, is
    re-resolved to module 3 for dependency 7, and is then replaced by
    module 5 for all its connections. *)
Definition example_ops : list Op :=
  [OSetResolvedModule 1 7 2; OAddExtraReason 1 "entry"; OSetResolvedModule 1 8 1;
   OUpdateModule 7 3; OReplaceModule 1 5 (λ _ _, true)].

(** A predicate that looks at the connection: it accepts the connections
    whose origin is module 5. *)
Definition from_module_5 : Filter :=
  λ _ x, bool_decide (originModule x = Some 5).

(** *** Reading a run of calls *)

(** The parents the last [setParents] of a run gave to a dependency,
    [undefined] if there was none. *)
Definition last_parents (d : DependencyId) (ops : list Op) : js BlockId * js ModuleId :=
  foldl (λ acc o,
           match o with
           | OSetParents d' b m => if decide (d' = d) then (b, m) else acc
           | _ => acc
           end)
        (undefined, undefined) ops.

(** The issuer the last [setIssuer] of a run gave to a module, [null] if
    there was none. *)
Definition last_issuer (m : ModuleId) (ops : list Op) : js ModuleId :=
  foldl (λ acc o,
           match o with
           | OSetIssuer m' i => if decide (m' = m) then i else acc
           | _ => acc
           end)
        null ops.

(** The calls of a run that build a connection. *)
Definition builds_connection (o : Op) : bool :=
  match o with
  | OSetResolvedModule _ _ _ | OAddExtraReason _ _ => true
  | _ => false
  end.

(** A field of the connections that none of the three assignments of the
    graph writes. *)
Definition kept_field {X} (P : ModuleGraphConnection → X) : Prop :=
  (∀ m x, P (set_module m x) = P x) ∧
  (∀ o x, P (set_originModule o x) = P x) ∧
  (∀ s x, P (connection_addExplanation s x) = P x).

(** What a run keeps of the connections of the dependencies: the
    connection of a dependency was built, and built for it. *)
Definition owned (g : ModuleGraph) : Prop :=
  ∀ d c, connection (dependency_record_of g d) = Some c →
         c < length (heap g) ∧ dependency (deref g c) = Some d.

End ModuleGraphJs.

(** ** lib/Chunk.js *)

Module ChunkJs.

(** References to [Chunk] and [ChunkGroup] objects. *)
Definition ChunkRef := nat.
Definition GroupRef := nat.

(** [number | string | null], the type of [Chunk.id]. *)
Inductive ChunkId :=
  | IdNull
  | IdNumber (n : Z)
  | IdString (s : string).

#[global] Instance ChunkId_eq_dec : EqDecision ChunkId.
Proof. solve_decision. Defined.

(** The fields the constructor of [Chunk] sets. [_groups] is a
    [SortableSet], read in its iteration order; [contentHash] is an object
    used as a map from content types to hashes; the modules of
    [removedModules] are known by their identity. *)
Record Chunk := mkChunk {
  id : ChunkId;
  ids : option (list ChunkId);
  debugId : nat;
  name : js string;
  preventIntegration : bool;
  filenameTemplate : js string;
  _groups : list GroupRef;
  files : list string;
  rendered : bool;
  hash : js string;
  contentHash : list (string * string);
  renderedHash : js string;
  chunkReason : js string;
  extraAsync : bool;
  removedModules : js (list nat)
}.

(** [new Chunk(name)], [debugId] being the value of the counter of the
    file. *)
Definition new_Chunk (name : js string) (debugId : nat) : Chunk :=
  {| id := IdNull; ids := None; debugId := debugId; name := name;
     preventIntegration := false; filenameTemplate := undefined; _groups := [];
     files := []; rendered := false; hash := undefined; contentHash := [];
     renderedHash := undefined; chunkReason := undefined; extraAsync := false;
     removedModules := undefined |}.

Definition set_groups (f : list GroupRef → list GroupRef) (c : Chunk) : Chunk :=
  {| id := id c; ids := ids c; debugId := debugId c; name := name c;
     preventIntegration := preventIntegration c;
     filenameTemplate := filenameTemplate c; _groups := f (_groups c);
     files := files c; rendered := rendered c; hash := hash c;
     contentHash := contentHash c; renderedHash := renderedHash c;
     chunkReason := chunkReason c; extraAsync := extraAsync c;
     removedModules := removedModules c |}.

Definition set_id (i : ChunkId) (c : Chunk) : Chunk :=
  {| id := i; ids := ids c; debugId := debugId c; name := name c;
     preventIntegration := preventIntegration c;
     filenameTemplate := filenameTemplate c; _groups := _groups c;
     files := files c; rendered := rendered c; hash := hash c;
     contentHash := contentHash c; renderedHash := renderedHash c;
     chunkReason := chunkReason c; extraAsync := extraAsync c;
     removedModules := removedModules c |}.

(** An unnamed chunk that was given the id [i] and added to [groups]. *)
Definition chunk_in (i : ChunkId) (groups : list GroupRef) : Chunk :=
  set_groups (λ _, groups) (set_id i (new_Chunk undefined 1000)).

(** A JavaScript number, as an ordering option holds it: a finite
    number, one of the two infinities, or [NaN]. The finite numbers are
    read as integers: of two finite numbers the subtraction is [0] when
    they are equal and has the sign of their comparison otherwise, and the
    sort reads no more of it. *)
Inductive JsNumber :=
  | Finite (z : Z)
  | PosInfinity
  | NegInfinity
  | NaN.

#[global] Instance JsNumber_eq_dec : EqDecision JsNumber.
Proof. solve_decision. Defined.

(** [x - y] *)
Definition JsNumber_sub (x y : JsNumber) : JsNumber :=
  match x, y with
  | NaN, _ | _, NaN => NaN
  | Finite a, Finite b => Finite (a - b)
  | Finite _, PosInfinity => NegInfinity
  | Finite _, NegInfinity => PosInfinity
  | PosInfinity, PosInfinity => NaN
  | PosInfinity, _ => PosInfinity
  | NegInfinity, NegInfinity => NaN
  | NegInfinity, _ => NegInfinity
  end.

(** What [Array.prototype.sort] makes of the number its comparator
    returns: [NaN] counts as [+0], and of the other numbers the sign
    counts. *)
Definition SortCompare (v : JsNumber) : Z :=
  match v with
  | Finite z => z
  | PosInfinity => 1
  | NegInfinity => -1
  | NaN => 0
  end.

(** Modelled from the spec: the class [ChunkGroup] ([./ChunkGroup] is not
    part of the sources): the ordered list of member chunks, the set of
    child groups in its iteration order, and the options as
    [Object.keys] lists them, the ordering options holding numbers. *)
Record ChunkGroup := mkGroup {
  chunks : list ChunkRef;
  _children : list GroupRef;
  options : list (string * JsNumber)
}.

#[global] Instance Chunk_inhabited : Inhabited Chunk :=
  populate (new_Chunk undefined 1000).
#[global] Instance ChunkGroup_inhabited : Inhabited ChunkGroup :=
  populate (mkGroup [] [] []).

(** The store of the chunk and group objects. *)
Record Store := mkStore {
  chunk_objects : gmap ChunkRef Chunk;
  group_objects : gmap GroupRef ChunkGroup
}.

Definition chunk (H : Store) (c : ChunkRef) : Chunk := chunk_objects H !!! c.
Definition group (H : Store) (g : GroupRef) : ChunkGroup := group_objects H !!! g.

Definition with_chunk (c : ChunkRef) (f : Chunk → Chunk) (H : Store) : Store :=
  {| chunk_objects := alter f c (chunk_objects H); group_objects := group_objects H |}.

Definition with_group (g : GroupRef) (f : ChunkGroup → ChunkGroup) (H : Store) : Store :=
  {| chunk_objects := chunk_objects H; group_objects := alter f g (group_objects H) |}.

(** [groupsIterable] *)
Definition groupsIterable (H : Store) (this : ChunkRef) : list GroupRef :=
  _groups (chunk H this).

(** Modelled from the spec: [ChunkGroup.childrenIterable]. *)
Definition childrenIterable (H : Store) (g : GroupRef) : list GroupRef :=
  _children (group H g).

(** Modelled from the spec: [ChunkGroup.removeChunk], the group-side
    removal: the chunk leaves the member list of the group. *)
Definition ChunkGroup_removeChunk (g : GroupRef) (c : ChunkRef) (H : Store) : Store :=
  with_group g (λ r, {| chunks := filter (λ x, x ≠ c) (chunks r);
                        _children := _children r; options := options r |}) H.

(** [addGroup] *)
Definition addGroup (this : ChunkRef) (g : GroupRef) (H : Store) : Store * bool :=
  if JsSet.has g (_groups (chunk H this)) then (H, false)
  else (with_chunk this (set_groups (JsSet.add g)) H,
        true).

(** [removeGroup] *)
Definition removeGroup (this : ChunkRef) (g : GroupRef) (H : Store) : Store * bool :=
  if negb (JsSet.has g (_groups (chunk H this))) then (H, false)
  else (with_chunk this (set_groups (JsSet.delete g)) H,
        true).

(** [isInGroup] *)
Definition isInGroup (this : ChunkRef) (g : GroupRef) (H : Store) : bool :=
  JsSet.has g (_groups (chunk H this)).

(** [getNumberOfGroups] *)
Definition getNumberOfGroups (this : ChunkRef) (H : Store) : nat :=
  length (_groups (chunk H this)).

(** [disconnectFromGroups] *)
Definition disconnectFromGroups (this : ChunkRef) (H : Store) : Store :=
  foldl (λ H' g, ChunkGroup_removeChunk g this H') H (groupsIterable H this).

(** Modelled from the spec: [intersect] of [./util/SetHelpers], the
    elements that all the given sets share. *)
Definition intersect (sets : list (list ChunkRef)) : list ChunkRef :=
  match sets with
  | [] => []
  | s :: rest => filter (λ x, Forall (λ t, x ∈ t) rest) s
  end.

(** The body of the last loop of [getAllAsyncChunks], for one group of
    the queue: its chunks join the result unless they are initial ones,
    and its children join the queue. *)
Definition visit (H : Store) (initialChunks : list ChunkRef)
    (st : list GroupRef * list ChunkRef) (chunkGroup : GroupRef)
    : list GroupRef * list ChunkRef :=
  let '(queue, result) := st in
  (JsSet.add_all (childrenIterable H chunkGroup) queue,
   foldl (λ acc c, if JsSet.has c initialChunks then acc else JsSet.add c acc)
         result (chunks (group H chunkGroup))).

(** [for (const chunkGroup of queue)], the queue growing while it is
    read: [pos] is the place the iterator has reached. One unit of fuel
    pays for one step of the iterator. *)
Fixpoint drain (fuel : nat) (H : Store) (initialChunks : list ChunkRef)
    (pos : nat) (st : list GroupRef * list ChunkRef)
    : option (list GroupRef * list ChunkRef) :=
  match fuel with
  | 0 => None
  | S fuel' =>
      match st.1 !! pos with
      | None => Some st
      | Some chunkGroup =>
          drain fuel' H initialChunks (S pos) (visit H initialChunks st chunkGroup)
      end
  end.

Definition initialChunks_of (H : Store) (this : ChunkRef) : list ChunkRef :=
  intersect (map (λ g, JsSet.of_list (chunks (group H g))) (groupsIterable H this)).

Definition initial_queue (H : Store) (this : ChunkRef) : list GroupRef :=
  foldl (λ queue g, JsSet.add_all (childrenIterable H g) queue) []
        (groupsIterable H this).

(** The walk of [getAllAsyncChunks], with the queue it ends with. *)
Definition walkAsync (fuel : nat) (H : Store) (this : ChunkRef)
    : option (list GroupRef * list ChunkRef) :=
  drain fuel H (initialChunks_of H this) 0 (initial_queue H this, []).

(** [getAllAsyncChunks] *)
Definition getAllAsyncChunks (fuel : nat) (H : Store) (this : ChunkRef)
    : option (list ChunkRef) :=
  snd <$> walkAsync fuel H this.

(** An item of the lists of [getChildIdsByOrders]. *)
Record Item := mkItem {
  order : JsNumber;
  item_group : GroupRef
}.

#[global] Instance Item_eq_dec : EqDecision Item.
Proof. solve_decision. Defined.

(** [key.endsWith("Order")] and [key.substr(0, key.length - "Order".length)] *)
Definition endsWith_Order (key : string) : bool :=
  (5 <=? String.length key) &&
  String.eqb (String.substring (String.length key - 5) 5 key) "Order".

Definition strip_Order (key : string) : string :=
  String.substring 0 (String.length key - 5) key.

(** [lists]: a [Map] from names to arrays, in insertion order.
    [lists_push name item] is the get-or-create followed by the push. *)
Fixpoint lists_push (name : string) (item : Item) (lists : list (string * list Item))
    : list (string * list Item) :=
  match lists with
  | [] => [(name, [item])]
  | (n, l) :: rest =>
      if decide (n = name) then (n, l ++ [item]) :: rest
      else (n, l) :: lists_push name item rest
  end.

Definition collect_options (childGroup : GroupRef) (opts : list (string * JsNumber))
    (lists : list (string * list Item)) : list (string * list Item) :=
  foldl (λ acc kv,
           if endsWith_Order kv.1
           then lists_push (strip_Order kv.1) (mkItem kv.2 childGroup) acc
           else acc)
        lists opts.

Definition collect_children (H : Store) (g : GroupRef)
    (lists : list (string * list Item)) : list (string * list Item) :=
  foldl (λ acc childGroup, collect_options childGroup (options (group H childGroup)) acc)
        lists (childrenIterable H g).

(** The first loop of [getChildIdsByOrders]. *)
Definition collect_lists (H : Store) (this : ChunkRef) : list (string * list Item) :=
  foldl (λ acc g,
           if decide (last (chunks (group H g)) = Some this)
           then collect_children H g acc
           else acc)
        [] (groupsIterable H this).

(** The comparator given to [list.sort]; [compareTo] stands for
    [a.group.compareTo(moduleGraph, chunkGraph, b.group)], which belongs
    to the chunk group. [cmp !== 0] holds of every number but zero, of
    [NaN] too. *)
Definition compare_items (compareTo : GroupRef → GroupRef → Z) (a b : Item) : JsNumber :=
  let cmp := JsNumber_sub (order b) (order a) in
  if decide (cmp ≠ Finite 0) then cmp
  else Finite (compareTo (item_group a) (item_group b)).

(** [Array.prototype.sort]: a stable sort; of two items the comparator
    calls equal, the one that came first stays first. *)
Fixpoint sort_insert (cmp : Item → Item → JsNumber) (x : Item) (l : list Item)
    : list Item :=
  match l with
  | [] => [x]
  | y :: l' => if decide (SortCompare (cmp x y) ≤ 0)%Z then x :: y :: l'
               else y :: sort_insert cmp x l'
  end.

Definition array_sort (cmp : Item → Item → JsNumber) (l : list Item) : list Item :=
  foldr (sort_insert cmp) [] l.

(** The [reduce] into a [Set] of ids, then [Array.from]. *)
Definition ids_of (H : Store) (l : list Item) : list ChunkId :=
  foldl (λ set item,
           foldl (λ s c, JsSet.add (id (chunk H c)) s) set
                 (chunks (group H (item_group item))))
        [] l.

(** [getChildIdsByOrders]: the result object, as its properties in
    creation order. *)
Definition getChildIdsByOrders (compareTo : GroupRef → GroupRef → Z)
    (H : Store) (this : ChunkRef) : list (string * list ChunkId) :=
  map (λ nl, (nl.1, ids_of H (array_sort (compare_items compareTo) nl.2)))
      (collect_lists H this).

(** [result[name]] *)
Definition property {A} (name : string) (obj : list (string * A)) : option A :=
  (λ r, r.2.2) <$> list_find (λ nl, nl.1 = name) obj.

(** Every group that is a child of some group of the store: the groups
    the queue of [getAllAsyncChunks] can ever hold. *)
Definition all_children (H : Store) : list GroupRef :=
  mjoin ((λ gr, _children gr.2) <$> map_to_list (group_objects H)).

(** A store to try the walk on. Chunk 0 is in the groups 0 and 1, both
    made of the chunks 0 and 1; group 0 has the child 2, made of the
    chunks 1 and 2; group 1 has no child. *)
Definition example_store : Store :=
  {| chunk_objects := list_to_map [(0, chunk_in (IdNumber 10) [0; 1]);
                                   (1, chunk_in (IdNumber 11) [0; 1]);
                                   (2, chunk_in (IdNumber 12) [2])];
     group_objects := list_to_map [(0, mkGroup [0; 1] [2] []);
                                   (1, mkGroup [0; 1] [] []);
                                   (2, mkGroup [1; 2] [] [])] |}.

(** The same with a cycle: group 2 is its own child and has group 0 as
    a child too. *)
Definition cyclic_store : Store :=
  {| chunk_objects := chunk_objects example_store;
     group_objects := list_to_map [(0, mkGroup [0; 1] [2] []);
                                   (1, mkGroup [0; 1] [] []);
                                   (2, mkGroup [1; 2] [2; 0] [])] |}.

(** The get-or-create and the push of the first loop, for one pair. *)
Definition push (acc : list (string * list Item)) (p : string * Item) :=
  lists_push p.1 p.2 acc.

(** The groups a walk from the groups of a chunk over the child links
    reaches in one step or more. *)
Inductive descendant (H : Store) (this : ChunkRef) : GroupRef → Prop :=
  | descendant_child g x :
      g ∈ groupsIterable H this → x ∈ childrenIterable H g → descendant H this x
  | descendant_step g x :
      descendant H this g → x ∈ childrenIterable H g → descendant H this x.

(** What holds of the queue and the result when the iterator of
    [getAllAsyncChunks] stands at [pos]: the queue holds descendants only,
    all the children of the groups of the chunk and all the children of
    the groups already visited; the result holds the chunks of the groups
    already visited that are no initial chunks. *)
Record walk_invariant (H : Store) (this : ChunkRef) (pos : nat)
    (st : list GroupRef * list ChunkRef) : Prop := {
  walk_NoDup : NoDup st.1 ∧ NoDup st.2;
  walk_descendants : ∀ x, x ∈ st.1 → descendant H this x;
  walk_seeds : ∀ g x,
    g ∈ groupsIterable H this → x ∈ childrenIterable H g → x ∈ st.1;
  walk_closed : ∀ i g x,
    i < pos → st.1 !! i = Some g → x ∈ childrenIterable H g → x ∈ st.1;
  walk_result : ∀ c,
    c ∈ st.2 ↔ ∃ i g, i < pos ∧ st.1 !! i = Some g ∧
                      c ∈ chunks (group H g) ∧ (c ∉ initialChunks_of H this)
}.

(** One chunk in one group. *)
Definition single_store : Store :=
  {| chunk_objects := {[ 0 := chunk_in IdNull [0] ]};
     group_objects := {[ 0 := mkGroup [0] [] [] ]} |}.

(** *** [getChildIdsByOrders] in the words of the specification *)

(** Every (order name, (order value, child group)) the chunk collects:
    from the groups in which it is the last chunk, from every child of
    such a group, from every option of the child whose name ends in
    [Order], under the name with the suffix stripped. *)
Definition collected (H : Store) (this : ChunkRef) : list (string * Item) :=
  g ← groupsIterable H this;
  if decide (last (chunks (group H g)) = Some this) then
    childGroup ← childrenIterable H g;
    kv ← options (group H childGroup);
    if endsWith_Order kv.1 then [(strip_Order kv.1, mkItem kv.2 childGroup)] else []
  else [].

(** The pairs of one order name. *)
Definition items_named (H : Store) (this : ChunkRef) (name : string) : list Item :=
  snd <$> filter (λ p, p.1 = name) (collected H this).

(** The ids of the chunks of the groups of a list of pairs, in order. *)
Definition chunk_ids (H : Store) (l : list Item) : list ChunkId :=
  item ← l; (λ c, id (chunk H c)) <$> chunks (group H (item_group item)).

(** The order of the numbers that are not [NaN]. *)
Definition JsNumber_lt (x y : JsNumber) : Prop :=
  match x, y with
  | Finite a, Finite b => (a < b)%Z
  | NegInfinity, Finite _ | NegInfinity, PosInfinity | Finite _, PosInfinity => True
  | _, _ => False
  end.

Definition is_finite (x : JsNumber) : Prop :=
  match x with Finite _ => True | _ => False end.

(** What the specification asks of the order of a sorted list: the order
    value descends, and of two pairs with the same value the
    comparator of the groups puts the first one first. *)
Definition ordered_before (compareTo : GroupRef → GroupRef → Z) (a b : Item) : Prop :=
  JsNumber_lt (order b) (order a) ∨
  (order a = order b ∧ (compareTo (item_group a) (item_group b) ≤ 0)%Z).

(** The suffix test in the words of the specification: the name of the
    option is some text followed by [Order], and the text is the name
    of the order. *)
Definition order_name (key name : string) : Prop := key = (name +:+ "Order")%string.

(** A store to try the ordering on: chunk 0 is the last chunk of
    group 0, whose children 1 and 2 ask for prefetching with the orders
    2 and 5; chunk 1 belongs to both children. *)
Definition prefetch_store : Store :=
  {| chunk_objects := list_to_map [(0, chunk_in (IdNumber 10) [0]);
                                   (1, chunk_in (IdNumber 11) [1; 2]);
                                   (2, chunk_in (IdNumber 12) [1]);
                                   (3, chunk_in (IdNumber 13) [2])];
     group_objects := list_to_map
       [(0, mkGroup [0] [1; 2] []);
        (1, mkGroup [1; 2] [] [("prefetchOrder", Finite 2)]);
        (2, mkGroup [3; 1] [] [("prefetchOrder", Finite 5)])] |}.

(** The same with both children asking for the order [Infinity]. *)
Definition infinity_store : Store :=
  {| chunk_objects := chunk_objects prefetch_store;
     group_objects := list_to_map
       [(0, mkGroup [0] [1; 2] []);
        (1, mkGroup [1; 2] [] [("prefetchOrder", PosInfinity)]);
        (2, mkGroup [3; 1] [] [("prefetchOrder", PosInfinity)])] |}.

(** A comparator of groups that puts the group with the greater reference
    first. *)
Definition compare_refs_desc (a b : GroupRef) : Z := (Z.of_nat b - Z.of_nat a)%Z.

(** A comparator of groups to try the ordering with. *)
Definition compare_refs (a b : GroupRef) : Z := (Z.of_nat a - Z.of_nat b)%Z.

(** *** The constructor and its counter *)

(** [let debugId = 1000], the counter of the file. *)
Definition first_debugId : nat := 1000.

(** [new Chunk(name)], with [this.debugId = debugId++]: the chunk built
    and the counter after the call. *)
Definition Chunk_constructor (name : js string) (counter : nat) : Chunk * nat :=
  (new_Chunk name counter, S counter).

(** The chunks a program builds one after the other, one for each name,
    from the first value of the counter on. *)
Definition construct_all (names : list (js string)) : list Chunk * nat :=
  foldl (λ st name,
           let '(c, counter) := Chunk_constructor name st.2 in (st.1 ++ [c], counter))
        ([], first_debugId) names.

(** *** The kind of the groups of a chunk *)

Section group_kinds.
(** Modelled from the spec: what the three tests ask of a group, in the
    state of the call: [isInitial()], [instanceof Entrypoint] and, of an
    entrypoint, [getRuntimeChunk()]. *)
Variable isInitial : GroupRef → bool.
Variable isEntrypoint : GroupRef → bool.
Variable getRuntimeChunk : GroupRef → ChunkRef.

(** [hasRuntime]: the loop returns in its first round. *)
Definition hasRuntime (H : Store) (this : ChunkRef) : bool :=
  match groupsIterable H this with
  | chunkGroup :: _ =>
      isInitial chunkGroup && isEntrypoint chunkGroup &&
      bool_decide (getRuntimeChunk chunkGroup = this)
  | [] => false
  end.

(** The loop of [canBeInitial]. *)
Fixpoint canBeInitial_loop (groups : list GroupRef) : bool :=
  match groups with
  | chunkGroup :: rest => if isInitial chunkGroup then true else canBeInitial_loop rest
  | [] => false
  end.

(** [canBeInitial] *)
Definition canBeInitial (H : Store) (this : ChunkRef) : bool :=
  canBeInitial_loop (groupsIterable H this).

(** The loop of [isOnlyInitial]. *)
Fixpoint isOnlyInitial_loop (groups : list GroupRef) : bool :=
  match groups with
  | chunkGroup :: rest =>
      if negb (isInitial chunkGroup) then false else isOnlyInitial_loop rest
  | [] => true
  end.

(** [isOnlyInitial] *)
Definition isOnlyInitial (H : Store) (this : ChunkRef) : bool :=
  if decide (length (groupsIterable H this) ≤ 0) then false
  else isOnlyInitial_loop (groupsIterable H this).
End group_kinds.

(** *** [split] *)

Section split.
(** Modelled from the spec: [ChunkGroup.insertChunk(newChunk, before)], a
    mutator of the group it is called on: the group afterwards, or [None]
    where the call raises. *)
Variable insertChunk : ChunkGroup → ChunkRef → ChunkRef → option ChunkGroup.

(** The loop of [split] over the groups of the chunk; the result tells
    whether the loop came to its end ([false]: a call of [insertChunk]
    raised, and what the rounds before it did stays). *)
Fixpoint split_loop (this newChunk : ChunkRef) (groups : list GroupRef) (H : Store)
    : Store * bool :=
  match groups with
  | [] => (H, true)
  | chunkGroup :: rest =>
      match insertChunk (group H chunkGroup) newChunk this with
      | None => (H, false)
      | Some r =>
          split_loop this newChunk rest
            (addGroup newChunk chunkGroup (with_group chunkGroup (λ _, r) H)).1
      end
  end.

(** [split] *)
Definition split (this newChunk : ChunkRef) (H : Store) : Store * bool :=
  split_loop this newChunk (groupsIterable H this) H.
End split.

(** A group that puts the new chunk in front of the given one, and raises
    when the given one is no member: an [insertChunk] to try [split]
    with. *)
Definition insert_before (r : ChunkGroup) (newChunk before : ChunkRef)
    : option ChunkGroup :=
  if decide (before ∈ chunks r) then
    Some {| chunks := take (default 0 (fst <$> list_find (λ x, x = before) (chunks r)))
                           (chunks r)
                      ++ newChunk ::
                      drop (default 0 (fst <$> list_find (λ x, x = before) (chunks r)))
                           (chunks r);
            _children := _children r; options := options r |}
  else None.

(** *** The maps over the async chunks *)

(** [if (chunk.name)]: the name, unless it is missing or empty. *)
Definition truthy_name (s : js string) : option string :=
  match s with
  | val s => if decide (s = "") then None else Some s
  | _ => None
  end.

(** The three objects [getChunkMaps] returns. They are made by
    [Object.create(null)] and read by key; the order of their keys is left
    out. *)
Record ChunkMaps := mkChunkMaps {
  maps_hash : gmap string (js string);
  maps_contentHash : gmap string (gmap string string);
  maps_name : gmap string string
}.

(** [obj[key][k] = v], the object [obj[key]] being created when it is
    not there yet. *)
Definition nested_set {V} (key k : string) (v : V)
    (obj : gmap string (gmap string V)) : gmap string (gmap string V) :=
  <[key := <[k := v]> (default ∅ (obj !! key))]> obj.

(** [obj[key][k]] *)
Definition nested_get {V} (key k : string) (obj : gmap string (gmap string V))
    : option V :=
  obj !! key ≫= (λ inner, inner !! k).

(** What a run of assignments [obj[k] = v] leaves under a key: the value
    of the last assignment to it. *)
Definition last_write {K V} `{EqDecision K} (k : K) (writes : list (K * V)) : option V :=
  snd <$> last (filter (λ kv, kv.1 = k) writes).

Section property_names.
(** The string the language makes of a number that is used as the name
    of a property ([Number::toString]: the decimal digits of an integer
    below 2^53, the shortest digits that give the number back beyond,
    with an exponent from 10^21 on). It is built into the language and
    no part of the sources: the maps are defined for whatever it is. *)
Variable Number_toString : Z → string.

(** The name of the property that a chunk id makes in [obj[chunk.id]]:
    [null] gives ["null"], a number the string the language makes of it,
    a string itself. *)
Definition property_key (i : ChunkId) : string :=
  match i with
  | IdNull => "null"
  | IdNumber n => Number_toString n
  | IdString s => s
  end.

(** One round of the loop of [getChunkMaps]. *)
Definition getChunkMaps_step (realHash : bool) (H : Store) (maps : ChunkMaps)
    (c : ChunkRef) : ChunkMaps :=
  let k := property_key (id (chunk H c)) in
  {| maps_hash :=
       <[k := if realHash then hash (chunk H c) else renderedHash (chunk H c)]>
         (maps_hash maps);
     maps_contentHash :=
       foldl (λ obj kv, nested_set kv.1 k kv.2 obj) (maps_contentHash maps)
             (contentHash (chunk H c));
     maps_name :=
       match truthy_name (name (chunk H c)) with
       | Some n => <[k := n]> (maps_name maps)
       | None => maps_name maps
       end |}.

(** [getChunkMaps] *)
Definition getChunkMaps (fuel : nat) (realHash : bool) (H : Store) (this : ChunkRef)
    : option ChunkMaps :=
  foldl (getChunkMaps_step realHash H) (mkChunkMaps ∅ ∅ ∅)
    <$> getAllAsyncChunks fuel H this.

(** [addChildIdsByOrdersToMap], the helper of [getChildIdsByOrdersMap]. *)
Definition addChildIdsByOrdersToMap (compareTo : GroupRef → GroupRef → Z) (H : Store)
    (chunkMaps : gmap string (gmap string (list ChunkId))) (c : ChunkRef)
    : gmap string (gmap string (list ChunkId)) :=
  foldl (λ obj nl, nested_set nl.1 (property_key (id (chunk H c))) nl.2 obj)
        chunkMaps (getChildIdsByOrders compareTo H c).

(** [getChildIdsByOrdersMap] *)
Definition getChildIdsByOrdersMap (fuel : nat) (compareTo : GroupRef → GroupRef → Z)
    (includeDirectChildren : bool) (H : Store) (this : ChunkRef)
    : option (gmap string (gmap string (list ChunkId))) :=
  let chunkMaps :=
    if includeDirectChildren then addChildIdsByOrdersToMap compareTo H ∅ this else ∅ in
  foldl (addChildIdsByOrdersToMap compareTo H) chunkMaps
    <$> getAllAsyncChunks fuel H this.

(** The assignments the loops make, in their order. *)
Definition hash_writes (realHash : bool) (H : Store) (l : list ChunkRef)
    : list (string * js string) :=
  c ← l;
  [(property_key (id (chunk H c)),
    if realHash then hash (chunk H c) else renderedHash (chunk H c))].

Definition name_writes (H : Store) (l : list ChunkRef) : list (string * string) :=
  c ← l;
  match name (chunk H c) with
  | val n => if decide (n = "") then [] else [(property_key (id (chunk H c)), n)]
  | _ => []
  end.

Definition contentHash_writes (H : Store) (l : list ChunkRef)
    : list ((string * string) * string) :=
  c ← l;
  (λ kv, ((kv.1, property_key (id (chunk H c))), kv.2)) <$> contentHash (chunk H c).

Definition childIds_writes (compareTo : GroupRef → GroupRef → Z) (H : Store)
    (l : list ChunkRef) : list ((string * string) * list ChunkId) :=
  c ← l;
  (λ nl, ((nl.1, property_key (id (chunk H c))), nl.2))
    <$> getChildIdsByOrders compareTo H c.
End property_names.

(** The string of an integer in decimal digits: what the language makes
    of the numbers that are integers below 2^53. *)
Definition decimal (n : Z) : string := pretty n.

End ChunkJs.

(** * Properties *)

(** ** Sets *)

Section set_facts.
Context {A : Type} `{EqDecision A}.
Implicit Types (x y : A) (s xs : list A).

Lemma elem_of_add x y s : y ∈ JsSet.add x s ↔ y = x ∨ y ∈ s.
Proof.
  unfold JsSet.add. case_decide as Hx.
  - split; [by right | intros [-> | ?]; done].
  - rewrite elem_of_app, list_elem_of_singleton. tauto.
Qed.

Lemma NoDup_add x s : NoDup s → NoDup (JsSet.add x s).
Proof.
  intros Hs. unfold JsSet.add. case_decide as Hx; [done |].
  apply NoDup_app. split_and!; [done | | apply NoDup_singleton].
  intros z Hz ->%list_elem_of_singleton. done.
Qed.

Lemma add_absent x s : x ∉ s → JsSet.add x s = s ++ [x].
Proof. intros Hx. unfold JsSet.add. by rewrite decide_False. Qed.

Lemma add_present x s : x ∈ s → JsSet.add x s = s.
Proof. intros Hx. unfold JsSet.add. by rewrite decide_True. Qed.

Lemma elem_of_delete x y s : y ∈ JsSet.delete x s ↔ y ≠ x ∧ y ∈ s.
Proof. unfold JsSet.delete. by rewrite list_elem_of_filter. Qed.

Lemma NoDup_delete x s : NoDup s → NoDup (JsSet.delete x s).
Proof. apply NoDup_filter. Qed.

Lemma delete_absent x s : x ∉ s → JsSet.delete x s = s.
Proof.
  unfold JsSet.delete. induction s as [| y s IH]; [done |].
  intros Hx. apply not_elem_of_cons in Hx as [Hxy Hxs].
  rewrite filter_cons_True by done. by rewrite IH.
Qed.

Lemma elem_of_add_all y xs s : y ∈ JsSet.add_all xs s ↔ y ∈ xs ∨ y ∈ s.
Proof.
  unfold JsSet.add_all. revert s.
  induction xs as [| x xs IH]; intros s; simpl.
  - rewrite elem_of_nil. tauto.
  - rewrite IH, elem_of_add, elem_of_cons. tauto.
Qed.

Lemma NoDup_add_all xs s : NoDup s → NoDup (JsSet.add_all xs s).
Proof.
  unfold JsSet.add_all. revert s.
  induction xs as [| x xs IH]; intros s Hs; simpl; [done |].
  by apply IH, NoDup_add.
Qed.

Lemma add_all_prefix xs s : s `prefix_of` JsSet.add_all xs s.
Proof.
  unfold JsSet.add_all. revert s.
  induction xs as [| x xs IH]; intros s; simpl; [done |].
  etrans; [| apply IH]. unfold JsSet.add.
  case_decide; [done | by apply prefix_app_r].
Qed.

Lemma filter_all (P : A → Prop) `{∀ x, Decision (P x)} s :
  (∀ x, x ∈ s → P x) → filter P s = s.
Proof.
  induction s as [| y s IH]; intros Hall; [done |].
  rewrite filter_cons_True by (apply Hall; left).
  rewrite IH; [done |]. intros x Hx. apply Hall. by right.
Qed.


Lemma filter_ext_elem (P Q : A → Prop) `{∀ x, Decision (P x)} `{∀ x, Decision (Q x)} s :
  (∀ x, x ∈ s → P x ↔ Q x) → filter P s = filter Q s.
Proof.
  induction s as [| y s IH]; intros Hext; [done |].
  rewrite !filter_cons. rewrite IH by (intros x Hx; apply Hext; by right).
  destruct (decide (P y)) as [HP | HP], (decide (Q y)) as [HQ | HQ]; try done.
  - destruct HQ. apply Hext; [by left | done].
  - destruct HP. apply Hext; [by left | done].
Qed.

Lemma has_true x s : JsSet.has x s = true ↔ x ∈ s.
Proof. unfold JsSet.has. apply bool_decide_eq_true. Qed.
End set_facts.

(** ** The module graph: how each operation changes what the graph holds *)

Section module_graph_frames.
Import ModuleGraphJs.
Implicit Types (g : ModuleGraph) (m k : ModuleId) (d : DependencyId) (c : ConnRef).

Lemma record_of_lookup g m :
  record_of g m = default new_ModuleGraphModule (_moduleMap g !! m).
Proof. unfold record_of, _getModuleGraphModule. by destruct (_ !! _). Qed.

Lemma dependency_record_of_lookup g d :
  dependency_record_of g d = default new_ModuleGraphDependency (_dependencyMap g !! d).
Proof. unfold dependency_record_of, _getModuleGraphDependency. by destruct (_ !! _). Qed.

Lemma get_mgm_pair m g :
  _getModuleGraphModule m g = ((_getModuleGraphModule m g).1, record_of g m).
Proof. unfold record_of. by destruct (_getModuleGraphModule m g). Qed.

Lemma get_mgd_pair d g :
  _getModuleGraphDependency d g = ((_getModuleGraphDependency d g).1, dependency_record_of g d).
Proof. unfold dependency_record_of. by destruct (_getModuleGraphDependency d g). Qed.

(** Creating a record on first use shows in the map only. *)
Lemma get_mgm_moduleMap m g :
  _moduleMap (_getModuleGraphModule m g).1 = <[m := record_of g m]> (_moduleMap g).
Proof.
  rewrite record_of_lookup. unfold _getModuleGraphModule.
  destruct (_moduleMap g !! m) eqn:E; simpl; [by rewrite insert_id | done].
Qed.

Lemma get_mgm_rest m g :
  _dependencyMap (_getModuleGraphModule m g).1 = _dependencyMap g ∧
  _metaMap (_getModuleGraphModule m g).1 = _metaMap g ∧
  heap (_getModuleGraphModule m g).1 = heap g.
Proof. unfold _getModuleGraphModule. by destruct (_ !! _). Qed.

Lemma get_mgd_dependencyMap d g :
  _dependencyMap (_getModuleGraphDependency d g).1
  = <[d := dependency_record_of g d]> (_dependencyMap g).
Proof.
  rewrite dependency_record_of_lookup. unfold _getModuleGraphDependency.
  destruct (_dependencyMap g !! d) eqn:E; simpl; [by rewrite insert_id | done].
Qed.

Lemma get_mgd_rest d g :
  _moduleMap (_getModuleGraphDependency d g).1 = _moduleMap g ∧
  _metaMap (_getModuleGraphDependency d g).1 = _metaMap g ∧
  heap (_getModuleGraphDependency d g).1 = heap g.
Proof. unfold _getModuleGraphDependency. by destruct (_ !! _). Qed.

Lemma record_of_get_mgm m g k : record_of (_getModuleGraphModule m g).1 k = record_of g k.
Proof.
  rewrite !record_of_lookup, get_mgm_moduleMap, record_of_lookup.
  destruct (decide (m = k)) as [-> | Hne].
  - by rewrite lookup_insert_eq.
  - by rewrite lookup_insert_ne.
Qed.

Lemma record_of_get_mgd d g k : record_of (_getModuleGraphDependency d g).1 k = record_of g k.
Proof. rewrite !record_of_lookup. by destruct (get_mgd_rest d g) as (-> & _). Qed.

Lemma dependency_record_of_get_mgd d g d' :
  dependency_record_of (_getModuleGraphDependency d g).1 d' = dependency_record_of g d'.
Proof.
  rewrite !dependency_record_of_lookup, get_mgd_dependencyMap, dependency_record_of_lookup.
  destruct (decide (d = d')) as [-> | Hne].
  - by rewrite lookup_insert_eq.
  - by rewrite lookup_insert_ne.
Qed.

Lemma dependency_record_of_get_mgm m g d :
  dependency_record_of (_getModuleGraphModule m g).1 d = dependency_record_of g d.
Proof. rewrite !dependency_record_of_lookup. by destruct (get_mgm_rest m g) as (-> & _). Qed.

Lemma heap_get_mgm m g : heap (_getModuleGraphModule m g).1 = heap g.
Proof. apply get_mgm_rest. Qed.

Lemma heap_get_mgd d g : heap (_getModuleGraphDependency d g).1 = heap g.
Proof. apply get_mgd_rest. Qed.

Lemma deref_get_mgm m g c : deref (_getModuleGraphModule m g).1 c = deref g c.
Proof. unfold deref. by rewrite heap_get_mgm. Qed.

Lemma deref_get_mgd d g c : deref (_getModuleGraphDependency d g).1 c = deref g c.
Proof. unfold deref. by rewrite heap_get_mgd. Qed.

(** Assigning to a field of a module record. *)
Lemma update_mgm_moduleMap m f g :
  _moduleMap (update_mgm m f g) = <[m := f (record_of g m)]> (_moduleMap g).
Proof.
  unfold update_mgm. rewrite get_mgm_pair. simpl.
  by rewrite get_mgm_moduleMap, insert_insert_eq.
Qed.

Lemma record_of_update_mgm m f g k :
  record_of (update_mgm m f g) k
  = if decide (k = m) then f (record_of g m) else record_of g k.
Proof.
  rewrite (record_of_lookup (update_mgm _ _ _)), update_mgm_moduleMap.
  case_decide as E.
  - subst. by rewrite lookup_insert_eq.
  - rewrite lookup_insert_ne by done. by rewrite record_of_lookup.
Qed.

Lemma update_mgm_rest m f g :
  _dependencyMap (update_mgm m f g) = _dependencyMap g ∧
  _metaMap (update_mgm m f g) = _metaMap g ∧
  heap (update_mgm m f g) = heap g.
Proof. unfold update_mgm. rewrite get_mgm_pair. simpl. apply get_mgm_rest. Qed.

Lemma heap_update_mgm m f g : heap (update_mgm m f g) = heap g.
Proof. apply update_mgm_rest. Qed.

Lemma deref_update_mgm m f g c : deref (update_mgm m f g) c = deref g c.
Proof. unfold deref. by rewrite heap_update_mgm. Qed.

Lemma dependency_record_of_update_mgm m f g d :
  dependency_record_of (update_mgm m f g) d = dependency_record_of g d.
Proof. rewrite !dependency_record_of_lookup. by destruct (update_mgm_rest m f g) as (-> & _). Qed.

(** Assigning to a field of a dependency record. *)
Lemma update_mgd_dependencyMap d f g :
  _dependencyMap (update_mgd d f g) = <[d := f (dependency_record_of g d)]> (_dependencyMap g).
Proof.
  unfold update_mgd. rewrite get_mgd_pair. simpl.
  by rewrite get_mgd_dependencyMap, insert_insert_eq.
Qed.

Lemma dependency_record_of_update_mgd d f g d' :
  dependency_record_of (update_mgd d f g) d'
  = if decide (d' = d) then f (dependency_record_of g d) else dependency_record_of g d'.
Proof.
  rewrite (dependency_record_of_lookup (update_mgd _ _ _)), update_mgd_dependencyMap.
  case_decide as E.
  - subst. by rewrite lookup_insert_eq.
  - rewrite lookup_insert_ne by done. by rewrite dependency_record_of_lookup.
Qed.

Lemma update_mgd_rest d f g :
  _moduleMap (update_mgd d f g) = _moduleMap g ∧
  _metaMap (update_mgd d f g) = _metaMap g ∧
  heap (update_mgd d f g) = heap g.
Proof. unfold update_mgd. rewrite get_mgd_pair. simpl. apply get_mgd_rest. Qed.

Lemma heap_update_mgd d f g : heap (update_mgd d f g) = heap g.
Proof. apply update_mgd_rest. Qed.

Lemma deref_update_mgd d f g c : deref (update_mgd d f g) c = deref g c.
Proof. unfold deref. by rewrite heap_update_mgd. Qed.

Lemma record_of_update_mgd d f g k : record_of (update_mgd d f g) k = record_of g k.
Proof. rewrite !record_of_lookup. by destruct (update_mgd_rest d f g) as (-> & _). Qed.

(** Assigning to a field of a connection, and building a new one. *)
Lemma record_of_with_heap f g k : record_of (with_heap f g) k = record_of g k.
Proof. by rewrite !record_of_lookup. Qed.

Lemma dependency_record_of_with_heap f g d :
  dependency_record_of (with_heap f g) d = dependency_record_of g d.
Proof. by rewrite !dependency_record_of_lookup. Qed.

Lemma record_of_mutate c f g k : record_of (mutate c f g) k = record_of g k.
Proof. apply record_of_with_heap. Qed.

Lemma dependency_record_of_mutate c f g d :
  dependency_record_of (mutate c f g) d = dependency_record_of g d.
Proof. apply dependency_record_of_with_heap. Qed.

Lemma record_of_with_metaMap f g k : record_of (with_metaMap f g) k = record_of g k.
Proof. by rewrite !record_of_lookup. Qed.

Lemma dependency_record_of_with_metaMap f g d :
  dependency_record_of (with_metaMap f g) d = dependency_record_of g d.
Proof. by rewrite !dependency_record_of_lookup. Qed.

Lemma heap_mutate c f g : heap (mutate c f g) = <[c := f (deref g c)]> (heap g).
Proof. done. Qed.

Lemma length_heap_mutate c f g : length (heap (mutate c f g)) = length (heap g).
Proof. rewrite heap_mutate. apply length_insert. Qed.

Lemma deref_mutate c f g c' :
  c < length (heap g) →
  deref (mutate c f g) c' = if decide (c' = c) then f (deref g c) else deref g c'.
Proof.
  intros Hc. unfold deref at 1. rewrite heap_mutate.
  case_decide as E.
  - subst. by apply list_lookup_total_insert_eq.
  - by apply list_lookup_total_insert_ne.
Qed.

Lemma deref_alloc g (x : ModuleGraphConnection) c :
  deref (with_heap (λ h, h ++ [x]) g) c
  = if decide (c = length (heap g)) then x
    else deref g c.
Proof.
  unfold deref. simpl. case_decide as E.
  - subst. rewrite lookup_total_app_r by done. by rewrite Nat.sub_diag.
  - destruct (decide (c < length (heap g))) as [Hlt | Hge].
    + by rewrite lookup_total_app_l.
    + rewrite !list_lookup_total_alt.
      rewrite !lookup_ge_None_2; [done | lia |].
      rewrite length_app. simpl. lia.
Qed.

(** Assigning to a field of a module record that exists. *)
Lemma record_of_alter f m g k :
  is_Some (_moduleMap g !! m) →
  record_of (with_moduleMap (alter f m) g) k
  = if decide (k = m) then f (record_of g m) else record_of g k.
Proof.
  intros [r Hr]. rewrite !record_of_lookup. simpl. case_decide as E.
  - subst. by rewrite lookup_alter_eq, Hr.
  - by rewrite lookup_alter_ne.
Qed.

Lemma is_Some_alter (f : ModuleGraphModule → ModuleGraphModule) m
    (M : gmap ModuleId ModuleGraphModule) k :
  is_Some (alter f m M !! k) ↔ is_Some (M !! k).
Proof.
  destruct (decide (m = k)) as [-> | Hne].
  - rewrite lookup_alter_eq. by rewrite fmap_is_Some.
  - by rewrite lookup_alter_ne.
Qed.

Lemma is_Some_get_mgm m g : is_Some (_moduleMap (_getModuleGraphModule m g).1 !! m).
Proof. rewrite get_mgm_moduleMap, lookup_insert_eq. eauto. Qed.

Lemma is_Some_get_mgm_mono m g k :
  is_Some (_moduleMap g !! k) → is_Some (_moduleMap (_getModuleGraphModule m g).1 !! k).
Proof.
  intros Hk. rewrite get_mgm_moduleMap.
  destruct (decide (m = k)) as [-> | Hne].
  - rewrite lookup_insert_eq. eauto.
  - by rewrite lookup_insert_ne.
Qed.
End module_graph_frames.


Create Rewrite HintDb mg.
#[local] Hint Rewrite
  record_of_update_mgm record_of_update_mgd record_of_with_heap
  record_of_get_mgm record_of_get_mgd
  dependency_record_of_update_mgm dependency_record_of_update_mgd
  dependency_record_of_with_heap dependency_record_of_get_mgm
  dependency_record_of_get_mgd
  heap_update_mgm heap_update_mgd heap_get_mgm heap_get_mgd
  deref_update_mgm deref_update_mgd deref_get_mgm deref_get_mgd
  record_of_mutate dependency_record_of_mutate
  record_of_with_metaMap dependency_record_of_with_metaMap : mg.

(** ** The module graph: what each operation does to the sets *)

Section module_graph_effects.
Import ModuleGraphJs.
Implicit Types (g : ModuleGraph) (m k : ModuleId) (d : DependencyId) (c : ConnRef).

Lemma setResolvedModule_heap o d m g :
  heap (setResolvedModule o d m g)
  = heap g ++ [new_ModuleGraphConnection (Some o) (Some d) m None].
Proof. unfold setResolvedModule. by autorewrite with mg. Qed.

Lemma setResolvedModule_incoming o d m g k :
  incoming (setResolvedModule o d m g) k
  = if decide (k = m) then JsSet.add (length (heap g)) (incoming g m) else incoming g k.
Proof.
  unfold setResolvedModule, incoming. autorewrite with mg.
  repeat case_decide; subst; by autorewrite with mg.
Qed.

Lemma setResolvedModule_outgoing o d m g k :
  outgoing (setResolvedModule o d m g) k
  = if decide (k = o) then JsSet.add (length (heap g)) (outgoing g o) else outgoing g k.
Proof.
  unfold setResolvedModule, outgoing. autorewrite with mg.
  repeat case_decide; subst; by autorewrite with mg.
Qed.

Lemma setResolvedModule_connection o d m g d' :
  connection (dependency_record_of (setResolvedModule o d m g) d')
  = if decide (d' = d) then Some (length (heap g))
    else connection (dependency_record_of g d').
Proof.
  unfold setResolvedModule. autorewrite with mg.
  by case_decide.
Qed.

Lemma setResolvedModule_deref o d m g c :
  deref (setResolvedModule o d m g) c
  = if decide (c = length (heap g))
    then new_ModuleGraphConnection (Some o) (Some d) m None
    else deref g c.
Proof. unfold setResolvedModule. autorewrite with mg. apply deref_alloc. Qed.

Lemma addExtraReason_heap m s g :
  heap (addExtraReason m s g)
  = heap g ++ [new_ModuleGraphConnection None None m (Some s)].
Proof. unfold addExtraReason. autorewrite with mg. simpl. by autorewrite with mg. Qed.

Lemma addExtraReason_incoming m s g k :
  incoming (addExtraReason m s g) k
  = if decide (k = m) then JsSet.add (length (heap g)) (incoming g m) else incoming g k.
Proof.
  unfold addExtraReason, incoming. autorewrite with mg.
  case_decide; by autorewrite with mg.
Qed.

Lemma addExtraReason_outgoing m s g k :
  outgoing (addExtraReason m s g) k = outgoing g k.
Proof.
  unfold addExtraReason, outgoing. autorewrite with mg.
  case_decide; subst; by autorewrite with mg.
Qed.

Lemma addExtraReason_connection m s g d :
  connection (dependency_record_of (addExtraReason m s g) d)
  = connection (dependency_record_of g d).
Proof. unfold addExtraReason. by autorewrite with mg. Qed.

Lemma addExtraReason_deref m s g c :
  deref (addExtraReason m s g) c
  = if decide (c = length (heap g))
    then new_ModuleGraphConnection None None m (Some s)
    else deref g c.
Proof.
  unfold addExtraReason. autorewrite with mg. rewrite deref_alloc.
  by autorewrite with mg.
Qed.
End module_graph_effects.

Section module_graph_update.
Import ModuleGraphJs.
Implicit Types (g : ModuleGraph) (m k : ModuleId) (d : DependencyId) (c : ConnRef).

Lemma updateModule_unfold d m g :
  updateModule d m g
  = let g1 := (_getModuleGraphDependency d g).1 in
    match connection (dependency_record_of g d) with
    | Some c =>
        if decide (module (deref g c) = m) then (g1, Returned ())
        else
          (update_mgm m (map_incoming (JsSet.add c))
             (mutate c (set_module m)
                (update_mgm (module (deref g c)) (map_incoming (JsSet.delete c)) g1)),
           Returned ())
    | None => (g1, TypeError)
    end.
Proof.
  unfold updateModule. rewrite get_mgd_pair. simpl.
  destruct (connection _); [| done]. by rewrite deref_get_mgd.
Qed.

Lemma addExplanation_unfold d s g :
  addExplanation d s g
  = let g1 := (_getModuleGraphDependency d g).1 in
    match connection (dependency_record_of g d) with
    | Some c => (mutate c (connection_addExplanation s) g1, Returned ())
    | None => (g1, TypeError)
    end.
Proof. unfold addExplanation. by rewrite get_mgd_pair. Qed.

(** [updateModule] on a dependency whose connection points elsewhere. *)
Section moved.
Context (d : DependencyId) (m : ModuleId) (g : ModuleGraph) (c : ConnRef).
Hypothesis Hconn : connection (dependency_record_of g d) = Some c.
Hypothesis Hne : module (deref g c) ≠ m.


Lemma updateModule_moved_incoming k :
  incoming (updateModule d m g).1 k
  = if decide (k = m) then JsSet.add c (incoming g m)
    else if decide (k = module (deref g c)) then JsSet.delete c (incoming g k)
    else incoming g k.
Proof.
  rewrite updateModule_unfold. simpl. rewrite Hconn, decide_False by done. simpl.
  unfold incoming. autorewrite with mg.
  repeat case_decide; subst; simpl; autorewrite with mg; try done.
Qed.

Lemma updateModule_moved_outgoing k :
  outgoing (updateModule d m g).1 k = outgoing g k.
Proof.
  rewrite updateModule_unfold. simpl. rewrite Hconn, decide_False by done. simpl.
  unfold outgoing. autorewrite with mg.
  repeat case_decide; subst; simpl; autorewrite with mg; try done.
Qed.

Lemma updateModule_moved_heap :
  heap (updateModule d m g).1 = <[c := set_module m (deref g c)]> (heap g).
Proof.
  rewrite updateModule_unfold. simpl. rewrite Hconn, decide_False by done. simpl.
  autorewrite with mg. rewrite heap_mutate. by autorewrite with mg.
Qed.

Lemma updateModule_moved_connection d' :
  connection (dependency_record_of (updateModule d m g).1 d')
  = connection (dependency_record_of g d').
Proof.
  rewrite updateModule_unfold. simpl. rewrite Hconn, decide_False by done. simpl.
  by autorewrite with mg.
Qed.
End moved.

(** [updateModule] that returns early or raises: only the record of the
    dependency may have been created. *)
Lemma updateModule_idle d m g :
  (connection (dependency_record_of g d) = None ∨
   ∃ c, connection (dependency_record_of g d) = Some c ∧ module (deref g c) = m) →
  (updateModule d m g).1 = (_getModuleGraphDependency d g).1.
Proof.
  rewrite updateModule_unfold. simpl. intros [-> | (c & -> & Hm)]; [done |].
  by rewrite decide_True.
Qed.
End module_graph_update.

(** ** The module graph: the two loops of [replaceModule]

    Both loops have one shape: over a set of the old record, and for the
    connections the predicate accepts, assign a field of the connection,
    add it to the set of the new record and delete it from the set being
    read. The shape is analysed once, for either set. *)

Section replace_loop.
Import ModuleGraphJs.
Context (oldModule newModule : ModuleId) (filterConnection : Filter).
Context (on_set : (list ConnRef → list ConnRef) → ModuleGraphModule → ModuleGraphModule).
Context (the_set : ModuleGraphModule → list ConnRef).
Context (assign : ModuleGraphConnection → ModuleGraphConnection).
Hypothesis Hdistinct : oldModule ≠ newModule.
Hypothesis the_set_on_set : ∀ F r, the_set (on_set F r) = F (the_set r).
Hypothesis on_set_on_set : ∀ F G r, on_set F (on_set G r) = on_set (λ l, F (G l)) r.
Hypothesis on_set_id : ∀ r, on_set (λ l, l) r = r.
Hypothesis assign_twice : ∀ x, assign (assign x) = assign x.

Local Abbreviation loop_step :=
  (ModuleGraphJs.loop_step oldModule newModule filterConnection on_set assign).
Local Abbreviation moved := (ModuleGraphJs.moved filterConnection).
Local Abbreviation loop_result :=
  (ModuleGraphJs.loop_result oldModule newModule on_set the_set assign).

Lemma loop_result_ext g mv mv' g' :
  (∀ x, mv x = mv' x) → loop_result g mv g' → loop_result g mv' g'.
Proof.
  intros Hext [Hd Ho (extra & Hn1 & Hn2 & Hn3) Hk Hr Hdep Hmeta Hlen Hex].
  split; try done.
  - intros c. by rewrite <- Hext.
  - rewrite Ho. apply list_filter_iff. intros x. by rewrite Hext.
  - exists extra. split_and!; [done | | done]. intros x. by rewrite <- Hext.
Qed.

Lemma loop_step_accept g c :
  is_Some (_moduleMap g !! oldModule) → is_Some (_moduleMap g !! newModule) →
  filterConnection c (deref g c) = true →
  let g' := loop_step g c in
  heap g' = <[c := assign (deref g c)]> (heap g) ∧
  (∀ k, record_of g' k =
        if decide (k = oldModule) then on_set (JsSet.delete c) (record_of g k)
        else if decide (k = newModule) then on_set (JsSet.add c) (record_of g k)
        else record_of g k) ∧
  (∀ d, dependency_record_of g' d = dependency_record_of g d) ∧
  _metaMap g' = _metaMap g ∧
  is_Some (_moduleMap g' !! oldModule) ∧ is_Some (_moduleMap g' !! newModule).
Proof.
  intros Hold Hnew Hacc. unfold ModuleGraphJs.loop_step. rewrite Hacc. simpl.
  split_and!; try done.
  - intros k. rewrite record_of_alter by (simpl; by apply is_Some_alter).
    case_decide; subst; rewrite record_of_alter by done;
      case_decide; subst; by rewrite ?record_of_mutate.
  - intros d. by rewrite !dependency_record_of_lookup.
  - simpl. by rewrite !is_Some_alter.
  - simpl. by rewrite !is_Some_alter.
Qed.

Lemma loop_result_nil g :
  is_Some (_moduleMap g !! oldModule) → is_Some (_moduleMap g !! newModule) →
  loop_result g (moved g []) g.
Proof.
  intros Hold Hnew. split; try done.
  - by rewrite filter_all.
  - exists []. rewrite app_nil_r. split_and!; [done | | constructor].
    intros x. rewrite elem_of_nil. unfold ModuleGraphJs.moved. simpl. naive_solver.
  - intros k. exists (λ l, l). by rewrite on_set_id.
Qed.

Lemma moved_snoc g visited c x :
  moved g (visited ++ [c]) x
  = moved g visited x || (bool_decide (x = c) && filterConnection c (deref g c)).
Proof.
  unfold ModuleGraphJs.moved. destruct (decide (x = c)) as [-> | Hne].
  - rewrite (bool_decide_eq_true_2 (c = c)) by done.
    rewrite (bool_decide_eq_true_2 (c ∈ visited ++ [c])).
    2:{ apply elem_of_app. right. by left. }
    simpl. by destruct (bool_decide _), (filterConnection _ _).
  - rewrite (bool_decide_eq_false_2 (x = c)) by done. simpl.
    rewrite orb_false_r. f_equal. apply bool_decide_ext.
    rewrite elem_of_app, list_elem_of_singleton. tauto.
Qed.

Lemma loop_result_snoc g visited g' c :
  c < length (heap g) →
  loop_result g (moved g visited) g' →
  loop_result g (moved g (visited ++ [c])) (loop_step g' c).
Proof.
  intros Hc HR.
  destruct HR as [Hd Ho (extra & Hn1 & Hn2 & Hn3) Hk Hr Hdep Hmeta Hlen [Hex1 Hex2]].
  destruct (filterConnection c (deref g' c)) eqn:Hacc.
  - (* accepted: the connection moves *)
    assert (moved g (visited ++ [c]) c = true) as Hmc.
    { rewrite moved_snoc. rewrite bool_decide_eq_true_2 by done. simpl.
      rewrite Hd in Hacc. destruct (moved g visited c) eqn:E; [done |].
      simpl. done. }
    assert (∀ x, x ≠ c → moved g (visited ++ [c]) x = moved g visited x) as Hmx.
    { intros x Hx. rewrite moved_snoc. rewrite bool_decide_eq_false_2 by done.
      simpl. by rewrite orb_false_r. }
    destruct (loop_step_accept g' c Hex1 Hex2 Hacc) as (Hh & Hrec & Hdep' & Hmeta' & Hex1' & Hex2').
    split.
    + intros x. unfold deref at 1. rewrite Hh.
      destruct (decide (x = c)) as [-> | Hx].
      * rewrite list_lookup_total_insert_eq by lia. rewrite Hmc, Hd.
        destruct (moved g visited c); [apply assign_twice | done].
      * rewrite list_lookup_total_insert_ne by done. rewrite Hmx by done. apply Hd.
    + rewrite Hrec, decide_True by done. rewrite the_set_on_set, Ho.
      unfold JsSet.delete. rewrite list_filter_filter.
      apply list_filter_iff. intros x. split.
      * intros [Hx Hm]. by rewrite Hmx.
      * intros Hm. destruct (decide (x = c)) as [-> | Hx]; [congruence |].
        split; [done |]. by rewrite <- Hmx.
    + rewrite Hrec, decide_False, decide_True by done.
      rewrite the_set_on_set, Hn1.
      destruct (decide (c ∈ the_set (record_of g newModule) ++ extra)) as [Hin | Hout].
      * rewrite add_present by done. exists extra. split_and!; [done | | done].
        intros x. rewrite Hn2. destruct (decide (x = c)) as [-> | Hx].
        -- rewrite Hmc. apply elem_of_app in Hin as [Hin | Hin].
           ++ naive_solver.
           ++ apply Hn2 in Hin. naive_solver.
        -- by rewrite Hmx.
      * rewrite add_absent by done. exists (extra ++ [c]).
        rewrite not_elem_of_app in Hout. destruct Hout as [Hout1 Hout2].
        split_and!.
        -- by rewrite app_assoc.
        -- intros x. rewrite elem_of_app, list_elem_of_singleton, Hn2.
           destruct (decide (x = c)) as [-> | Hx].
           ++ rewrite Hmc. naive_solver.
           ++ rewrite Hmx by done. naive_solver.
        -- apply NoDup_app. split_and!; [done | | apply NoDup_singleton].
           intros x Hx ->%list_elem_of_singleton. done.
    + intros k Hk1 Hk2. rewrite Hrec, !decide_False by done. by apply Hk.
    + intros k. destruct (Hr k) as [F HF]. rewrite Hrec.
      repeat case_decide; rewrite HF, ?on_set_on_set; eauto.
    + intros d. by rewrite Hdep'.
    + by rewrite Hmeta'.
    + rewrite Hh, length_insert. done.
    + done.
  - (* rejected: nothing happens *)
    unfold ModuleGraphJs.loop_step. rewrite Hacc.
    apply (loop_result_ext g (moved g visited)); [| by split; eauto].
    intros x. rewrite moved_snoc.
    destruct (decide (x = c)) as [-> | Hx].
    + rewrite bool_decide_eq_true_2 by done. simpl.
      rewrite Hd in Hacc. destruct (moved g visited c) eqn:E; [done |].
      simpl. by rewrite Hacc.
    + rewrite bool_decide_eq_false_2 by done. simpl. by rewrite orb_false_r.
Qed.

Lemma loop_result_foldl g l :
  is_Some (_moduleMap g !! oldModule) → is_Some (_moduleMap g !! newModule) →
  (∀ c, c ∈ l → c < length (heap g)) →
  loop_result g (moved g l) (foldl loop_step g l).
Proof.
  intros Hold Hnew. induction l as [| c l IH] using rev_ind; intros Hl.
  - by apply loop_result_nil.
  - rewrite foldl_app. simpl. apply loop_result_snoc.
    + apply Hl. apply elem_of_app. right. by left.
    + apply IH. intros x Hx. apply Hl. apply elem_of_app. by left.
Qed.
End replace_loop.

(** ** The module graph: consistency is kept by every operation *)

Section module_graph_consistent.
Import ModuleGraphJs.
Implicit Types (g : ModuleGraph) (m k : ModuleId) (d : DependencyId) (c : ConnRef).

Lemma consistent_new : consistent new_ModuleGraph.
Proof.
  split.
  - intros c k. unfold incoming. rewrite record_of_lookup. simpl.
    rewrite lookup_empty. simpl. rewrite elem_of_nil. lia.
  - intros c k. unfold outgoing. rewrite record_of_lookup. simpl.
    rewrite lookup_empty. simpl. rewrite elem_of_nil. lia.
  - intros k. unfold incoming, outgoing. rewrite record_of_lookup. simpl.
    rewrite lookup_empty. simpl. split; constructor.
  - intros d c. rewrite dependency_record_of_lookup. simpl.
    by rewrite lookup_empty.
Qed.

(** An operation that leaves alone the sets, the targets and origins of
    the connections, and the connections of the dependencies, keeps the
    graph consistent. *)
Lemma consistent_frame g g' :
  (∀ k, incoming g' k = incoming g k) →
  (∀ k, outgoing g' k = outgoing g k) →
  length (heap g') = length (heap g) →
  (∀ c, module (deref g' c) = module (deref g c)) →
  (∀ c, originModule (deref g' c) = originModule (deref g c)) →
  (∀ d, connection (dependency_record_of g' d) = connection (dependency_record_of g d)) →
  consistent g → consistent g'.
Proof.
  intros Hi Ho Hl Hm Hor Hd [Ci Co Cn Cd]. split.
  - intros c k. by rewrite Hi, Hl, Hm.
  - intros c k. by rewrite Ho, Hl, Hor.
  - intros k. by rewrite Hi, Ho.
  - intros d c. rewrite Hd, Hl. apply Cd.
Qed.

Lemma consistent_get_mgd d g : consistent g → consistent (_getModuleGraphDependency d g).1.
Proof.
  apply consistent_frame; intros; unfold incoming, outgoing; by autorewrite with mg.
Qed.

Lemma consistent_get_mgm m g : consistent g → consistent (_getModuleGraphModule m g).1.
Proof.
  apply consistent_frame; intros; unfold incoming, outgoing; by autorewrite with mg.
Qed.

Lemma consistent_setParents d b (pm : js ModuleId) g :
  consistent g → consistent (setParents d b pm g).
Proof.
  unfold setParents.
  apply consistent_frame; intros; unfold incoming, outgoing; autorewrite with mg; try done.
  by case_decide; subst.
Qed.

Lemma consistent_setIssuer m i g : consistent g → consistent (setIssuer m i g).
Proof.
  unfold setIssuer.
  apply consistent_frame; intros; unfold incoming, outgoing; autorewrite with mg; try done.
  all: by case_decide; subst.
Qed.

Lemma consistent_setUsedExports m u g : consistent g → consistent (setUsedExports m u g).
Proof.
  unfold setUsedExports.
  apply consistent_frame; intros; unfold incoming, outgoing; autorewrite with mg; try done.
  all: by case_decide; subst.
Qed.

Lemma consistent_getMeta thing g : consistent g → consistent (getMeta thing g).1.
Proof.
  unfold getMeta. destruct (_metaMap g !! thing); [done |]. simpl.
  apply consistent_frame; intros; unfold incoming, outgoing; by autorewrite with mg.
Qed.

Lemma consistent_query q g : consistent g → consistent (query q g).1.
Proof.
  destruct q; simpl;
    unfold getParentModule, getParentBlock, getModule, getOrigin, getResolvedModule,
      getResolvedOrigin, getConnection, getIncomingConnections, getOutgoingConnection,
      getIssuer, getOptimizationBailout, getUsedExports;
    intros Hg.
  all: try (pose proof (consistent_get_mgd d g Hg) as Hg';
            destruct (_getModuleGraphDependency d g); exact Hg').
  all: try (pose proof (consistent_get_mgm m g Hg) as Hg';
            destruct (_getModuleGraphModule m g); exact Hg').
  by apply consistent_getMeta.
Qed.

Lemma consistent_addExplanation d s g : consistent g → consistent (addExplanation d s g).1.
Proof.
  intros Hg. rewrite addExplanation_unfold. simpl.
  destruct (connection (dependency_record_of g d)) as [c |] eqn:Hc; simpl;
    [| by apply consistent_get_mgd].
  pose proof (consistent_dependencies g Hg d c Hc) as Hlt.
  revert Hg. apply consistent_frame; intros; unfold incoming, outgoing;
    autorewrite with mg; try done.
  - rewrite length_heap_mutate. by autorewrite with mg.
  - rewrite deref_mutate by (by autorewrite with mg). autorewrite with mg.
    by case_decide; subst.
  - rewrite deref_mutate by (by autorewrite with mg). autorewrite with mg.
    by case_decide; subst.
Qed.

(** A new connection enters the incoming set of [m] and, when it has an
    origin, the outgoing set of the origin. *)
Lemma consistent_alloc g g' (o : option ModuleId) m x :
  module x = m → originModule x = o →
  heap g' = heap g ++ [x] →
  (∀ k, incoming g' k
        = if decide (k = m) then JsSet.add (length (heap g)) (incoming g m)
          else incoming g k) →
  (∀ k, outgoing g' k
        = if decide (Some k = o) then JsSet.add (length (heap g)) (outgoing g k)
          else outgoing g k) →
  (∀ d c, connection (dependency_record_of g' d) = Some c →
          c = length (heap g) ∨ connection (dependency_record_of g d) = Some c) →
  consistent g → consistent g'.
Proof.
  intros Hm Ho Hh Hi Hout Hd [Ci Co Cn Cd].
  assert (∀ c, deref g' c = if decide (c = length (heap g)) then x else deref g c) as Hderef.
  { intros c. unfold deref. rewrite Hh. apply (deref_alloc g x c). }
  assert (length (heap g') = S (length (heap g))) as Hlen.
  { rewrite Hh, length_app. simpl. lia. }
  split.
  - intros c k. rewrite Hi, Hlen, Hderef.
    destruct (decide (k = m)) as [-> | Hk].
    + rewrite elem_of_add, Ci. case_decide; subst; [naive_solver lia |].
      split; [intros [? | [? ?]]; [done | split; [lia | done]] |].
      intros [? ?]. right. split; [lia | done].
    + rewrite Ci. case_decide; subst; [| naive_solver lia].
      split; [lia |]. intros [_ ?]. done.
  - intros c k. rewrite Hout, Hlen, Hderef.
    destruct (decide (Some k = o)) as [<- | Hk].
    + rewrite elem_of_add, Co. case_decide; subst; [naive_solver lia |].
      split; [intros [? | [? ?]]; [done | split; [lia | done]] |].
      intros [? ?]. right. split; [lia | done].
    + rewrite Co. case_decide; subst; [| naive_solver lia].
      split; [lia |]. intros [_ ?]. done.
  - intros k. rewrite Hi, Hout. destruct (Cn k) as [? ?], (Cn m) as [? ?].
    split; repeat case_decide; subst; auto using NoDup_add.
  - intros d c Hc. rewrite Hlen. destruct (Hd d c Hc) as [-> | Hc']; [lia |].
    specialize (Cd d c Hc'). lia.
Qed.

Lemma consistent_setResolvedModule o d m g :
  consistent g → consistent (setResolvedModule o d m g).
Proof.
  apply (consistent_alloc g _ (Some o) m (new_ModuleGraphConnection (Some o) (Some d) m None));
    try done.
  - apply setResolvedModule_heap.
  - apply setResolvedModule_incoming.
  - intros k. rewrite setResolvedModule_outgoing.
    destruct (decide (k = o)) as [-> | Hk].
    + by rewrite decide_True.
    + rewrite decide_False; [done | congruence].
  - intros d' c. rewrite setResolvedModule_connection.
    case_decide; [intros [= <-]; by left | by right].
Qed.

Lemma consistent_addExtraReason m s g : consistent g → consistent (addExtraReason m s g).
Proof.
  apply (consistent_alloc g _ None m (new_ModuleGraphConnection None None m (Some s)));
    try done.
  - apply addExtraReason_heap.
  - apply addExtraReason_incoming.
  - intros k. by rewrite addExtraReason_outgoing, decide_False.
  - intros d c. rewrite addExtraReason_connection. by right.
Qed.

Lemma consistent_updateModule d m g : consistent g → consistent (updateModule d m g).1.
Proof.
  intros Hg.
  destruct (connection (dependency_record_of g d)) as [c |] eqn:Hc.
  2:{ rewrite updateModule_idle by (by left). by apply consistent_get_mgd. }
  destruct (decide (module (deref g c) = m)) as [Hm | Hm].
  { rewrite updateModule_idle by (right; eauto). by apply consistent_get_mgd. }
  pose proof (consistent_dependencies g Hg d c Hc) as Hlt.
  destruct Hg as [Ci Co Cn Cd].
  assert (∀ c', deref (updateModule d m g).1 c'
                = if decide (c' = c) then set_module m (deref g c) else deref g c') as Hderef.
  { intros c'. unfold deref at 1. rewrite (updateModule_moved_heap d m g c Hc Hm).
    case_decide; subst.
    - by apply list_lookup_total_insert_eq.
    - by apply list_lookup_total_insert_ne. }
  assert (length (heap (updateModule d m g).1) = length (heap g)) as Hlen.
  { rewrite (updateModule_moved_heap d m g c Hc Hm). apply length_insert. }
  split.
  - intros c' k. rewrite (updateModule_moved_incoming d m g c Hc Hm), Hlen, Hderef.
    destruct (decide (c' = c)) as [-> | Hc'].
    + simpl. repeat case_decide; subst;
        rewrite ?elem_of_add, ?elem_of_delete, ?Ci; naive_solver.
    + repeat case_decide; subst; rewrite ?elem_of_add, ?elem_of_delete, ?Ci;
        naive_solver.
  - intros c' k. rewrite (updateModule_moved_outgoing d m g c Hc Hm), Hlen, Hderef.
    rewrite Co. by case_decide; subst.
  - intros k. rewrite (updateModule_moved_incoming d m g c Hc Hm).
    rewrite (updateModule_moved_outgoing d m g c Hc Hm).
    destruct (Cn k) as [? ?], (Cn m) as [? ?].
    split; repeat case_decide; subst; auto using NoDup_add, NoDup_delete.
  - intros d' c'. rewrite (updateModule_moved_connection d m g c Hc Hm), Hlen.
    apply Cd.
Qed.
End module_graph_consistent.

(** ** The module graph: [replaceModule] as its two loops *)

(** The two loops, as instances of the common shape. *)
Abbreviation outgoing_loop a b f :=
  (ModuleGraphJs.loop_step a b f ModuleGraphJs.map_outgoing
     (ModuleGraphJs.set_originModule (Some b))).

Abbreviation incoming_loop a b f :=
  (ModuleGraphJs.loop_step a b f ModuleGraphJs.map_incoming (ModuleGraphJs.set_module b)).

Abbreviation outgoing_result a b :=
  (ModuleGraphJs.loop_result a b ModuleGraphJs.map_outgoing ModuleGraphJs.outgoingConnections
     (ModuleGraphJs.set_originModule (Some b))).

Abbreviation incoming_result a b :=
  (ModuleGraphJs.loop_result a b ModuleGraphJs.map_incoming ModuleGraphJs.incomingConnections
     (ModuleGraphJs.set_module b)).

Section module_graph_replace.
Import ModuleGraphJs.
Implicit Types (g : ModuleGraph) (m k : ModuleId) (d : DependencyId) (c : ConnRef).

Lemma replaceModule_unfold a b f g :
  a ≠ b →
  replaceModule a b f g
  = foldl (incoming_loop a b f)
      (foldl (outgoing_loop a b f)
         (_getModuleGraphModule b (_getModuleGraphModule a g).1).1
         (outgoing g a))
      (incoming g a).
Proof.
  intros Hne. unfold replaceModule. rewrite decide_False by done.
  unfold incoming, outgoing, record_of.
  destruct (_getModuleGraphModule a g) as [g1 r]. simpl.
  destruct (_getModuleGraphModule b g1) as [g2 r']. reflexivity.
Qed.

Lemma outgoing_result_foldl a b f g l :
  a ≠ b →
  is_Some (_moduleMap g !! a) → is_Some (_moduleMap g !! b) →
  (∀ c, c ∈ l → c < length (heap g)) →
  outgoing_result a b g (moved f g l) (foldl (outgoing_loop a b f) g l).
Proof.
  intros Hne. apply loop_result_foldl; try done.
  intros r. by destruct r.
Qed.

Lemma incoming_result_foldl a b f g l :
  a ≠ b →
  is_Some (_moduleMap g !! a) → is_Some (_moduleMap g !! b) →
  (∀ c, c ∈ l → c < length (heap g)) →
  incoming_result a b g (moved f g l) (foldl (incoming_loop a b f) g l).
Proof.
  intros Hne. apply loop_result_foldl; try done.
  intros r. by destruct r.
Qed.

Lemma NoDup_app_extra (s extra : list ConnRef) (P : ConnRef → Prop) :
  NoDup s → NoDup extra → (∀ x, x ∈ extra ↔ ((x ∉ s) ∧ P x)) → NoDup (s ++ extra).
Proof.
  intros Hs He Hx. apply NoDup_app. split_and!; [done | | done].
  intros x Hin Hin'. apply Hx in Hin'. naive_solver.
Qed.

Lemma consistent_outgoing_result a b g mv g' :
  a ≠ b → consistent g →
  (∀ c, mv c = true → c ∈ outgoing g a) →
  outgoing_result a b g mv g' → consistent g'.
Proof.
  intros Hne [Ci Co Cn Cd] Hmv
    [Hd Ho (extra & Hn1 & Hn2 & Hn3) Hk Hr Hdep Hmeta Hlen Hex].
  assert (∀ k, incoming g' k = incoming g k) as Hin.
  { intros k. unfold incoming. destruct (Hr k) as [F ->]. done. }
  assert (∀ c, mv c = true → c < length (heap g) ∧ originModule (deref g c) = Some a) as Hmv'.
  { intros c Hc. apply Co, Hmv, Hc. }
  split.
  - intros c k. rewrite Hin, Hlen, Hd, Ci. by destruct (mv c).
  - intros c k. rewrite Hlen, Hd.
    destruct (decide (k = a)) as [-> | Hka]; [| destruct (decide (k = b)) as [-> | Hkb]].
    + unfold outgoing at 1. rewrite Ho, list_elem_of_filter.
      fold (outgoing g a). rewrite Co.
      destruct (mv c) eqn:E; simpl; naive_solver.
    + unfold outgoing at 1. rewrite Hn1, elem_of_app, Hn2.
      fold (outgoing g b). rewrite Co.
      destruct (mv c) eqn:E; simpl; [| naive_solver].
      destruct (Hmv' c E) as [Hlt Hor].
      split; [done |]. intros _.
      destruct (decide (c ∈ outgoing g b)) as [Hcb | Hcb].
      * apply Co in Hcb. by left.
      * by right.
    + unfold outgoing at 1. rewrite Hk by done. fold (outgoing g k). rewrite Co.
      destruct (mv c) eqn:E; simpl; [| done].
      destruct (Hmv' c E) as [Hlt Hor].
      split; intros [_ Heq]; [rewrite Hor in Heq |]; congruence.
  - intros k. rewrite Hin. split; [apply Cn |].
    destruct (decide (k = a)) as [-> | Hka]; [| destruct (decide (k = b)) as [-> | Hkb]].
    + unfold outgoing. rewrite Ho. apply NoDup_filter, Cn.
    + unfold outgoing. rewrite Hn1.
      apply (NoDup_app_extra _ _ (λ x, mv x = true)); [apply Cn | done | done].
    + unfold outgoing. rewrite Hk by done. apply Cn.
  - intros d c. rewrite Hdep, Hlen. apply Cd.
Qed.

Lemma consistent_incoming_result a b g mv g' :
  a ≠ b → consistent g →
  (∀ c, mv c = true → c ∈ incoming g a) →
  incoming_result a b g mv g' → consistent g'.
Proof.
  intros Hne [Ci Co Cn Cd] Hmv
    [Hd Ho (extra & Hn1 & Hn2 & Hn3) Hk Hr Hdep Hmeta Hlen Hex].
  assert (∀ k, outgoing g' k = outgoing g k) as Hout.
  { intros k. unfold outgoing. destruct (Hr k) as [F ->]. done. }
  assert (∀ c, mv c = true → c < length (heap g) ∧ module (deref g c) = a) as Hmv'.
  { intros c Hc. apply Ci, Hmv, Hc. }
  split.
  - intros c k. rewrite Hlen, Hd.
    destruct (decide (k = a)) as [-> | Hka]; [| destruct (decide (k = b)) as [-> | Hkb]].
    + unfold incoming at 1. rewrite Ho, list_elem_of_filter.
      fold (incoming g a). rewrite Ci.
      destruct (mv c) eqn:E; simpl; naive_solver.
    + unfold incoming at 1. rewrite Hn1, elem_of_app, Hn2.
      fold (incoming g b). rewrite Ci.
      destruct (mv c) eqn:E; simpl; [| naive_solver].
      destruct (Hmv' c E) as [Hlt Hor].
      split; [done |]. intros _.
      destruct (decide (c ∈ incoming g b)) as [Hcb | Hcb].
      * apply Ci in Hcb. by left.
      * by right.
    + unfold incoming at 1. rewrite Hk by done. fold (incoming g k). rewrite Ci.
      destruct (mv c) eqn:E; simpl; [| done].
      destruct (Hmv' c E) as [Hlt Hor].
      split; intros [_ Heq]; [rewrite Hor in Heq |]; congruence.
  - intros c k. rewrite Hout, Hlen, Hd, Co. by destruct (mv c).
  - intros k. rewrite Hout. split; [| apply Cn].
    destruct (decide (k = a)) as [-> | Hka]; [| destruct (decide (k = b)) as [-> | Hkb]].
    + unfold incoming. rewrite Ho. apply NoDup_filter, Cn.
    + unfold incoming. rewrite Hn1.
      apply (NoDup_app_extra _ _ (λ x, mv x = true)); [apply Cn | done | done].
    + unfold incoming. rewrite Hk by done. apply Cn.
  - intros d c. rewrite Hdep, Hlen. apply Cd.
Qed.

Lemma moved_visited f g l c : moved f g l c = true → c ∈ l.
Proof.
  unfold moved. intros [H _]%andb_true_iff. by apply bool_decide_eq_true in H.
Qed.

Lemma replaceModule_loops a b f g :
  a ≠ b → consistent g →
  let g2 := (_getModuleGraphModule b (_getModuleGraphModule a g).1).1 in
  let g3 := between_loops a b f g in
  outgoing_result a b g2 (moved f g2 (outgoing g a)) g3 ∧
  incoming_result a b g3 (moved f g3 (incoming g a)) (replaceModule a b f g) ∧
  consistent g2 ∧ consistent g3 ∧
  incoming g3 a = incoming g a.
Proof.
  intros Hne Hg g2 g3.
  assert (consistent g2) as Hg2 by (by apply consistent_get_mgm, consistent_get_mgm).
  assert (is_Some (_moduleMap g2 !! a) ∧ is_Some (_moduleMap g2 !! b)) as [Ha Hb].
  { split; [apply is_Some_get_mgm_mono |]; apply is_Some_get_mgm. }
  assert (∀ k, record_of g2 k = record_of g k) as Hrec.
  { intros k. unfold g2. by autorewrite with mg. }
  assert (outgoing_result a b g2 (moved f g2 (outgoing g a)) g3) as H1.
  { apply outgoing_result_foldl; try done.
    intros c Hc. unfold outgoing in Hc. rewrite <- Hrec in Hc.
    by apply (consistent_outgoing g2 Hg2) in Hc as [? _]. }
  assert (consistent g3) as Hg3.
  { apply (consistent_outgoing_result a b g2 (moved f g2 (outgoing g a)) g3 Hne Hg2); [| done].
    intros c Hc%moved_visited. unfold outgoing. by rewrite Hrec. }
  assert (incoming g3 a = incoming g a) as Hin.
  { pose proof H1 as [_ _ _ _ Hr _ _ _ _].
    unfold incoming. destruct (Hr a) as [F ->]. simpl. by rewrite Hrec. }
  pose proof H1 as [_ _ _ _ _ _ _ _ [Ha3 Hb3]].
  split_and!; try done.
  rewrite replaceModule_unfold by done. fold g2. fold (between_loops a b f g). fold g3.
  apply incoming_result_foldl; try done.
  intros c Hc. rewrite <- Hin in Hc.
    by apply (consistent_incoming g3 Hg3) in Hc as [? _].
Qed.

Lemma consistent_replaceModule a b f g :
  consistent g → consistent (replaceModule a b f g).
Proof.
  intros Hg. destruct (decide (a = b)) as [-> | Hne].
  { unfold replaceModule. by rewrite decide_True. }
  destruct (replaceModule_loops a b f g Hne Hg) as (H1 & H2 & Hg2 & Hg3 & Hin).
  apply (consistent_incoming_result a b _ _ _ Hne Hg3) in H2; [done |].
  intros c Hc%moved_visited. by rewrite Hin.
Qed.

Lemma consistent_exec g o : consistent g → consistent (exec g o).
Proof.
  destruct o; simpl;
    auto using consistent_setParents, consistent_setResolvedModule,
      consistent_updateModule, consistent_addExplanation, consistent_replaceModule,
      consistent_addExtraReason, consistent_setIssuer, consistent_setUsedExports,
      consistent_query.
Qed.

Lemma consistent_run ops g : consistent g → consistent (run ops g).
Proof.
  unfold run. revert g. induction ops as [| o ops IH]; intros g Hg; simpl; [done |].
  by apply IH, consistent_exec.
Qed.
End module_graph_replace.

(** ** The module graph: what the queries see *)

Section module_graph_queries.
Import ModuleGraphJs.
Implicit Types (g : ModuleGraph) (m k : ModuleId) (d : DependencyId) (c : ConnRef).

Lemma meta_of_lookup g thing :
  meta_of g thing = default ([] : MetaObject) (_metaMap g !! thing).
Proof. unfold meta_of, getMeta. by destruct (_ !! _). Qed.

Lemma same_view_get_mgd d g : same_view (_getModuleGraphDependency d g).1 g.
Proof.
  split; intros; autorewrite with mg; try done.
  rewrite !meta_of_lookup. by destruct (get_mgd_rest d g) as (_ & -> & _).
Qed.

Lemma same_view_get_mgm m g : same_view (_getModuleGraphModule m g).1 g.
Proof.
  split; intros; autorewrite with mg; try done.
  rewrite !meta_of_lookup. by destruct (get_mgm_rest m g) as (_ & -> & _).
Qed.

Lemma same_view_getMeta thing g : same_view (getMeta thing g).1 g.
Proof.
  unfold getMeta. destruct (_metaMap g !! thing) eqn:E; simpl; [done |].
  split; try (intros; by autorewrite with mg).
  intros t. rewrite !meta_of_lookup. simpl.
  destruct (decide (thing = t)) as [-> | Hne].
  - by rewrite lookup_insert_eq, E.
  - by rewrite lookup_insert_ne.
Qed.

Lemma query_answer q g : (query q g).2 = answer_of q g.
Proof.
  destruct q; simpl; unfold answer;
    unfold getParentModule, getParentBlock, getModule, getOrigin, getResolvedModule,
      getResolvedOrigin, getConnection, getIncomingConnections, getOutgoingConnection,
      getIssuer, getOptimizationBailout, getUsedExports, incoming, outgoing;
    try (rewrite (get_mgd_pair d g); simpl;
         try destruct (connection _); by rewrite ?deref_get_mgd);
    try (rewrite (get_mgm_pair m g); simpl; done).
  done.
Qed.

Lemma getConnection_result d g :
  (getConnection d g).2
  = match connection (dependency_record_of g d) with
    | Some c => val c
    | None => undefined
    end.
Proof. unfold getConnection. by rewrite (get_mgd_pair d g). Qed.

Lemma getModule_result d g :
  (getModule d g).2
  = match connection (dependency_record_of g d) with
    | Some c => val (module (deref g c))
    | None => null
    end.
Proof.
  unfold getModule. rewrite (get_mgd_pair d g). simpl.
  destruct (connection _); by rewrite ?deref_get_mgd.
Qed.

Lemma getOrigin_result d g :
  (getOrigin d g).2
  = match connection (dependency_record_of g d) with
    | Some c => from_null (originModule (deref g c))
    | None => null
    end.
Proof.
  unfold getOrigin. rewrite (get_mgd_pair d g). simpl.
  destruct (connection _); by rewrite ?deref_get_mgd.
Qed.

Lemma getUsedExports_result m g :
  (getUsedExports m g).2 = usedExports (record_of g m).
Proof. unfold getUsedExports. by rewrite (get_mgm_pair m g). Qed.

Lemma query_view q g : same_view (query q g).1 g.
Proof.
  destruct q; simpl;
    unfold getParentModule, getParentBlock, getModule, getOrigin, getResolvedModule,
      getResolvedOrigin, getConnection, getIncomingConnections, getOutgoingConnection,
      getIssuer, getOptimizationBailout, getUsedExports.
  all: try (pose proof (same_view_get_mgd d g) as Hv;
            destruct (_getModuleGraphDependency d g); exact Hv).
  all: try (pose proof (same_view_get_mgm m g) as Hv;
            destruct (_getModuleGraphModule m g); exact Hv).
  apply same_view_getMeta.
Qed.

Lemma answer_of_view q g g' : same_view g g' → answer_of q g = answer_of q g'.
Proof.
  intros [Hr Hd Hh Hm]. unfold answer_of, incoming, outgoing, deref.
  destruct q; by rewrite ?Hr, ?Hd, ?Hh, ?Hm.
Qed.
End module_graph_queries.

(** ** The module graph: what only one operation can change *)

Section module_graph_owners.
Import ModuleGraphJs.
Implicit Types (g : ModuleGraph) (m k : ModuleId) (d : DependencyId) (c : ConnRef).

Lemma loop_step_dependencyMap a b f on_set assign g c :
  _dependencyMap (loop_step a b f on_set assign g c) = _dependencyMap g.
Proof. unfold loop_step. by destruct (f c (deref g c)). Qed.

Lemma foldl_loop_step_dependencyMap a b f on_set assign g l :
  _dependencyMap (foldl (loop_step a b f on_set assign) g l) = _dependencyMap g.
Proof.
  revert g. induction l as [| c l IH]; intros g; simpl; [done |].
  by rewrite IH, loop_step_dependencyMap.
Qed.

Lemma replaceModule_dependency a b f g d :
  dependency_record_of (replaceModule a b f g) d = dependency_record_of g d.
Proof.
  destruct (decide (a = b)) as [-> | Hne].
  { unfold replaceModule. by rewrite decide_True. }
  rewrite replaceModule_unfold by done.
  rewrite (dependency_record_of_lookup (foldl _ _ _)).
  rewrite !foldl_loop_step_dependencyMap, <- dependency_record_of_lookup.
  by autorewrite with mg.
Qed.

(** The connection of a dependency is assigned by [setResolvedModule]
    alone. *)
Lemma exec_connection g o d :
  (∀ a m, o ≠ OSetResolvedModule a d m) →
  connection (dependency_record_of (exec g o) d) = connection (dependency_record_of g d).
Proof.
  intros Ho. destruct o as [d' b pm | a d' m' | d' m' | d' s | a b f | m' s | m' i | m' u | q];
    simpl.
  - unfold setParents. autorewrite with mg. by case_decide; subst.
  - rewrite setResolvedModule_connection. case_decide; [| done].
    subst. by destruct (Ho a m').
  - destruct (connection (dependency_record_of g d')) as [c |] eqn:Hc.
    2:{ rewrite updateModule_idle by (by left). by autorewrite with mg. }
    destruct (decide (module (deref g c) = m')) as [Hm | Hm].
    + rewrite updateModule_idle by (right; eauto). by autorewrite with mg.
    + by rewrite (updateModule_moved_connection d' m' g c Hc Hm).
  - rewrite addExplanation_unfold. simpl.
    destruct (connection (dependency_record_of g d')); simpl; by autorewrite with mg.
  - by rewrite replaceModule_dependency.
  - apply addExtraReason_connection.
  - unfold setIssuer. by autorewrite with mg.
  - unfold setUsedExports. by autorewrite with mg.
  - by rewrite (view_dependencies _ _ (query_view q g)).
Qed.

Lemma run_connection ops g d :
  (∀ a m, OSetResolvedModule a d m ∉ ops) →
  connection (dependency_record_of (run ops g) d) = connection (dependency_record_of g d).
Proof.
  unfold run. revert g. induction ops as [| o ops IH]; intros g Hops; simpl; [done |].
  rewrite IH.
  - apply exec_connection. intros a m ->. apply (Hops a m). by left.
  - intros a m Hin. apply (Hops a m). by right.
Qed.

(** The usage state of a module is assigned by [setUsedExports] alone. *)
Lemma usedExports_alter (f : ModuleGraphModule → ModuleGraphModule) k g m :
  (∀ r, usedExports (f r) = usedExports r) →
  usedExports (record_of (with_moduleMap (alter f k) g) m) = usedExports (record_of g m).
Proof.
  intros Hf. rewrite !record_of_lookup. simpl.
  destruct (decide (k = m)) as [-> | Hne].
  - rewrite lookup_alter_eq. destruct (_moduleMap g !! m); simpl; [apply Hf | done].
  - by rewrite lookup_alter_ne.
Qed.

Lemma loop_step_usedExports a b f on_set assign g c m :
  (∀ F r, usedExports (on_set F r) = usedExports r) →
  usedExports (record_of (loop_step a b f on_set assign g c) m)
  = usedExports (record_of g m).
Proof.
  intros Hon. unfold loop_step. destruct (f c (deref g c)); [| done]. simpl.
  rewrite !usedExports_alter by (intros; apply Hon). by autorewrite with mg.
Qed.

Lemma foldl_loop_step_usedExports a b f on_set assign g l m :
  (∀ F r, usedExports (on_set F r) = usedExports r) →
  usedExports (record_of (foldl (loop_step a b f on_set assign) g l) m)
  = usedExports (record_of g m).
Proof.
  intros Hon. revert g. induction l as [| c l IH]; intros g; simpl; [done |].
  by rewrite IH, loop_step_usedExports.
Qed.

Lemma exec_usedExports g o m :
  (∀ u, o ≠ OSetUsedExports m u) →
  usedExports (record_of (exec g o) m) = usedExports (record_of g m).
Proof.
  intros Ho. destruct o as [d' b pm | a d' m' | d' m' | d' s | a b f | m' s | m' i | m' u | q];
    simpl.
  - unfold setParents. by autorewrite with mg.
  - unfold setResolvedModule. autorewrite with mg.
    repeat case_decide; subst; simpl; by autorewrite with mg.
  - rewrite updateModule_unfold. simpl.
    destruct (connection (dependency_record_of g d')) as [c |]; simpl;
      [| by autorewrite with mg].
    case_decide; simpl; autorewrite with mg; [done |].
    repeat case_decide; subst; simpl; by autorewrite with mg.
  - rewrite addExplanation_unfold. simpl.
    destruct (connection (dependency_record_of g d')); simpl; by autorewrite with mg.
  - destruct (decide (a = b)) as [-> | Hne].
    { unfold replaceModule. by rewrite decide_True. }
    rewrite replaceModule_unfold by done.
    rewrite !foldl_loop_step_usedExports by done. by autorewrite with mg.
  - unfold addExtraReason. autorewrite with mg.
    case_decide; subst; simpl; by autorewrite with mg.
  - unfold setIssuer. autorewrite with mg. by case_decide; subst.
  - unfold setUsedExports. autorewrite with mg. case_decide; [| done].
    subst. by destruct (Ho u).
  - by rewrite (view_records _ _ (query_view q g)).
Qed.

Lemma run_usedExports ops g m :
  (∀ u, OSetUsedExports m u ∉ ops) →
  usedExports (record_of (run ops g) m) = usedExports (record_of g m).
Proof.
  unfold run. revert g. induction ops as [| o ops IH]; intros g Hops; simpl; [done |].
  rewrite IH.
  - apply exec_usedExports. intros u ->. apply (Hops u). by left.
  - intros u Hin. apply (Hops u). by right.
Qed.
End module_graph_owners.

(** * The module graph: the properties of the specification *)

Section module_graph_claims.
Import ModuleGraphJs.
Implicit Types (g : ModuleGraph) (m k : ModuleId) (d : DependencyId) (c : ConnRef).

Lemma live_allocated g c : consistent g → live g c → c < length (heap g).
Proof.
  intros Hg [[d Hd] | [Hlt _]]; [| done].
  by apply (consistent_dependencies g Hg d).
Qed.

(** The graph [example_ops] builds: the connections of the dependencies 7
    and 8 and the extra reason, all moved to module 5 where they touched
    module 1. *)
Example example_ops_graph :
  let g := run example_ops new_ModuleGraph in
  heap g = [ {| originModule := Some 5; resolvedOriginModule := Some 1;
                dependency := Some 7; resolvedModule := 2; module := 3;
                explanations := [] |};
             {| originModule := None; resolvedOriginModule := None;
                dependency := None; resolvedModule := 1; module := 5;
                explanations := ["entry"] |};
             {| originModule := Some 5; resolvedOriginModule := Some 1;
                dependency := Some 8; resolvedModule := 1; module := 5;
                explanations := [] |} ] ∧
  incoming g 5 = [1; 2] ∧ outgoing g 5 = [0; 2] ∧ incoming g 3 = [0] ∧
  incoming g 1 = [] ∧ outgoing g 1 = [] ∧ incoming g 2 = [] ∧
  (getModule 7 g).2 = val 3 ∧ (getOrigin 7 g).2 = val 5 ∧
  (updateModule 9 1 g).2 = TypeError.
Proof. vm_compute. repeat split. Qed.

(** C1 (edge symmetry). After any sequence of calls of the public methods
    on an empty graph ([setResolvedModule], [updateModule],
    [replaceModule], [addExtraReason] and the others, in any number and
    order, raising calls included), every live connection is in the
    incoming set of the record of its [module]; is, unless its
    [originModule] is [null], in the outgoing set of the record of its
    [originModule]; and is in no other incoming or outgoing set. *)
Theorem edge_symmetry_invariant (ops : list Op) (c : ConnRef) :
  live (run ops new_ModuleGraph) c →
  let g := run ops new_ModuleGraph in
  c ∈ incoming g (module (deref g c)) ∧
  (∀ o, originModule (deref g c) = Some o → c ∈ outgoing g o) ∧
  (∀ k, c ∈ incoming g k → k = module (deref g c)) ∧
  (∀ k, c ∈ outgoing g k → originModule (deref g c) = Some k).
Proof.
  intros Hlive g.
  assert (consistent g) as Hg by apply consistent_run, consistent_new.
  pose proof (live_allocated g c Hg Hlive) as Hlt.
  destruct Hg as [Ci Co _ _]. split_and!.
  - by apply Ci.
  - intros o Ho. by apply Co.
  - intros k Hk. apply Ci in Hk as [_ Hk]. done.
  - intros k Hk. apply Co in Hk as [_ Hk]. done.
Qed.

Lemma edge_symmetry_invariant_witness :
  let g := run example_ops new_ModuleGraph in
  0 ∈ incoming g (module (deref g 0)) ∧
  (∀ o, originModule (deref g 0) = Some o → 0 ∈ outgoing g o) ∧
  (∀ k, 0 ∈ incoming g k → k = module (deref g 0)) ∧
  (∀ k, 0 ∈ outgoing g k → originModule (deref g 0) = Some k).
Proof.
  apply (edge_symmetry_invariant example_ops 0).
  left. exists 7. vm_compute. reflexivity.
Defined.




(** C7. For a dependency [d] that was never given to [setResolvedModule]:
    [updateModule(d, m)] and [addExplanation(d, s)] raise a [TypeError]
    (they read a property of the [undefined] connection), while the
    queries return their defaults: [getModule(d)] and [getOrigin(d)]
    return [null], [getConnection(d)] returns [undefined]. *)
Theorem no_connection_behaviour (ops : list Op) (d : DependencyId) :
  (∀ a m, OSetResolvedModule a d m ∉ ops) →
  let g := run ops new_ModuleGraph in
  (∀ m, (updateModule d m g).2 = TypeError) ∧
  (∀ s, (addExplanation d s g).2 = TypeError) ∧
  (getModule d g).2 = null ∧
  (getOrigin d g).2 = null ∧
  (getConnection d g).2 = undefined.
Proof.
  intros Hops g.
  assert (connection (dependency_record_of g d) = None) as Hconn.
  { unfold g. rewrite run_connection by done.
    rewrite dependency_record_of_lookup. simpl. by rewrite lookup_empty. }
  split_and!.
  - intros m. rewrite updateModule_unfold. simpl. by rewrite Hconn.
  - intros s. rewrite addExplanation_unfold. simpl. by rewrite Hconn.
  - by rewrite getModule_result, Hconn.
  - by rewrite getOrigin_result, Hconn.
  - by rewrite getConnection_result, Hconn.
Qed.

Lemma no_connection_behaviour_witness :
  let g := run example_ops new_ModuleGraph in
  (∀ m, (updateModule 9 m g).2 = TypeError) ∧
  (∀ s, (addExplanation 9 s g).2 = TypeError) ∧
  (getModule 9 g).2 = null ∧
  (getOrigin 9 g).2 = null ∧
  (getConnection 9 g).2 = undefined.
Proof.
  apply (no_connection_behaviour example_ops 9).
  intros a m Hin. vm_compute in Hin.
  repeat (apply elem_of_cons in Hin as [Hin | Hin]; [discriminate |]).
  by apply elem_of_nil in Hin.
Defined.

(** C9. A module never given to [setUsedExports] has the usage state
    [null] (unknown); after [setUsedExports(m, false)] the state read
    back is [false], and more generally the state read back is the one
    that was set; the four states [false], a set of names, [true] and
    [null] are pairwise distinct values, so the accessors keep them
    apart. *)
Theorem usedExports_states (ops : list Op) (m : ModuleId) :
  (∀ u, OSetUsedExports m u ∉ ops) →
  (getUsedExports m (run ops new_ModuleGraph)).2 = UsedNull ∧
  (∀ g, (getUsedExports m (setUsedExports m UsedFalse g)).2 = UsedFalse) ∧
  (∀ g u, (getUsedExports m (setUsedExports m u g)).2 = u) ∧
  (∀ names, UsedFalse ≠ UsedNames names ∧ UsedTrue ≠ UsedNames names ∧
            UsedNull ≠ UsedNames names) ∧
  UsedFalse ≠ UsedTrue ∧ UsedFalse ≠ UsedNull ∧ UsedTrue ≠ UsedNull.
Proof.
  intros Hops.
  assert (∀ g u, (getUsedExports m (setUsedExports m u g)).2 = u) as Hset.
  { intros g u. rewrite getUsedExports_result. unfold setUsedExports.
    by rewrite record_of_update_mgm, decide_True. }
  split_and!; try done.
  rewrite getUsedExports_result, run_usedExports by done.
  rewrite record_of_lookup. simpl. by rewrite lookup_empty.
Qed.

Lemma usedExports_states_witness :
  (getUsedExports 4 (run example_ops new_ModuleGraph)).2 = UsedNull ∧
  (∀ g, (getUsedExports 4 (setUsedExports 4 UsedFalse g)).2 = UsedFalse) ∧
  (∀ g u, (getUsedExports 4 (setUsedExports 4 u g)).2 = u) ∧
  (∀ names, UsedFalse ≠ UsedNames names ∧ UsedTrue ≠ UsedNames names ∧
            UsedNull ≠ UsedNames names) ∧
  UsedFalse ≠ UsedTrue ∧ UsedFalse ≠ UsedNull ∧ UsedTrue ≠ UsedNull.
Proof.
  apply (usedExports_states example_ops 4).
  intros u Hin. vm_compute in Hin.
  repeat (apply elem_of_cons in Hin as [Hin | Hin]; [discriminate |]).
  by apply elem_of_nil in Hin.
Defined.

(** C10. The queries are observationally pure: on any graph, whatever
    query is run first (it may create the default record of a key not
    seen before), every query on every key returns afterwards what it
    would have returned before, and the connection objects are
    untouched. *)
Theorem queries_observationally_pure (g : ModuleGraph) (q1 q2 : Query) :
  (query q2 (query q1 g).1).2 = (query q2 g).2 ∧
  heap (query q1 g).1 = heap g.
Proof.
  split.
  - rewrite !query_answer. apply answer_of_view, query_view.
  - apply (view_heap _ _ (query_view q1 g)).
Qed.

Lemma replaceModule_effect a b f g :
  a ≠ b → consistent g →
  let g' := replaceModule a b f g in
  let seen := seen_by_second_loop a b f g in
  (∀ c, deref g' c
        = if bool_decide (c ∈ incoming g a) && f c (seen c)
          then set_module b (seen c) else seen c) ∧
  outgoing g' a = filter (λ c, f c (deref g c) = false) (outgoing g a) ∧
  incoming g' a = filter (λ c, f c (seen c) = false) (incoming g a) ∧
  (∀ c, c ∈ outgoing g' b ↔ c ∈ outgoing g b ∨ (c ∈ outgoing g a ∧ f c (deref g c) = true)) ∧
  (∀ c, c ∈ incoming g' b ↔ c ∈ incoming g b ∨ (c ∈ incoming g a ∧ f c (seen c) = true)) ∧
  (∀ k, k ≠ a → k ≠ b → incoming g' k = incoming g k ∧ outgoing g' k = outgoing g k).
Proof.
  intros Hne Hg g' seen.
  destruct (replaceModule_loops a b f g Hne Hg) as (H1 & H2 & Hg2 & Hg3 & Hin3).
  fold g' in H2.
  set (g2 := (_getModuleGraphModule b (_getModuleGraphModule a g).1).1) in *.
  set (g3 := between_loops a b f g) in *.
  assert (∀ k, record_of g2 k = record_of g k) as Hrec2.
  { intros k. unfold g2. by autorewrite with mg. }
  assert (∀ c, deref g2 c = deref g c) as Hderef2.
  { intros c. unfold g2. by autorewrite with mg. }
  destruct H1 as [Hd1 Ho1 (extra1 & Hn1 & Hx1 & _) Hk1 Hr1 _ _ _ _].
  destruct H2 as [Hd2 Ho2 (extra2 & Hn2 & Hx2 & _) Hk2 Hr2 _ _ _ _].
  assert (∀ c, deref g3 c = seen c) as Hseen.
  { intros c. rewrite Hd1. unfold seen, seen_by_second_loop, moved.
    by rewrite Hderef2. }
  assert (∀ k, outgoing g' k = outgoing g3 k) as Hout'.
  { intros k. unfold outgoing. destruct (Hr2 k) as [F ->]. done. }
  assert (∀ k, incoming g3 k = incoming g k) as Hin3'.
  { intros k. unfold incoming. destruct (Hr1 k) as [F ->]. simpl. by rewrite Hrec2. }
  split_and!.
  - intros c. rewrite Hd2. unfold moved. by rewrite !Hseen.
  - rewrite Hout'. unfold outgoing at 1. rewrite Ho1, Hrec2. fold (outgoing g a).
    apply filter_ext_elem. intros c Hc. unfold moved.
    rewrite bool_decide_eq_true_2 by done. simpl. by rewrite Hderef2.
  - unfold incoming at 1. rewrite Ho2. fold (incoming g3 a). rewrite Hin3'.
    apply filter_ext_elem. intros c Hc. unfold moved.
    rewrite bool_decide_eq_true_2 by done. simpl. by rewrite Hseen.
  - intros c. rewrite Hout'. unfold outgoing at 1. rewrite Hn1, elem_of_app, Hx1, Hrec2.
    fold (outgoing g b). unfold moved. rewrite andb_true_iff, bool_decide_eq_true, Hderef2.
    destruct (decide (c ∈ outgoing g b)); naive_solver.
  - intros c. unfold incoming at 1. rewrite Hn2, elem_of_app, Hx2.
    fold (incoming g3 b). rewrite !Hin3'.
    unfold moved. rewrite andb_true_iff, bool_decide_eq_true, Hseen.
    destruct (decide (c ∈ incoming g b)); naive_solver.
  - intros k Hka Hkb. split.
    + unfold incoming. rewrite Hk2 by done. apply Hin3'.
    + rewrite Hout'. unfold outgoing. rewrite Hk1 by done. by rewrite Hrec2.
Qed.

(** C5, as the code has it. [replaceModule(A, D, pred)] with [A] other
    than [D]: every connection of the outgoing set of [A] that the
    predicate accepts as it is before the call gets [D] as its
    [originModule], is in the outgoing set of [D] afterwards and no longer
    in that of [A]; one it rejects stays in the outgoing set of [A],
    unchanged. Every connection of the incoming set of [A] that the
    predicate accepts as the first loop left it ([seen_by_second_loop]:
    its origin already repointed to [D] if it was also an outgoing
    connection of [A] accepted there, else as before the call) gets [D] as
    its [module], is in the incoming set of [D] afterwards and no longer
    in that of [A]; one it rejects stays in the incoming set of [A]. For a
    connection that is not in both sets of [A], and for a predicate that
    does not read [originModule], what the second loop sees is the
    connection as before the call. The sets of [A] keep the rejected
    connections in their order, the sets of [D] gain the accepted ones
    only, the sets of other modules are untouched; and
    [replaceModule(A, A, pred)] leaves the graph as it is. *)
Theorem replaceModule_moves_accepted (ops : list Op) (A D : ModuleId) (pred : Filter) :
  A ≠ D →
  let g := run ops new_ModuleGraph in
  let g' := replaceModule A D pred g in
  let seen := seen_by_second_loop A D pred g in
  (∀ c, c ∈ outgoing g A → pred c (deref g c) = true →
        originModule (deref g' c) = Some D ∧ c ∈ outgoing g' D ∧ (c ∉ outgoing g' A)) ∧
  (∀ c, c ∈ outgoing g A → pred c (deref g c) = false →
        c ∈ outgoing g' A ∧ deref g' c = deref g c) ∧
  (∀ c, c ∈ incoming g A → pred c (seen c) = true →
        module (deref g' c) = D ∧ c ∈ incoming g' D ∧ (c ∉ incoming g' A)) ∧
  (∀ c, c ∈ incoming g A → pred c (seen c) = false →
        c ∈ incoming g' A ∧ deref g' c = seen c) ∧
  (∀ c, (c ∉ outgoing g A) → seen c = deref g c) ∧
  ((∀ c x o, pred c (set_originModule o x) = pred c x) →
   ∀ c, pred c (seen c) = pred c (deref g c)) ∧
  outgoing g' A = filter (λ c, pred c (deref g c) = false) (outgoing g A) ∧
  incoming g' A = filter (λ c, pred c (seen c) = false) (incoming g A) ∧
  (∀ c, c ∈ outgoing g' D ↔
        c ∈ outgoing g D ∨ (c ∈ outgoing g A ∧ pred c (deref g c) = true)) ∧
  (∀ c, c ∈ incoming g' D ↔
        c ∈ incoming g D ∨ (c ∈ incoming g A ∧ pred c (seen c) = true)) ∧
  (∀ k, k ≠ A → k ≠ D → incoming g' k = incoming g k ∧ outgoing g' k = outgoing g k) ∧
  replaceModule A A pred g = g.
Proof.
  intros Hne g g' seen.
  assert (consistent g) as Hg by apply consistent_run, consistent_new.
  destruct (replaceModule_effect A D pred g Hne Hg)
    as (Hderef & HoutA & HinA & HoutD & HinD & Hother).
  fold g' in Hderef, HoutA, HinA, HoutD, HinD, Hother. fold seen in Hderef, HinA, HinD.
  assert (∀ c, c ∈ outgoing g A → pred c (deref g c) = true →
               seen c = set_originModule (Some D) (deref g c)) as Hseen_t.
  { intros c Hc Hp. unfold seen, seen_by_second_loop.
    by rewrite bool_decide_eq_true_2, Hp by done. }
  assert (∀ c, pred c (deref g c) = false → seen c = deref g c) as Hseen_f.
  { intros c Hp. unfold seen, seen_by_second_loop. rewrite Hp.
    by rewrite andb_false_r. }
  split_and!.
  - intros c Hc Hp. split_and!.
    + rewrite Hderef, (Hseen_t c Hc Hp). by destruct (_ && _).
    + apply HoutD. right. done.
    + rewrite HoutA, list_elem_of_filter. intros [Hf _]. congruence.
  - intros c Hc Hp. split.
    + rewrite HoutA, list_elem_of_filter. done.
    + rewrite Hderef, (Hseen_f c Hp), Hp. by rewrite andb_false_r.
  - intros c Hc Hp. split_and!.
    + rewrite Hderef, Hp, bool_decide_eq_true_2 by done. done.
    + apply HinD. right. done.
    + rewrite HinA, list_elem_of_filter. intros [Hf _]. congruence.
  - intros c Hc Hp. split.
    + rewrite HinA, list_elem_of_filter. done.
    + rewrite Hderef, Hp. by rewrite andb_false_r.
  - intros c Hc. unfold seen, seen_by_second_loop.
    by rewrite bool_decide_eq_false_2.
  - intros Hpred c. unfold seen, seen_by_second_loop.
    destruct (_ && _); [apply Hpred | done].
  - done.
  - done.
  - done.
  - done.
  - done.
  - unfold replaceModule. by rewrite decide_True.
Qed.

Lemma replaceModule_moves_accepted_witness :
  let g := run example_ops new_ModuleGraph in
  let g' := replaceModule 5 6 from_module_5 g in
  (originModule (deref g' 0) = Some 6 ∧ 0 ∈ outgoing g' 6 ∧ (0 ∉ outgoing g' 5)) ∧
  (2 ∈ incoming g' 5 ∧ deref g' 2 = seen_by_second_loop 5 6 from_module_5 g 2).
Proof.
  intros g g'.
  destruct (replaceModule_moves_accepted example_ops 5 6 from_module_5 ltac:(lia))
    as (Hout & _ & _ & Hin & _).
  split.
  - apply (Hout 0); [apply (bool_decide_unpack _) | ]; vm_compute; done.
  - apply (Hin 2); [apply (bool_decide_unpack _) | ]; vm_compute; done.
Defined.

(** C5, as the specification states it, fails on a connection from a
    module to itself when the predicate reads [originModule]. In the graph
    of [example_ops] connection 2 goes from module 5 to module 5; the
    predicate that accepts the connections whose origin is module 5 accepts
    it, and [replaceModule(5, 6, pred)] repoints its origin in the first
    loop; the second loop then finds the origin 6, the predicate rejects
    the connection, and it stays in the incoming set of module 5 with
    [module] 5. *)
Lemma replaceModule_counterexample :
  2 ∈ incoming (run example_ops new_ModuleGraph) 5 ∧
  from_module_5 2 (deref (run example_ops new_ModuleGraph) 2) = true ∧
  module (deref (replaceModule 5 6 from_module_5 (run example_ops new_ModuleGraph)) 2) = 5 ∧
  2 ∈ incoming (replaceModule 5 6 from_module_5 (run example_ops new_ModuleGraph)) 5 ∧
  ¬ (∀ (ops : list Op) (A D : ModuleId) (pred : Filter) (c : ConnRef),
       A ≠ D →
       c ∈ incoming (run ops new_ModuleGraph) A →
       pred c (deref (run ops new_ModuleGraph) c) = true →
       module (deref (replaceModule A D pred (run ops new_ModuleGraph)) c) = D ∧
       c ∈ incoming (replaceModule A D pred (run ops new_ModuleGraph)) D ∧
       (c ∉ incoming (replaceModule A D pred (run ops new_ModuleGraph)) A)).
Proof.
  assert (2 ∈ incoming (run example_ops new_ModuleGraph) 5) as Hin.
  { apply (bool_decide_unpack _). vm_compute. exact I. }
  assert (from_module_5 2 (deref (run example_ops new_ModuleGraph) 2) = true) as Hpred.
  { vm_compute. reflexivity. }
  split; [exact Hin |]. split; [exact Hpred |].
  split; [vm_compute; reflexivity |].
  split; [apply (bool_decide_unpack _); vm_compute; exact I |].
  intros Hall.
  destruct (Hall example_ops 5 6 from_module_5 2 ltac:(lia) Hin Hpred) as (Hm & _).
  vm_compute in Hm. discriminate.
Qed.
End module_graph_claims.

(** * The chunk topology *)

(** ** [getAllAsyncChunks]: the walk ends *)

Section async_walk.
Import ChunkJs.
Implicit Types (H : Store) (g : GroupRef) (c : ChunkRef).

Lemma children_in_store H g x : x ∈ childrenIterable H g → x ∈ all_children H.
Proof.
  unfold childrenIterable, group. rewrite lookup_total_alt.
  destruct (group_objects H !! g) as [r |] eqn:E; simpl; [| by intros ?%elem_of_nil].
  intros Hx. unfold all_children. apply list_elem_of_join.
  exists (_children r). split; [done |].
  apply list_elem_of_fmap. exists (g, r). split; [done |].
  by apply elem_of_map_to_list.
Qed.

Lemma visit_queue H init st g :
  (visit H init st g).1 = JsSet.add_all (childrenIterable H g) st.1.
Proof. by destruct st. Qed.

Lemma visit_result_NoDup H init st g : NoDup st.2 → NoDup (visit H init st g).2.
Proof.
  destruct st as [queue result]. simpl.
  generalize (chunks (group H g)). intros l. revert result.
  induction l as [| c l IH]; intros result Hr; simpl; [done |].
  apply IH. destruct (JsSet.has c init); [done | by apply NoDup_add].
Qed.

(** More fuel than a finished walk needed changes nothing. *)
Lemma drain_more_fuel H init fuel fuel' pos st st' :
  drain fuel H init pos st = Some st' → fuel ≤ fuel' →
  drain fuel' H init pos st = Some st'.
Proof.
  revert fuel' pos st. induction fuel as [| fuel IH]; intros fuel' pos st; [done |].
  intros Hd Hle. destruct fuel' as [| fuel']; [lia |]. simpl in *.
  destruct (st.1 !! pos); [| done]. apply IH; [done | lia].
Qed.

(** The queue holds no group twice and only children of groups of the
    store, so the iterator reaches its end. *)
Lemma drain_terminates H init n : ∀ pos st,
  NoDup st.1 → NoDup st.2 → (∀ x, x ∈ st.1 → x ∈ all_children H) →
  length (all_children H) - pos < n →
  ∃ st', drain n H init pos st = Some st' ∧ NoDup st'.1 ∧ NoDup st'.2 ∧
         (∀ x, x ∈ st'.1 → x ∈ all_children H) ∧ st.1 `prefix_of` st'.1.
Proof.
  induction n as [| n IH]; intros pos st Hq Hr Hsub Hn; [lia |]. simpl.
  destruct (st.1 !! pos) as [g |] eqn:Hg.
  - assert (pos < length st.1) as Hpos by (by eapply lookup_lt_Some).
    assert (length st.1 ≤ length (all_children H)) as Hlen.
    { apply submseteq_length, NoDup_submseteq; done. }
    destruct (IH (S pos) (visit H init st g)) as (st' & Hd & Hq' & Hr' & Hsub' & Hpre).
    + rewrite visit_queue. by apply NoDup_add_all.
    + by apply visit_result_NoDup.
    + intros x. rewrite visit_queue, elem_of_add_all.
      intros [Hx | Hx]; [by eapply children_in_store | by apply Hsub].
    + lia.
    + exists st'. split_and!; try done.
      etrans; [| exact Hpre]. rewrite visit_queue. apply add_all_prefix.
  - exists st. split_and!; done.
Qed.

Lemma initial_queue_spec H this :
  NoDup (initial_queue H this) ∧
  (∀ x, x ∈ initial_queue H this → x ∈ all_children H).
Proof.
  unfold initial_queue.
  assert (∀ l q, NoDup q → (∀ x, x ∈ q → x ∈ all_children H) →
            NoDup (foldl (λ queue g, JsSet.add_all (childrenIterable H g) queue) q l) ∧
            (∀ x, x ∈ foldl (λ queue g, JsSet.add_all (childrenIterable H g) queue) q l →
                  x ∈ all_children H)) as Hgen.
  { induction l as [| g l IH]; intros q Hq Hsub; simpl; [done |].
    apply IH; [by apply NoDup_add_all |].
    intros x [Hx | Hx]%elem_of_add_all; [by eapply children_in_store | by apply Hsub]. }
  apply Hgen; [constructor |]. by intros x ?%elem_of_nil.
Qed.
End async_walk.

Section chunk_claims.
Import ChunkJs.
Implicit Types (H : Store) (g : GroupRef) (c : ChunkRef).

(** *** The walk reaches the descendants, and no group twice *)

Lemma elem_of_initial_queue H this x :
  x ∈ initial_queue H this ↔
  ∃ g, g ∈ groupsIterable H this ∧ x ∈ childrenIterable H g.
Proof.
  unfold initial_queue.
  assert (∀ l q, x ∈ foldl (λ queue g, JsSet.add_all (childrenIterable H g) queue) q l ↔
                 x ∈ q ∨ ∃ g, g ∈ l ∧ x ∈ childrenIterable H g) as Hgen.
  { induction l as [| g l IH]; intros q; simpl.
    - split; [by left | intros [? | (g & Hg & _)]; [done | by apply elem_of_nil in Hg]].
    - rewrite IH, elem_of_add_all. split.
      + intros [[Hx | Hx] | (g' & Hg' & Hx)].
        * right. exists g. split; [by left | done].
        * by left.
        * right. exists g'. split; [by right | done].
      + intros [Hx | (g' & [-> | Hg']%elem_of_cons & Hx)].
        * left. by right.
        * left. by left.
        * right. by exists g'. }
  rewrite Hgen, elem_of_nil. naive_solver.
Qed.

Lemma visit_result H init st g c :
  c ∈ (visit H init st g).2 ↔
  c ∈ st.2 ∨ (c ∈ chunks (group H g) ∧ c ∉ init).
Proof.
  destruct st as [queue result]. simpl.
  generalize (chunks (group H g)). intros l. revert result.
  induction l as [| y l IH]; intros result; simpl.
  - split; [by left | intros [? | [Hc _]]; [done | by apply elem_of_nil in Hc]].
  - rewrite IH. destruct (JsSet.has y init) eqn:Hy.
    + apply has_true in Hy. rewrite elem_of_cons. naive_solver.
    + apply not_true_iff_false in Hy. rewrite has_true in Hy.
      rewrite elem_of_add, elem_of_cons. naive_solver.
Qed.

Lemma walk_invariant_initial H this :
  walk_invariant H this 0 (initial_queue H this, []).
Proof.
  split; simpl.
  - split; [apply initial_queue_spec | constructor].
  - intros x (g & Hg & Hx)%elem_of_initial_queue. by eapply descendant_child.
  - intros g x Hg Hx. apply elem_of_initial_queue. eauto.
  - intros i g x Hi. lia.
  - intros c. rewrite elem_of_nil. split; [done |]. intros (i & _ & Hi & _). lia.
Qed.

Lemma walk_invariant_visit H this pos st g :
  walk_invariant H this pos st → st.1 !! pos = Some g →
  walk_invariant H this (S pos) (visit H (initialChunks_of H this) st g).
Proof.
  intros [[Hq Hr] Hdesc Hseeds Hclosed Hres] Hg.
  assert (st.1 `prefix_of` (visit H (initialChunks_of H this) st g).1) as Hpre.
  { rewrite visit_queue. apply add_all_prefix. }
  assert (∀ i y, st.1 !! i = Some y →
                 (visit H (initialChunks_of H this) st g).1 !! i = Some y) as Hkeep.
  { intros i y Hi. by eapply prefix_lookup_Some. }
  assert (∀ i y, i ≤ pos → (visit H (initialChunks_of H this) st g).1 !! i = Some y →
                 st.1 !! i = Some y) as Hback.
  { intros i y Hi Hy. destruct (st.1 !! i) as [y' |] eqn:E.
    - by rewrite (Hkeep i y' E) in Hy.
    - apply lookup_ge_None in E. apply lookup_lt_Some in Hg. lia. }
  split.
  - split; [rewrite visit_queue; by apply NoDup_add_all | by apply visit_result_NoDup].
  - intros x. rewrite visit_queue, elem_of_add_all. intros [Hx | Hx]; [| by apply Hdesc].
    eapply descendant_step; [| exact Hx]. apply Hdesc. by eapply list_elem_of_lookup_2.
  - intros g' x Hg' Hx. rewrite visit_queue, elem_of_add_all. right. by eapply Hseeds.
  - intros i g' x Hi Hi' Hx. rewrite visit_queue, elem_of_add_all.
    apply Hback in Hi'; [| lia].
    destruct (decide (i = pos)) as [-> | Hne].
    + left. congruence.
    + right. eapply (Hclosed i g'); [lia | done | done].
  - intros c. rewrite visit_result, Hres. split.
    + intros [(i & g' & Hi & Hi' & Hc) | Hc].
      * exists i, g'. split_and!; [lia | by apply Hkeep | apply Hc | apply Hc].
      * exists pos, g. split_and!; [lia | by apply Hkeep | apply Hc | apply Hc].
    + intros (i & g' & Hi & Hi' & Hc).
      apply Hback in Hi'; [| lia].
      destruct (decide (i = pos)) as [-> | Hne].
      * right. by replace g with g' by congruence.
      * left. exists i, g'. split; [lia | done].
Qed.

Lemma drain_invariant H this fuel : ∀ pos st st',
  drain fuel H (initialChunks_of H this) pos st = Some st' →
  walk_invariant H this pos st →
  walk_invariant H this (length st'.1) st'.
Proof.
  induction fuel as [| fuel IH]; intros pos st st' Hd Hinv; [done |].
  simpl in Hd. destruct (st.1 !! pos) as [g |] eqn:Hg.
  - eapply IH; [exact Hd |]. by apply walk_invariant_visit.
  - injection Hd as <-. apply lookup_ge_None in Hg.
    destruct Hinv as [Hn Hdesc Hseeds Hclosed Hres]. split; try done.
    + intros i g x Hi Hi' Hx. pose proof (lookup_lt_Some _ _ _ Hi') as Hlt.
      destruct (decide (i < pos)); [by apply (Hclosed i g x) | lia].
    + intros c. rewrite Hres. split; intros (i & g & Hi & Hi' & Hc); exists i, g.
      * split; [by eapply lookup_lt_Some | done].
      * split; [| done]. apply lookup_lt_Some in Hi'. lia.
Qed.

(** C8. [getAllAsyncChunks] terminates on every store of chunks and
    groups, cycles among the groups included: with more fuel than the
    store has child groups the walk returns, and returns the same
    whatever the fuel. The queue it ends with holds every group that
    descends from a group of the chunk, and each once: no group is
    enqueued or visited twice. The result holds, each once, the chunks of
    these groups that are no initial chunks. *)
Theorem getAllAsyncChunks_terminates (H : Store) (this : ChunkRef) :
  ∃ queue result,
    (∀ fuel, length (all_children H) < fuel →
             walkAsync fuel H this = Some (queue, result) ∧
             getAllAsyncChunks fuel H this = Some result) ∧
    NoDup queue ∧ NoDup result ∧ length queue ≤ length (all_children H) ∧
    (∀ g, g ∈ queue ↔ descendant H this g) ∧
    (∀ c, c ∈ result ↔
          ∃ g, descendant H this g ∧ c ∈ chunks (group H g) ∧
               (c ∉ initialChunks_of H this)).
Proof.
  destruct (initial_queue_spec H this) as [Hq Hsub].
  destruct (drain_terminates H (initialChunks_of H this) (S (length (all_children H)))
              0 (initial_queue H this, [])) as ([queue result] & Hd & Hq' & Hr' & Hsub' & _);
    simpl; try done; [constructor | lia |].
  pose proof (drain_invariant H this _ _ _ _ Hd (walk_invariant_initial H this))
    as [_ Hdesc Hseeds Hclosed Hres].
  cbn [fst snd] in Hdesc, Hseeds, Hclosed, Hres.
  assert (∀ g, g ∈ queue ↔ descendant H this g) as Hqueue.
  { intros g. split; [apply Hdesc |].
    induction 1 as [g x Hg Hx | g x Hg IH Hx]; [by eapply Hseeds |].
    apply list_elem_of_lookup in IH as [i Hi].
    eapply (Hclosed i g); [by eapply lookup_lt_Some | done | done]. }
  exists queue, result. split_and!; try done.
  - intros fuel Hfuel.
    assert (walkAsync fuel H this = Some (queue, result)) as Hw.
    { unfold walkAsync. eapply drain_more_fuel; [exact Hd | lia]. }
    split; [done |]. unfold getAllAsyncChunks. by rewrite Hw.
  - apply submseteq_length, NoDup_submseteq; done.
  - intros c. rewrite Hres. split.
    + intros (i & g & _ & Hi & Hc). exists g. split; [| done].
      apply Hqueue. by eapply list_elem_of_lookup_2.
    + intros (g & Hg & Hc). apply Hqueue, list_elem_of_lookup in Hg as [i Hi].
      exists i, g. split; [by eapply lookup_lt_Some | done].
Qed.

Example getAllAsyncChunks_cyclic :
  getAllAsyncChunks 3 cyclic_store 0 = Some [2] ∧
  walkAsync 3 cyclic_store 0 = Some ([2; 0], [2]) ∧
  getAllAsyncChunks 2 cyclic_store 0 = None.
Proof. by vm_compute. Qed.

Lemma elem_of_of_list (x : ChunkRef) l : x ∈ JsSet.of_list l ↔ x ∈ l.
Proof.
  unfold JsSet.of_list. rewrite elem_of_add_all, elem_of_nil. tauto.
Qed.

Lemma elem_of_intersect x s rest :
  x ∈ intersect (s :: rest) ↔ x ∈ s ∧ ∀ t, t ∈ rest → x ∈ t.
Proof. simpl. by rewrite list_elem_of_filter, Forall_forall, (comm and). Qed.

Lemma getAllAsyncChunks_returns H this fuel :
  length (all_children H) < fuel →
  ∃ result, getAllAsyncChunks fuel H this = Some result.
Proof.
  intros Hfuel. destruct (initial_queue_spec H this) as [Hq Hsub].
  destruct (drain_terminates H (initialChunks_of H this) fuel
              0 (initial_queue H this, [])) as ([queue result] & Hd & _);
    simpl; try done; [constructor | lia |].
  exists result. unfold getAllAsyncChunks, walkAsync. by rewrite Hd.
Qed.

Lemma getAllAsyncChunks_members H this fuel result :
  getAllAsyncChunks fuel H this = Some result →
  ∀ c, c ∈ result ↔
       ∃ g, descendant H this g ∧ c ∈ chunks (group H g) ∧
            (c ∉ initialChunks_of H this).
Proof.
  unfold getAllAsyncChunks, walkAsync. intros Hres.
  apply fmap_Some in Hres as ([queue result'] & Hd & ->).
  pose proof (drain_invariant H this _ _ _ _ Hd (walk_invariant_initial H this))
    as [_ Hdesc Hseeds Hclosed Hres].
  cbn [fst snd] in Hdesc, Hseeds, Hclosed, Hres.
  assert (∀ g, descendant H this g → g ∈ queue) as Hqueue.
  { induction 1 as [g x Hg Hx | g x Hg IH Hx]; [by eapply Hseeds |].
    apply list_elem_of_lookup in IH as [i Hi].
    eapply (Hclosed i g); [by eapply lookup_lt_Some | done | done]. }
  intros c. cbn [snd]. rewrite Hres. split.
  - intros (i & g & _ & Hi & Hc). exists g. split; [| done].
    apply Hdesc. by eapply list_elem_of_lookup_2.
  - intros (g & Hg & Hc). apply Hqueue, list_elem_of_lookup in Hg as [i Hi].
    exists i, g. split; [by eapply lookup_lt_Some | done].
Qed.

Lemma descendant_groups H this g : descendant H this g → groupsIterable H this ≠ [].
Proof.
  induction 1 as [g x Hg Hx | g x Hg IH Hx]; [| done].
  intros Hnil. rewrite Hnil in Hg. by apply elem_of_nil in Hg.
Qed.

(** The initial chunks: the chunks that all the groups of the chunk
    hold. *)
Lemma elem_of_initialChunks_of H this c :
  c ∈ initialChunks_of H this ↔
  groupsIterable H this ≠ [] ∧ ∀ g, g ∈ groupsIterable H this → c ∈ chunks (group H g).
Proof.
  unfold initialChunks_of. destruct (groupsIterable H this) as [| g0 rest].
  - cbn [map intersect]. rewrite elem_of_nil. split; [done | by intros [? _]].
  - cbn [map]. rewrite elem_of_intersect, elem_of_of_list. split.
    + intros [Hc Hall]. split; [done |].
      intros g [-> | Hg]%elem_of_cons; [done |].
      apply elem_of_of_list, Hall. apply list_elem_of_In.
      apply (in_map (λ g, JsSet.of_list (chunks (group H g)))).
      by apply list_elem_of_In.
    + intros [_ Hall]. split; [apply Hall; left |].
      intros t Ht. apply list_elem_of_In, in_map_iff in Ht as (g & <- & Hg).
      apply elem_of_of_list, Hall. right. by apply list_elem_of_In.
Qed.

(** C2. [getAllAsyncChunks] leaves out the intersection of the member
    lists of the groups of the chunk, also where the walk meets these
    chunks in a child group: the initial chunks are the chunks that every
    group of the chunk holds, and the result is made of the chunks of the
    groups the walk reaches that some group of the chunk does not hold; a
    chunk that only some of the groups of the chunk hold is not left
    out. In particular, let the chunk [X] be in the groups [G1] and [G2]
    and no other, both with the chunks [X, Y]; let [G1] have the one
    child [G3], with the chunks [Y, Z] and no child, and [G2] have no
    child. Then [X.getAllAsyncChunks()] is the set of [Z] alone: [Y] is
    left out, as one of the chunks the groups of [X] share, though the
    walk meets it in [G3]. *)
Theorem getAllAsyncChunks_excludes_initial (H : Store) (X Y Z : ChunkRef)
    (G1 G2 G3 : GroupRef) (fuel : nat) :
  (∀ c, c ∈ initialChunks_of H X ↔
        groupsIterable H X ≠ [] ∧
        ∀ g, g ∈ groupsIterable H X → c ∈ chunks (group H g)) ∧
  (length (all_children H) < fuel →
   ∃ result,
     getAllAsyncChunks fuel H X = Some result ∧
     ∀ c, c ∈ result ↔
          (∃ g, descendant H X g ∧ c ∈ chunks (group H g)) ∧
          ¬ (∀ g, g ∈ groupsIterable H X → c ∈ chunks (group H g))) ∧
  (groupsIterable H X = [G1; G2] ∨ groupsIterable H X = [G2; G1] →
   chunks (group H G1) = [X; Y] → chunks (group H G2) = [X; Y] →
   childrenIterable H G1 = [G3] → childrenIterable H G2 = [] →
   chunks (group H G3) = [Y; Z] → childrenIterable H G3 = [] →
   Z ≠ X → Z ≠ Y → 2 ≤ fuel →
   getAllAsyncChunks fuel H X = Some [Z] ∧
   Y ∈ initialChunks_of H X ∧ Y ∈ chunks (group H G3)).
Proof.
  split_and!.
  - intros c. apply elem_of_initialChunks_of.
  - intros Hfuel. destruct (getAllAsyncChunks_returns H X fuel Hfuel) as [result Hres].
    exists result. split; [done |]. intros c.
    rewrite (getAllAsyncChunks_members H X fuel result Hres c). split.
    + intros (g & Hg & Hc & Hout). split; [by exists g |].
      intros Hall. apply Hout, elem_of_initialChunks_of.
      split; [by eapply descendant_groups | done].
    + intros [(g & Hg & Hc) Hsome]. exists g. split_and!; [done | done |].
      intros [_ Hall]%elem_of_initialChunks_of. by apply Hsome.
  - intros Hgroups Hc1 Hc2 Hk1 Hk2 Hc3 Hk3 HZX HZY Hfuel.
    assert (∀ x, x ∈ initialChunks_of H X ↔ x = X ∨ x = Y) as Hinit.
    { intros x. rewrite elem_of_initialChunks_of.
      destruct Hgroups as [-> | ->].
      - split.
        + intros [_ Hall]. specialize (Hall G1 ltac:(left)).
          rewrite Hc1, !elem_of_cons, elem_of_nil in Hall. tauto.
        + intros Hx. split; [done |].
          intros g [-> | [-> | Hg]%elem_of_cons]%elem_of_cons;
            rewrite ?Hc1, ?Hc2, ?elem_of_cons; [tauto | tauto |].
          by apply elem_of_nil in Hg.
      - split.
        + intros [_ Hall]. specialize (Hall G1 ltac:(right; left)).
          rewrite Hc1, !elem_of_cons, elem_of_nil in Hall. tauto.
        + intros Hx. split; [done |].
          intros g [-> | [-> | Hg]%elem_of_cons]%elem_of_cons;
            rewrite ?Hc1, ?Hc2, ?elem_of_cons; [tauto | tauto |].
          by apply elem_of_nil in Hg. }
    assert (initial_queue H X = [G3]) as Hqueue.
    { unfold initial_queue. destruct Hgroups as [-> | ->]; simpl; by rewrite Hk1, Hk2. }
    split_and!.
    + unfold getAllAsyncChunks, walkAsync. rewrite Hqueue.
      destruct fuel as [| [| fuel]]; [lia | lia |]. simpl.
      rewrite Hk3, Hc3. simpl.
      assert (JsSet.has Y (initialChunks_of H X) = true) as ->.
      { apply has_true, Hinit. by right. }
      assert (JsSet.has Z (initialChunks_of H X) = false) as ->.
      { apply not_true_is_false. rewrite has_true, Hinit. naive_solver. }
      done.
    + apply Hinit. by right.
    + rewrite Hc3. by left.
Qed.

Lemma getAllAsyncChunks_excludes_initial_witness :
  getAllAsyncChunks 2 example_store 0 = Some [2] ∧
  1 ∈ initialChunks_of example_store 0 ∧ 1 ∈ chunks (group example_store 2).
Proof.
  destruct (getAllAsyncChunks_excludes_initial example_store 0 1 2 0 1 2 2)
    as (_ & _ & Hexample).
  apply Hexample; try (vm_compute; reflexivity); try lia.
  left. vm_compute. reflexivity.
Defined.

(** ** [disconnectFromGroups] *)

Lemma removeChunk_chunk_objects g c H :
  chunk_objects (ChunkGroup_removeChunk g c H) = chunk_objects H.
Proof. done. Qed.

Lemma removeChunk_chunks g c H g' :
  chunks (group (ChunkGroup_removeChunk g c H) g')
  = if decide (g' = g) then filter (λ x, x ≠ c) (chunks (group H g'))
    else chunks (group H g').
Proof.
  unfold ChunkGroup_removeChunk, group, with_group. simpl.
  rewrite !lookup_total_alt. case_decide as E.
  - subst. rewrite lookup_alter_eq. by destruct (group_objects H !! g).
  - by rewrite lookup_alter_ne.
Qed.

Lemma disconnect_fold this l : ∀ H,
  chunk_objects (foldl (λ H' g, ChunkGroup_removeChunk g this H') H l) = chunk_objects H ∧
  ∀ g, chunks (group (foldl (λ H' g, ChunkGroup_removeChunk g this H') H l) g)
       = if decide (g ∈ l) then filter (λ x, x ≠ this) (chunks (group H g))
         else chunks (group H g).
Proof.
  induction l as [| g0 l IH]; intros H; simpl.
  - split; [done |]. intros g.
    destruct (decide (g ∈ [])) as [Hin | _]; [by apply elem_of_nil in Hin | done].
  - destruct (IH (ChunkGroup_removeChunk g0 this H)) as [IH1 IH2]. split; [done |].
    intros g. rewrite IH2, !removeChunk_chunks.
    destruct (decide (g = g0)) as [-> | Hne].
    + destruct (decide (g0 ∈ g0 :: l)) as [_ | Hout]; [| destruct Hout; by left].
      destruct (decide (g0 ∈ l)); [| done]. rewrite list_filter_filter.
      apply list_filter_iff. naive_solver.
    + destruct (decide (g ∈ l)) as [Hin | Hout], (decide (g ∈ g0 :: l)) as [Hin' | Hout'];
        try done.
      * destruct Hout'. by right.
      * by apply elem_of_cons in Hin' as [? | ?].
Qed.

(** C3. What the code does where the claim asks for
    [getNumberOfGroups() == 0]: [disconnectFromGroups()] takes the chunk
    out of the member list of every group it belongs to, through the
    [removeChunk] of each group, and out of no other list; it does not
    call [removeGroup], so the groups of the chunk itself are left as
    they are: the chunk is in the groups it was in and
    [getNumberOfGroups()] returns what it returned before the call, while
    these groups no longer list the chunk. *)
Theorem disconnectFromGroups_group_side (H : Store) (this : ChunkRef) :
  let H' := disconnectFromGroups this H in
  getNumberOfGroups this H' = getNumberOfGroups this H ∧
  groupsIterable H' this = groupsIterable H this ∧
  (∀ g, isInGroup this g H' = isInGroup this g H) ∧
  (∀ g, g ∈ groupsIterable H this →
        (this ∉ chunks (group H' g)) ∧
        chunks (group H' g) = filter (λ x, x ≠ this) (chunks (group H g))) ∧
  (∀ g, (g ∉ groupsIterable H this) → chunks (group H' g) = chunks (group H g)).
Proof.
  intros H'.
  destruct (disconnect_fold this (groupsIterable H this) H) as [Hc Hg].
  change (foldl _ H (groupsIterable H this)) with H' in Hc, Hg.
  split_and!.
  - unfold getNumberOfGroups, chunk. by rewrite Hc.
  - unfold groupsIterable, chunk. by rewrite Hc.
  - intros g. unfold isInGroup, chunk. by rewrite Hc.
  - intros g Hin. rewrite Hg, decide_True by done. split; [| done].
    rewrite list_elem_of_filter. naive_solver.
  - intros g Hout. by rewrite Hg, decide_False.
Qed.

(** The failing input of C3: a chunk in one group, the only member of
    it. After [disconnectFromGroups()] the group is empty and the
    chunk still counts one group, where the claim asks for none. *)
Lemma disconnectFromGroups_group_side_witness :
  let H' := disconnectFromGroups 0 single_store in
  getNumberOfGroups 0 H' = 1 ∧ isInGroup 0 0 H' = true ∧ chunks (group H' 0) = [].
Proof.
  intros H'.
  destruct (disconnectFromGroups_group_side single_store 0)
    as (Hn & _ & Hin & Hgone & _).
  fold H' in Hn, Hin, Hgone.
  split_and!.
  - rewrite Hn. vm_compute. reflexivity.
  - rewrite Hin. vm_compute. reflexivity.
  - destruct (Hgone 0) as [_ ->].
    + apply (bool_decide_unpack _). vm_compute. exact I.
    + vm_compute. reflexivity.
Defined.
End chunk_claims.

(** ** [getChildIdsByOrders]: the loops and the words of the specification *)

Section child_ids.
Import ChunkJs.
Implicit Types (H : Store) (g : GroupRef) (c : ChunkRef) (name : string).

Lemma foldl_bind {A B C} (f : A → C → A) (h : B → list C) (a : A) (l : list B) :
  foldl f a (l ≫= h) = foldl (λ acc x, foldl f acc (h x)) a l.
Proof.
  revert a. induction l as [| x l IH]; intros a; [done |].
  rewrite bind_cons, foldl_app. apply IH.
Qed.

Lemma foldl_ext_pointwise {A B} (f f' : A → B → A) (a : A) (l : list B) :
  (∀ acc x, f acc x = f' acc x) → foldl f a l = foldl f' a l.
Proof.
  intros Hext. revert a. induction l as [| x l IH]; intros a; simpl; [done |].
  by rewrite Hext, IH.
Qed.

(** The three nested loops push the collected pairs one after the
    other. *)
Lemma collect_lists_collected H this :
  collect_lists H this = foldl push [] (collected H this).
Proof.
  unfold collect_lists, collected. rewrite foldl_bind.
  apply foldl_ext_pointwise. intros acc g.
  case_decide; [| done].
  unfold collect_children. rewrite foldl_bind.
  apply foldl_ext_pointwise. intros acc' childGroup.
  unfold collect_options. rewrite foldl_bind.
  apply foldl_ext_pointwise. intros acc'' kv.
  by destruct (endsWith_Order kv.1).
Qed.

Lemma property_nil {A} name : property name ([] : list (string * A)) = None.
Proof. done. Qed.

Lemma property_cons {A} name n (l : A) rest :
  property name ((n, l) :: rest)
  = if decide (n = name) then Some l else property name rest.
Proof.
  unfold property. simpl. case_decide; [done |].
  by destruct (list_find _ rest) as [[i [n' l']] |].
Qed.

Lemma property_push name n item L :
  property name (lists_push n item L)
  = if decide (n = name) then Some (default [] (property name L) ++ [item])
    else property name L.
Proof.
  induction L as [| [n' l'] L IH]; simpl.
  - rewrite property_cons, property_nil. by case_decide.
  - destruct (decide (n' = n)) as [-> | Hne].
    + rewrite !property_cons. by repeat case_decide.
    + rewrite !property_cons, IH.
      repeat case_decide; subst; done.
Qed.

Lemma property_foldl_push name ps : ∀ L,
  property name (foldl push L ps)
  = match snd <$> filter (λ p, p.1 = name) ps with
    | [] => property name L
    | items => Some (default [] (property name L) ++ items)
    end.
Proof.
  induction ps as [| [n item] ps IH]; intros L; [done |].
  cbn [foldl]. rewrite IH. unfold push. cbn [fst snd]. rewrite property_push.
  rewrite filter_cons. cbn [fst].
  destruct (decide (n = name)) as [-> | Hne].
  - rewrite fmap_cons. cbn [snd].
    destruct (snd <$> filter _ ps) as [| i items]; simpl; [done |].
    by rewrite <- app_assoc.
  - done.
Qed.

Lemma property_map {A B} (F : A → B) name (L : list (string * A)) :
  property name (map (λ nl, (nl.1, F nl.2)) L) = F <$> property name L.
Proof.
  induction L as [| [n l] L IH]; [done |]. simpl.
  rewrite !property_cons. by case_decide.
Qed.

Lemma ids_of_chunk_ids H l : ids_of H l = JsSet.of_list (chunk_ids H l).
Proof.
  unfold ids_of, chunk_ids, JsSet.of_list, JsSet.add_all.
  rewrite foldl_bind. apply foldl_ext_pointwise. intros acc item.
  by rewrite foldl_fmap.
Qed.

(** [getChildIdsByOrders] returns, under every name, what the
    specification describes. *)
Lemma getChildIdsByOrders_property cmp H this name :
  property name (getChildIdsByOrders cmp H this)
  = match items_named H this name with
    | [] => None
    | l => Some (JsSet.of_list (chunk_ids H (array_sort (compare_items cmp) l)))
    end.
Proof.
  unfold getChildIdsByOrders.
  rewrite (property_map (λ l, ids_of H (array_sort (compare_items cmp) l))).
  rewrite collect_lists_collected, property_foldl_push, property_nil.
  unfold items_named.
  destruct (snd <$> filter _ (collected H this)); simpl; [done |].
  by rewrite ids_of_chunk_ids.
Qed.

(** *** The sort *)

Lemma sort_insert_Permutation cmp x l : sort_insert cmp x l ≡ₚ x :: l.
Proof.
  induction l as [| y l IH]; simpl; [done |].
  case_decide; [done |]. rewrite IH. apply Permutation_swap.
Qed.

Lemma array_sort_Permutation cmp l : array_sort cmp l ≡ₚ l.
Proof.
  induction l as [| x l IH]; simpl; [done |].
  by rewrite sort_insert_Permutation, IH.
Qed.

Lemma compare_items_ordered compareTo a b :
  is_finite (order a) → is_finite (order b) →
  (SortCompare (compare_items compareTo a b) ≤ 0)%Z ↔ ordered_before compareTo a b.
Proof.
  unfold compare_items, ordered_before.
  destruct (order a) as [x | | |] eqn:Ha, (order b) as [y | | |] eqn:Hb; try done.
  intros _ _. simpl. case_decide as E; simpl.
  - assert (y - x ≠ 0)%Z as E' by (intros E'; apply E; by rewrite E').
    split; [intros ?; left; lia | intros [? | [[= ?] ?]]; lia].
  - assert (y - x = 0)%Z as E'.
    { by injection E. }
    split.
    + intros ?. right. split; [f_equal; lia | done].
    + intros [? | [? ?]]; [lia | done].
Qed.

(** Of two pairs with the same order that is no finite number the
    subtraction is [NaN]: the comparator returns it, without a call of
    [compareTo], and the sort leaves the pairs as they come. *)
Lemma compare_items_NaN compareTo a b :
  order a = order b → ¬ is_finite (order a) →
  compare_items compareTo a b = NaN.
Proof.
  unfold compare_items. intros <-. by destruct (order a).
Qed.

Lemma JsNumber_lt_trans x y z : JsNumber_lt x y → JsNumber_lt y z → JsNumber_lt x z.
Proof. destruct x, y, z; simpl; try done. lia. Qed.

Section sorted.
Context (compareTo : GroupRef → GroupRef → Z).
Hypothesis compareTo_total : ∀ a b, (compareTo a b ≤ 0)%Z ∨ (compareTo b a ≤ 0)%Z.

Lemma ordered_before_total a b :
  is_finite (order a) → is_finite (order b) →
  ordered_before compareTo a b ∨ ordered_before compareTo b a.
Proof.
  unfold ordered_before.
  destruct (order a) as [x | | |], (order b) as [y | | |]; try done. intros _ _. simpl.
  destruct (Z.lt_trichotomy x y) as [? | [-> | ?]]; [by right; left | | by left; left].
  destruct (compareTo_total (item_group a) (item_group b)); [left | right]; right; done.
Qed.

Lemma sort_insert_finite x l :
  is_finite (order x) → Forall (λ y, is_finite (order y)) l →
  Forall (λ y, is_finite (order y)) (sort_insert (compare_items compareTo) x l).
Proof.
  intros Hx Hl. rewrite sort_insert_Permutation. by constructor.
Qed.

Lemma sort_insert_Sorted x l :
  is_finite (order x) → Forall (λ y, is_finite (order y)) l →
  Sorted (ordered_before compareTo) l →
  Sorted (ordered_before compareTo) (sort_insert (compare_items compareTo) x l).
Proof.
  intros Hx Hfin. induction 1 as [| y l Hl IH Hhd]; simpl.
  - apply Sorted_cons; constructor.
  - apply Forall_cons in Hfin as [Hy Hfin]. case_decide as E.
    + apply compare_items_ordered in E; [| done | done].
      apply Sorted_cons; [by apply Sorted_cons | by apply HdRel_cons].
    + assert (ordered_before compareTo y x) as Hyx.
      { destruct (ordered_before_total x y) as [Hxy | ?]; [done | done | | done].
        by apply compare_items_ordered in Hxy. }
      apply Sorted_cons; [by apply IH |].
      destruct Hhd as [| z l' Hyz]; simpl; [by apply HdRel_cons |].
      case_decide; by apply HdRel_cons.
Qed.

Lemma array_sort_finite l :
  Forall (λ y, is_finite (order y)) l →
  Forall (λ y, is_finite (order y)) (array_sort (compare_items compareTo) l).
Proof.
  intros Hl. by rewrite array_sort_Permutation.
Qed.

Lemma array_sort_Sorted l :
  Forall (λ y, is_finite (order y)) l →
  Sorted (ordered_before compareTo) (array_sort (compare_items compareTo) l).
Proof.
  induction l as [| x l IH]; intros Hl; simpl; [constructor |].
  apply Forall_cons in Hl as [Hx Hl].
  apply sort_insert_Sorted; [done | by apply array_sort_finite | by apply IH].
Qed.
End sorted.

(** *** The suffix test *)

Lemma append_nil (t : string) : ("" +:+ t)%string = t.
Proof. reflexivity. Qed.

Lemma append_cons (a : Ascii.ascii) (s t : string) :
  (String a s +:+ t)%string = String a (s +:+ t).
Proof. reflexivity. Qed.

Lemma length_append (s t : string) :
  String.length (s +:+ t) = String.length s + String.length t.
Proof.
  induction s as [| c s IH]; [done |].
  rewrite append_cons. simpl. by rewrite IH.
Qed.

Lemma substring_append_prefix (s t : string) :
  String.substring 0 (String.length s) (s +:+ t) = s.
Proof.
  induction s as [| c s IH]; [by destruct t |].
  rewrite append_cons. simpl. by rewrite IH.
Qed.

Lemma substring_append_suffix (s t : string) m :
  String.substring (String.length s) m (s +:+ t) = String.substring 0 m t.
Proof.
  induction s as [| c s IH]; [done |].
  rewrite append_cons. simpl. done.
Qed.

Lemma substring_all (s : string) : String.substring 0 (String.length s) s = s.
Proof. induction s as [| c s IH]; simpl; [done | by rewrite IH]. Qed.

Lemma substring_split n : ∀ s : string,
  n ≤ String.length s →
  s = (String.substring 0 n s +:+ String.substring n (String.length s - n) s)%string.
Proof.
  induction n as [| n IH]; intros s Hn.
  - rewrite Nat.sub_0_r, substring_all. by destruct s.
  - destruct s as [| c s]; simpl in *; [lia |].
    rewrite append_cons. f_equal. apply IH. lia.
Qed.

Lemma endsWith_Order_spec key :
  endsWith_Order key = true ↔ ∃ name, order_name key name.
Proof.
  unfold endsWith_Order, order_name. rewrite andb_true_iff, Nat.leb_le, String.eqb_eq.
  split.
  - intros [Hlen Hsuffix]. exists (String.substring 0 (String.length key - 5) key).
    pose proof (substring_split (String.length key - 5) key ltac:(lia)) as Hsplit.
    replace (String.length key - (String.length key - 5)) with 5 in Hsplit by lia.
    by rewrite Hsuffix in Hsplit.
  - intros [name ->]. rewrite length_append. simpl. split; [lia |].
    replace (String.length name + 5 - 5) with (String.length name) by lia.
    by rewrite substring_append_suffix.
Qed.

Lemma strip_Order_spec key name : order_name key name → strip_Order key = name.
Proof.
  unfold strip_Order, order_name. intros ->. rewrite length_append. simpl.
  replace (String.length name + 5 - 5) with (String.length name) by lia.
  apply substring_append_prefix.
Qed.
End child_ids.

Section child_ids_claim.
Import ChunkJs.
Implicit Types (H : Store) (name : string).

Lemma ordered_before_trans compareTo :
  (∀ a b c, (compareTo a b ≤ 0)%Z → (compareTo b c ≤ 0)%Z → (compareTo a c ≤ 0)%Z) →
  ∀ x y z, ordered_before compareTo x y → ordered_before compareTo y z →
           ordered_before compareTo x z.
Proof.
  intros Htrans a b c [Hab | [Hab Hab']] [Hbc | [Hbc Hbc']]; unfold ordered_before.
  - left. by eapply JsNumber_lt_trans.
  - left. by rewrite <- Hbc.
  - left. by rewrite Hab.
  - right. split; [congruence |]. by eapply Htrans.
Qed.

Lemma of_list_app_prefix (l1 l2 : list ChunkId) :
  JsSet.of_list l1 `prefix_of` JsSet.of_list (l1 ++ l2).
Proof.
  unfold JsSet.of_list, JsSet.add_all. rewrite foldl_app.
  apply (add_all_prefix l2).
Qed.

Example getChildIdsByOrders_prefetch :
  getChildIdsByOrders compare_refs prefetch_store 0
  = [("prefetch"%string, [IdNumber 13; IdNumber 11; IdNumber 12])] ∧
  getChildIdsByOrders compare_refs prefetch_store 1 = [].
Proof. vm_compute. split; reflexivity. Qed.

(** C4. [getChildIdsByOrders] returns under every order name the ids,
    without repetition and in first-seen order, of the chunks of the
    groups of the pairs collected under that name (from the groups whose
    last chunk this chunk is, from the options of their children whose
    name is some text followed by [Order], under that text), the pairs
    being sorted; the sorted list is a rearrangement of the collected
    one. Where the order values are finite numbers the order value
    descends in it and, the comparator of the groups being a total
    preorder, ties follow the comparator; in particular, with children
    asking for [prefetchOrder] 2 and 5, the ids of the chunks of the
    child with 5 come first under [prefetch], whatever the comparator.
    Where two pairs have the same order and it is an infinity or [NaN],
    the comparator of the sort returns [NaN], the comparator of the
    groups is not asked, and the two pairs stay as they were collected:
    there the tie is not broken as the claim says. *)
Theorem getChildIdsByOrders_sorted (compareTo : GroupRef → GroupRef → Z)
    (H : Store) (this : ChunkRef) :
  (∀ name,
     property name (getChildIdsByOrders compareTo H this)
     = match items_named H this name with
       | [] => None
       | l => Some (JsSet.of_list
                      (chunk_ids H (array_sort (compare_items compareTo) l)))
       end) ∧
  (∀ l, array_sort (compare_items compareTo) l ≡ₚ l) ∧
  ((∀ a b, (compareTo a b ≤ 0)%Z ∨ (compareTo b a ≤ 0)%Z) →
   (∀ a b c, (compareTo a b ≤ 0)%Z → (compareTo b c ≤ 0)%Z → (compareTo a c ≤ 0)%Z) →
   ∀ l, Forall (λ x, is_finite (order x)) l →
        StronglySorted (ordered_before compareTo)
                       (array_sort (compare_items compareTo) l)) ∧
  (∀ G C2 C5,
     groupsIterable H this = [G] →
     last (chunks (group H G)) = Some this →
     childrenIterable H G = [C2; C5] ∨ childrenIterable H G = [C5; C2] →
     options (group H C2) = [("prefetchOrder"%string, Finite 2)] →
     options (group H C5) = [("prefetchOrder"%string, Finite 5)] →
     let ids g := (λ c, id (chunk H c)) <$> chunks (group H g) in
     property "prefetch" (getChildIdsByOrders compareTo H this)
     = Some (JsSet.of_list (ids C5 ++ ids C2)) ∧
     JsSet.of_list (ids C5) `prefix_of` JsSet.of_list (ids C5 ++ ids C2)) ∧
  (∀ key, endsWith_Order key = true ↔ ∃ name, key = (name +:+ "Order")%string) ∧
  (∀ name, strip_Order (name +:+ "Order") = name) ∧
  (∀ a b, order a = order b → ¬ is_finite (order a) →
          compare_items compareTo a b = NaN ∧
          array_sort (compare_items compareTo) [a; b] = [a; b]).
Proof.
  split_and!.
  - intros name. apply getChildIdsByOrders_property.
  - intros l. apply array_sort_Permutation.
  - intros Htotal Htrans l Hl. apply Sorted_StronglySorted.
    + intros a b c. by apply ordered_before_trans.
    + by apply array_sort_Sorted.
  - intros G C2 C5 Hgroups Hlast Hchildren Hopt2 Hopt5 ids.
    split; [| apply of_list_app_prefix].
    rewrite getChildIdsByOrders_property.
    assert (items_named H this "prefetch" = [mkItem (Finite 2) C2; mkItem (Finite 5) C5] ∨
            items_named H this "prefetch" = [mkItem (Finite 5) C5; mkItem (Finite 2) C2])
      as Hitems.
    { unfold items_named, collected. rewrite Hgroups. simpl.
      rewrite decide_True by done.
      destruct Hchildren as [-> | ->]; simpl; rewrite Hopt2, Hopt5; [by left | by right]. }
    assert (array_sort (compare_items compareTo) [mkItem (Finite 2) C2; mkItem (Finite 5) C5]
            = [mkItem (Finite 5) C5; mkItem (Finite 2) C2]) as Hsorted1 by done.
    assert (array_sort (compare_items compareTo) [mkItem (Finite 5) C5; mkItem (Finite 2) C2]
            = [mkItem (Finite 5) C5; mkItem (Finite 2) C2]) as Hsorted2 by done.
    destruct Hitems as [-> | ->]; cbv iota beta; rewrite ?Hsorted1, ?Hsorted2;
      unfold chunk_ids; simpl; by rewrite app_nil_r.
  - apply endsWith_Order_spec.
  - intros name. by apply strip_Order_spec.
  - intros a b Heq Hinf.
    assert (compare_items compareTo a b = NaN) as Hnan by (by apply compare_items_NaN).
    split; [done |]. simpl. by rewrite Hnan.
Qed.

(** The failing input of C4: the two children of the group of chunk 0
    both ask for the prefetch order [Infinity], and the comparator of the
    groups puts group 2 before group 1. The ids of the chunks of group 1
    come first all the same. *)
Lemma getChildIdsByOrders_sorted_witness :
  items_named infinity_store 0 "prefetch" = [mkItem PosInfinity 1; mkItem PosInfinity 2] ∧
  (0 < compare_refs_desc 1%nat 2%nat)%Z ∧
  array_sort (compare_items compare_refs_desc) [mkItem PosInfinity 1; mkItem PosInfinity 2]
  = [mkItem PosInfinity 1; mkItem PosInfinity 2] ∧
  property "prefetch" (getChildIdsByOrders compare_refs_desc infinity_store 0)
  = Some [IdNumber 11; IdNumber 12; IdNumber 13] ∧
  StronglySorted (ordered_before compare_refs_desc)
    (array_sort (compare_items compare_refs_desc)
       [mkItem (Finite 2) 1; mkItem (Finite 5) 2; mkItem (Finite 2) 0]).
Proof.
  destruct (getChildIdsByOrders_sorted compare_refs_desc infinity_store 0)
    as (Hproperty & _ & Hsorted & _ & _ & _ & Hinfinite).
  split_and!.
  - vm_compute. reflexivity.
  - vm_compute. reflexivity.
  - destruct (Hinfinite (mkItem PosInfinity 1) (mkItem PosInfinity 2) eq_refl (λ x, x))
      as [_ Hkept].
    exact Hkept.
  - rewrite Hproperty. vm_compute. reflexivity.
  - apply Hsorted.
    + unfold compare_refs_desc. intros. lia.
    + unfold compare_refs_desc. intros. lia.
    + repeat constructor.
Defined.
End child_ids_claim.


(** * More of the module graph *)

Section module_graph_fields.
Import ModuleGraphJs.
Implicit Types (g : ModuleGraph) (m k : ModuleId) (d : DependencyId) (c : ConnRef).

(** An assignment to a field of a connection shows in no other field, in
    range or not. *)
Lemma deref_mutate_field {X} (P : ModuleGraphConnection → X) c f g c' :
  (∀ x, P (f x) = P x) → P (deref (mutate c f g) c') = P (deref g c').
Proof.
  intros HP. destruct (decide (c < length (heap g))) as [Hlt | Hge].
  - rewrite deref_mutate by done. case_decide; subst; [apply HP | done].
  - unfold deref. rewrite heap_mutate. by rewrite list_insert_ge by lia.
Qed.

(** Every call that builds a connection builds one; no call drops one. *)
Lemma length_heap_exec g o :
  length (heap (exec g o))
  = length (heap g) + (if builds_connection o then 1 else 0).
Proof.
  destruct o as [d b pm | a d m | d m | d s | a b f | m s | m i | m u | q]; simpl;
    rewrite ?Nat.add_0_r.
  - unfold setParents. by autorewrite with mg.
  - rewrite setResolvedModule_heap, length_app. done.
  - rewrite updateModule_unfold. simpl.
    destruct (connection _); simpl; [| by autorewrite with mg].
    case_decide; simpl; autorewrite with mg; [done |].
    rewrite length_heap_mutate. by autorewrite with mg.
  - rewrite addExplanation_unfold. simpl.
    destruct (connection _); simpl; [| by autorewrite with mg].
    rewrite length_insert. by autorewrite with mg.
  - destruct (decide (a = b)) as [-> | Hne].
    { unfold replaceModule. by rewrite decide_True. }
    rewrite replaceModule_unfold by done.
    assert (∀ on_set assign l g0,
              length (heap (foldl (loop_step a b f on_set assign) g0 l)) = length (heap g0))
      as Hfold.
    { intros on_set assign l. induction l as [| c l IH]; intros g0; simpl; [done |].
      rewrite IH. unfold loop_step. destruct (f c (deref g0 c)); [| done].
      simpl. apply length_insert. }
    rewrite !Hfold. by autorewrite with mg.
  - rewrite addExtraReason_heap, length_app. done.
  - unfold setIssuer. by autorewrite with mg.
  - unfold setUsedExports. by autorewrite with mg.
  - by rewrite (view_heap _ _ (query_view q g)).
Qed.

Lemma length_heap_exec_le g o : length (heap g) ≤ length (heap (exec g o)).
Proof. rewrite length_heap_exec. lia. Qed.

(** The record of a dependency after each operation. *)
Lemma setResolvedModule_dependency_record a d m g d' :
  dependency_record_of (setResolvedModule a d m g) d'
  = if decide (d' = d)
    then {| connection := Some (length (heap g));
            parentModule := parentModule (dependency_record_of g d);
            parentBlock := parentBlock (dependency_record_of g d) |}
    else dependency_record_of g d'.
Proof. unfold setResolvedModule. autorewrite with mg. by case_decide. Qed.

Lemma updateModule_dependency_record d m g d' :
  dependency_record_of (updateModule d m g).1 d' = dependency_record_of g d'.
Proof.
  rewrite updateModule_unfold. simpl.
  destruct (connection (dependency_record_of g d)); simpl; [| by autorewrite with mg].
  case_decide; simpl; by autorewrite with mg.
Qed.

Lemma addExplanation_dependency_record d s g d' :
  dependency_record_of (addExplanation d s g).1 d' = dependency_record_of g d'.
Proof.
  rewrite addExplanation_unfold. simpl.
  destruct (connection (dependency_record_of g d)); simpl; by autorewrite with mg.
Qed.

Lemma addExtraReason_dependency_record m s g d :
  dependency_record_of (addExtraReason m s g) d = dependency_record_of g d.
Proof. unfold addExtraReason. by autorewrite with mg. Qed.

Lemma exec_parents g o d :
  let parents g := (parentBlock (dependency_record_of g d),
                    parentModule (dependency_record_of g d)) in
  parents (exec g o)
  = match o with
    | OSetParents d' b m => if decide (d' = d) then (b, m) else parents g
    | _ => parents g
    end.
Proof.
  destruct o as [d' b pm | a d' m | d' m | d' s | a b f | m s | m i | m u | q]; simpl.
  - unfold setParents. autorewrite with mg.
    destruct (decide (d' = d)) as [-> | Hne].
    + by rewrite decide_True.
    + rewrite decide_False; [done | congruence].
  - rewrite setResolvedModule_dependency_record. by case_decide; subst.
  - by rewrite updateModule_dependency_record.
  - by rewrite addExplanation_dependency_record.
  - by rewrite replaceModule_dependency.
  - by rewrite addExtraReason_dependency_record.
  - unfold setIssuer. by autorewrite with mg.
  - unfold setUsedExports. by autorewrite with mg.
  - by rewrite (view_dependencies _ _ (query_view q g)).
Qed.

Lemma getParentModule_result d g :
  (getParentModule d g).2 = parentModule (dependency_record_of g d).
Proof. unfold getParentModule. by rewrite (get_mgd_pair d g). Qed.

Lemma getParentBlock_result d g :
  (getParentBlock d g).2 = parentBlock (dependency_record_of g d).
Proof. unfold getParentBlock. by rewrite (get_mgd_pair d g). Qed.

(** X1. [getParentBlock] and [getParentModule] return what the last
    [setParents] for the dependency stored, whatever other calls the run
    holds before, between and after, and [undefined] when the run holds no
    [setParents] for the dependency. *)
Theorem parents_last_write (ops : list Op) (d : DependencyId) :
  (getParentBlock d (run ops new_ModuleGraph)).2 = (last_parents d ops).1 ∧
  (getParentModule d (run ops new_ModuleGraph)).2 = (last_parents d ops).2.
Proof.
  rewrite getParentBlock_result, getParentModule_result.
  assert (∀ g acc,
            (parentBlock (dependency_record_of g d),
             parentModule (dependency_record_of g d)) = acc →
            (parentBlock (dependency_record_of (run ops g) d),
             parentModule (dependency_record_of (run ops g) d))
            = foldl (λ acc o,
                       match o with
                       | OSetParents d' b m => if decide (d' = d) then (b, m) else acc
                       | _ => acc
                       end) acc ops) as Hgen.
  { unfold run. induction ops as [| o ops IH]; intros g acc Hacc; simpl; [done |].
    apply IH. pose proof (exec_parents g o d) as Hexec. simpl in Hexec.
    rewrite Hexec, Hacc. by destruct o. }
  specialize (Hgen new_ModuleGraph (undefined, undefined) eq_refl).
  fold (last_parents d ops) in Hgen.
  split; [by rewrite <- Hgen | by rewrite <- Hgen].
Qed.

(** The issuer of a module is assigned by [setIssuer] alone. *)
Lemma issuer_alter (f : ModuleGraphModule → ModuleGraphModule) k g m :
  (∀ r, issuer (f r) = issuer r) →
  issuer (record_of (with_moduleMap (alter f k) g) m) = issuer (record_of g m).
Proof.
  intros Hf. rewrite !record_of_lookup. simpl.
  destruct (decide (k = m)) as [-> | Hne].
  - rewrite lookup_alter_eq. destruct (_moduleMap g !! m); simpl; [apply Hf | done].
  - by rewrite lookup_alter_ne.
Qed.

Lemma foldl_loop_step_issuer a b f on_set assign g l m :
  (∀ F r, issuer (on_set F r) = issuer r) →
  issuer (record_of (foldl (loop_step a b f on_set assign) g l) m)
  = issuer (record_of g m).
Proof.
  intros Hon. revert g. induction l as [| c l IH]; intros g; simpl; [done |].
  rewrite IH. unfold loop_step. destruct (f c (deref g c)); [| done]. simpl.
  rewrite !issuer_alter by (intros; apply Hon). by autorewrite with mg.
Qed.

Lemma exec_issuer g o m :
  issuer (record_of (exec g o) m)
  = match o with
    | OSetIssuer m' i => if decide (m' = m) then i else issuer (record_of g m)
    | _ => issuer (record_of g m)
    end.
Proof.
  destruct o as [d' b pm | a d' m' | d' m' | d' s | a b f | m' s | m' i | m' u | q];
    simpl.
  - unfold setParents. by autorewrite with mg.
  - unfold setResolvedModule. autorewrite with mg.
    repeat case_decide; subst; simpl; by autorewrite with mg.
  - rewrite updateModule_unfold. simpl.
    destruct (connection (dependency_record_of g d')) as [c |]; simpl;
      [| by autorewrite with mg].
    case_decide; simpl; autorewrite with mg; [done |].
    repeat case_decide; subst; simpl; by autorewrite with mg.
  - rewrite addExplanation_unfold. simpl.
    destruct (connection (dependency_record_of g d')); simpl; by autorewrite with mg.
  - destruct (decide (a = b)) as [-> | Hne].
    { unfold replaceModule. by rewrite decide_True. }
    rewrite replaceModule_unfold by done.
    rewrite !foldl_loop_step_issuer by done. by autorewrite with mg.
  - unfold addExtraReason. autorewrite with mg.
    case_decide; subst; simpl; by autorewrite with mg.
  - unfold setIssuer. autorewrite with mg.
    destruct (decide (m' = m)) as [-> | Hne].
    + by rewrite decide_True.
    + rewrite decide_False; [done | congruence].
  - unfold setUsedExports. autorewrite with mg. by case_decide; subst.
  - by rewrite (view_records _ _ (query_view q g)).
Qed.

Lemma getIssuer_result m g : (getIssuer m g).2 = issuer (record_of g m).
Proof. unfold getIssuer. by rewrite (get_mgm_pair m g). Qed.

(** X2. [getIssuer] returns the issuer the last [setIssuer] for the module
    stored, whatever other calls the run holds (a [replaceModule] away
    from the module or onto it does not carry the issuer along), and
    [null] when the run holds no [setIssuer] for the module. *)
Theorem issuer_last_write (ops : list Op) (m : ModuleId) :
  (getIssuer m (run ops new_ModuleGraph)).2 = last_issuer m ops.
Proof.
  rewrite getIssuer_result.
  assert (∀ g, issuer (record_of (run ops g) m)
               = foldl (λ acc o,
                          match o with
                          | OSetIssuer m' i => if decide (m' = m) then i else acc
                          | _ => acc
                          end) (issuer (record_of g m)) ops) as Hgen.
  { unfold run. induction ops as [| o ops IH]; intros g; simpl; [done |].
    rewrite IH, exec_issuer. by destruct o. }
  rewrite Hgen. reflexivity.
Qed.
End module_graph_fields.

(** * The connection objects over a run *)
Section module_graph_connections.
Import ModuleGraphJs.
Implicit Types (g : ModuleGraph) (m k : ModuleId) (d : DependencyId) (c : ConnRef).

Lemma foldl_loop_step_field {X} (P : ModuleGraphConnection → X)
    a b f on_set assign g l c :
  (∀ x, P (assign x) = P x) →
  P (deref (foldl (loop_step a b f on_set assign) g l) c) = P (deref g c).
Proof.
  intros HP. revert g. induction l as [| c0 l IH]; intros g; simpl; [done |].
  rewrite IH. unfold loop_step. destruct (f c0 (deref g c0)); [| done].
  change (P (deref (mutate c0 assign g) c) = P (deref g c)).
  by apply deref_mutate_field.
Qed.

Lemma exec_field {X} (P : ModuleGraphConnection → X) g o c :
  kept_field P → c < length (heap g) →
  P (deref (exec g o) c) = P (deref g c).
Proof.
  intros (Hmod & Horig & Hexpl) Hc.
  destruct o as [d' b pm | a d' m' | d' m' | d' s | a b f | m' s | m' i | m' u | q];
    simpl.
  - unfold setParents. by autorewrite with mg.
  - rewrite setResolvedModule_deref. rewrite decide_False by lia. done.
  - rewrite updateModule_unfold. simpl.
    destruct (connection (dependency_record_of g d')) as [c0 |]; simpl;
      [| by autorewrite with mg].
    case_decide; simpl; autorewrite with mg; [done |].
    rewrite deref_mutate_field by apply Hmod. by autorewrite with mg.
  - rewrite addExplanation_unfold. simpl.
    destruct (connection (dependency_record_of g d')) as [c0 |]; simpl;
      [| by autorewrite with mg].
    rewrite deref_mutate_field by apply Hexpl. by autorewrite with mg.
  - destruct (decide (a = b)) as [-> | Hne].
    { unfold replaceModule. by rewrite decide_True. }
    rewrite replaceModule_unfold by done.
    rewrite !foldl_loop_step_field by (intros; apply Hmod || apply Horig).
    by autorewrite with mg.
  - rewrite addExtraReason_deref. rewrite decide_False by lia. done.
  - unfold setIssuer. by autorewrite with mg.
  - unfold setUsedExports. by autorewrite with mg.
  - unfold deref. by rewrite (view_heap _ _ (query_view q g)).
Qed.

Lemma length_heap_run_le ops g : length (heap g) ≤ length (heap (run ops g)).
Proof.
  unfold run. revert g. induction ops as [| o ops IH]; intros g; simpl; [done |].
  etrans; [apply (length_heap_exec_le g o) | apply IH].
Qed.

Lemma run_field {X} (P : ModuleGraphConnection → X) ops g c :
  kept_field P → c < length (heap g) →
  P (deref (run ops g) c) = P (deref g c).
Proof.
  intros HP. unfold run. revert g.
  induction ops as [| o ops IH]; intros g Hc; simpl; [done |].
  rewrite IH; [by apply exec_field |].
  pose proof (length_heap_exec_le g o). lia.
Qed.

Lemma kept_resolvedModule : kept_field resolvedModule.
Proof. by split_and!. Qed.

Lemma kept_resolvedOriginModule : kept_field resolvedOriginModule.
Proof. by split_and!. Qed.

Lemma kept_dependency : kept_field dependency.
Proof. by split_and!. Qed.

Lemma getResolvedModule_result d g :
  (getResolvedModule d g).2
  = match connection (dependency_record_of g d) with
    | Some c => val (resolvedModule (deref g c))
    | None => null
    end.
Proof.
  unfold getResolvedModule. rewrite (get_mgd_pair d g). simpl.
  destruct (connection _); by rewrite ?deref_get_mgd.
Qed.

Lemma getResolvedOrigin_result d g :
  (getResolvedOrigin d g).2
  = match connection (dependency_record_of g d) with
    | Some c => from_null (resolvedOriginModule (deref g c))
    | None => null
    end.
Proof.
  unfold getResolvedOrigin. rewrite (get_mgd_pair d g). simpl.
  destruct (connection _); by rewrite ?deref_get_mgd.
Qed.

(** X3. Once [setResolvedModule(A, d, B)] was called, and as long as no
    further [setResolvedModule] is called for [d], every later call
    leaves [getConnection(d)] the same object and [getResolvedModule(d)]
    and [getResolvedOrigin(d)] at [B] and [A]: [updateModule] and
    [replaceModule], which redirect [getModule(d)] and [getOrigin(d)],
    never write the resolved fields. *)
Theorem resolved_fields_stable (g0 : ModuleGraph) (ops : list Op)
    (A B : ModuleId) (d : DependencyId) :
  (∀ a m, OSetResolvedModule a d m ∉ ops) →
  let g := run ops (setResolvedModule A d B g0) in
  (getConnection d g).2 = val (length (heap g0)) ∧
  (getResolvedModule d g).2 = val B ∧
  (getResolvedOrigin d g).2 = val A.
Proof.
  intros Hops g.
  assert (connection (dependency_record_of g d) = Some (length (heap g0))) as Hconn.
  { unfold g. rewrite run_connection by done.
    rewrite setResolvedModule_connection. by rewrite decide_True. }
  assert (length (heap g0) < length (heap (setResolvedModule A d B g0))) as Hlt.
  { rewrite setResolvedModule_heap, length_app. simpl. lia. }
  rewrite getConnection_result, getResolvedModule_result, getResolvedOrigin_result.
  rewrite Hconn. unfold g.
  rewrite (run_field resolvedModule) by (done || apply kept_resolvedModule).
  rewrite (run_field resolvedOriginModule) by (done || apply kept_resolvedOriginModule).
  rewrite setResolvedModule_deref. by rewrite decide_True.
Qed.

Lemma resolved_fields_stable_witness :
  let g := run [OUpdateModule 7 3; OReplaceModule 1 5 (λ _ _, true)]
               (setResolvedModule 1 7 2 new_ModuleGraph) in
  (getConnection 7 g).2 = val (length (heap new_ModuleGraph)) ∧
  (getResolvedModule 7 g).2 = val 2 ∧
  (getResolvedOrigin 7 g).2 = val 1.
Proof.
  apply (resolved_fields_stable new_ModuleGraph
           [OUpdateModule 7 3; OReplaceModule 1 5 (λ _ _, true)] 1 2 7).
  intros a m Hin. repeat (apply elem_of_cons in Hin as [Heq | Hin]; [discriminate |]).
  by apply elem_of_nil in Hin.
Defined.

Lemma owned_exec g o : owned g → owned (exec g o).
Proof.
  intros Hg d c Hc.
  assert ((∃ a m, o = OSetResolvedModule a d m) ∨
          (∀ a m, o ≠ OSetResolvedModule a d m)) as [(a & m & ->) | Hno].
  { destruct o as [| a d0 m | | | | | | |]; try (by right).
    destruct (decide (d0 = d)) as [-> | Hne]; [left; eauto | right; congruence]. }
  - simpl in *. rewrite setResolvedModule_connection, decide_True in Hc by done.
    injection Hc as <-. rewrite setResolvedModule_heap, length_app,
      setResolvedModule_deref, decide_True by done.
    simpl. split; [lia | done].
  - rewrite exec_connection in Hc by done.
    destruct (Hg d c Hc) as [Hlt Hdep].
    split; [pose proof (length_heap_exec_le g o); lia |].
    by rewrite (exec_field dependency) by (done || apply kept_dependency).
Qed.

Lemma owned_run ops g : owned g → owned (run ops g).
Proof.
  unfold run. revert g. induction ops as [| o ops IH]; intros g Hg; simpl; [done |].
  by apply IH, owned_exec.
Qed.

Lemma owned_new : owned new_ModuleGraph.
Proof. intros d c Hc. by vm_compute in Hc. Qed.

(** X4. After any run on an empty graph two dependencies never share a
    connection object: what [getConnection] returns for a dependency was
    built by a [setResolvedModule] for that dependency, and none of the
    connections that [addExtraReason] built (they have no dependency) is
    the connection of a dependency. *)
Theorem connection_of_one_dependency (ops : list Op) (d d' : DependencyId)
    (c : ConnRef) :
  (getConnection d (run ops new_ModuleGraph)).2 = val c →
  dependency (deref (run ops new_ModuleGraph) c) = Some d ∧
  ((getConnection d' (run ops new_ModuleGraph)).2 = val c → d' = d).
Proof.
  pose proof (owned_run ops _ owned_new) as Hown.
  rewrite !getConnection_result. intros Hd.
  destruct (connection (dependency_record_of _ d)) as [c0 |] eqn:Hc0; [| done].
  injection Hd as ->. destruct (Hown d c Hc0) as [_ Hdep]. split; [done |].
  intros Hd'.
  destruct (connection (dependency_record_of _ d')) as [c1 |] eqn:Hc1; [| done].
  injection Hd' as ->. destruct (Hown d' c Hc1) as [_ Hdep']. congruence.
Qed.

Lemma connection_of_one_dependency_witness :
  dependency (deref (run example_ops new_ModuleGraph) 2) = Some 8 ∧
  ((getConnection 8 (run example_ops new_ModuleGraph)).2 = val 2 → 8 = 8).
Proof.
  apply (connection_of_one_dependency example_ops 8 8 2).
  vm_compute. reflexivity.
Defined.
End module_graph_connections.

(** * Building connections *)
Section module_graph_building.
Import ModuleGraphJs.
Implicit Types (g : ModuleGraph) (m k : ModuleId) (d : DependencyId) (c : ConnRef).

Lemma getIncomingConnections_result m g :
  (getIncomingConnections m g).2 = incoming g m.
Proof. unfold getIncomingConnections. by rewrite (get_mgm_pair m g). Qed.

Lemma getOutgoingConnection_result m g :
  (getOutgoingConnection m g).2 = outgoing g m.
Proof. unfold getOutgoingConnection. by rewrite (get_mgm_pair m g). Qed.

Lemma fresh_not_incoming g k : consistent g → length (heap g) ∉ incoming g k.
Proof. intros Hg Hin. apply (consistent_incoming g Hg) in Hin as [Hlt _]. lia. Qed.

Lemma fresh_not_outgoing g k : consistent g → length (heap g) ∉ outgoing g k.
Proof. intros Hg Hin. apply (consistent_outgoing g Hg) in Hin as [Hlt _]. lia. Qed.

(** X5. [setResolvedModule(A, d, B)] always builds a connection and
    appends it to the incoming connections of [B] and to the outgoing
    connections of [A], also when [d] was resolved before; the sets of
    the other modules stay as they are, and [getModule(d)] and
    [getOrigin(d)] return [B] and [A]. A connection that [d] had before
    is no longer the connection of [d], but it is unchanged and still in
    the incoming set of its module: the call does not take it out. *)
Theorem setResolvedModule_appends (ops : list Op) (A B : ModuleId) (d : DependencyId) :
  let g := run ops new_ModuleGraph in
  let c := length (heap g) in
  let g' := setResolvedModule A d B g in
  (getIncomingConnections B g').2 = (getIncomingConnections B g).2 ++ [c] ∧
  (getOutgoingConnection A g').2 = (getOutgoingConnection A g).2 ++ [c] ∧
  (∀ k, k ≠ B → incoming g' k = incoming g k) ∧
  (∀ k, k ≠ A → outgoing g' k = outgoing g k) ∧
  (getModule d g').2 = val B ∧
  (getOrigin d g').2 = val A ∧
  (∀ c0, (getConnection d g).2 = val c0 →
         (getConnection d g').2 ≠ val c0 ∧
         deref g' c0 = deref g c0 ∧
         c0 ∈ incoming g' (module (deref g c0))).
Proof.
  intros g c g'.
  pose proof (consistent_run ops _ consistent_new) as Hg. fold g in Hg.
  rewrite !getIncomingConnections_result, !getOutgoingConnection_result.
  rewrite getModule_result, getOrigin_result.
  unfold g'. rewrite setResolvedModule_connection, decide_True by done.
  rewrite !setResolvedModule_deref, !decide_True by done.
  split_and!.
  - rewrite setResolvedModule_incoming, decide_True by done.
    apply add_absent, fresh_not_incoming, Hg.
  - rewrite setResolvedModule_outgoing, decide_True by done.
    apply add_absent, fresh_not_outgoing, Hg.
  - intros k Hk. by rewrite setResolvedModule_incoming, decide_False.
  - intros k Hk. by rewrite setResolvedModule_outgoing, decide_False.
  - done.
  - done.
  - intros c0. rewrite !getConnection_result.
    rewrite setResolvedModule_connection, decide_True by done.
    destruct (connection (dependency_record_of g d)) as [c1 |] eqn:Hc1; [| done].
    intros [= ->].
    pose proof (consistent_dependencies g Hg d c0 Hc1) as Hlt.
    split_and!.
    + intros [= Heq]. fold c in Heq. unfold c in Heq. lia.
    + rewrite setResolvedModule_deref, decide_False; [done | lia].
    + rewrite setResolvedModule_incoming.
      assert (c0 ∈ incoming g (module (deref g c0))) as Hin
        by (by apply (consistent_incoming g Hg)).
      case_decide as Hk; [| done].
      rewrite Hk in Hin. apply elem_of_add. by right.
Qed.

(** X6. [addExtraReason(m, s)] always builds a connection and appends it
    to the incoming connections of [m]; the connection has no origin and
    no dependency and carries the explanation. No outgoing set changes or
    holds the connection, the sets of the other modules stay as they
    are, and no dependency gets or loses a connection. *)
Theorem addExtraReason_appends (ops : list Op) (m : ModuleId) (s : string) :
  let g := run ops new_ModuleGraph in
  let c := length (heap g) in
  let g' := addExtraReason m s g in
  (getIncomingConnections m g').2 = (getIncomingConnections m g).2 ++ [c] ∧
  (∀ k, k ≠ m → incoming g' k = incoming g k) ∧
  (∀ k, outgoing g' k = outgoing g k ∧ (c ∉ outgoing g' k)) ∧
  (∀ d, (getConnection d g').2 = (getConnection d g).2 ∧
        (getConnection d g').2 ≠ val c) ∧
  deref g' c = new_ModuleGraphConnection None None m (Some s) ∧
  (∀ c0, c0 ≠ c → deref g' c0 = deref g c0).
Proof.
  intros g c g'.
  pose proof (consistent_run ops _ consistent_new) as Hg. fold g in Hg.
  rewrite !getIncomingConnections_result. unfold g'.
  split_and!.
  - rewrite addExtraReason_incoming, decide_True by done.
    apply add_absent, fresh_not_incoming, Hg.
  - intros k Hk. by rewrite addExtraReason_incoming, decide_False.
  - intros k. rewrite addExtraReason_outgoing. split; [done |].
    apply fresh_not_outgoing, Hg.
  - intros d. rewrite !getConnection_result, addExtraReason_connection.
    split; [done |].
    destruct (connection (dependency_record_of g d)) as [c1 |] eqn:Hc1; [| done].
    pose proof (consistent_dependencies g Hg d c1 Hc1) as Hlt.
    intros [= Heq]. fold c in Heq. unfold c in Heq. lia.
  - rewrite addExtraReason_deref. by rewrite decide_True.
  - intros c0 Hc0. rewrite addExtraReason_deref. by rewrite decide_False.
Qed.

Lemma length_heap_run ops g :
  length (heap (run ops g)) = length (heap g) + length (filter (λ o, builds_connection o = true) ops).
Proof.
  unfold run. revert g. induction ops as [| o ops IH]; intros g; simpl; [lia |].
  rewrite IH, length_heap_exec.
  destruct (builds_connection o) eqn:Ho.
  - rewrite filter_cons_True by done. simpl. lia.
  - rewrite filter_cons_False by (by rewrite Ho). lia.
Qed.

(** X7. The graph never drops a connection. After any run on an empty
    graph the connections are as many as the calls of [setResolvedModule]
    and [addExtraReason] the run holds, and each of them, the ones that a
    later [setResolvedModule] for the same dependency superseded
    included, is in the incoming connections of exactly one module, the
    one its [module] field names, and there once. *)
Theorem connections_never_dropped (ops : list Op) (c : ConnRef) :
  let g := run ops new_ModuleGraph in
  let built := length (filter (λ o, builds_connection o = true) ops) in
  length (heap g) = built ∧
  (∀ k, c ∈ (getIncomingConnections k g).2 ↔ c < built ∧ module (deref g c) = k) ∧
  (∀ k, NoDup (getIncomingConnections k g).2 ∧ NoDup (getOutgoingConnection k g).2).
Proof.
  intros g built.
  pose proof (consistent_run ops _ consistent_new) as Hg. fold g in Hg.
  assert (length (heap g) = built) as Hlen.
  { unfold g. rewrite length_heap_run. done. }
  split_and!; [done | |].
  - intros k. rewrite getIncomingConnections_result, <- Hlen.
    apply (consistent_incoming g Hg).
  - intros k. rewrite getIncomingConnections_result, getOutgoingConnection_result.
    apply (consistent_NoDup g Hg).
Qed.
End module_graph_building.

(** * Moving connections there and back *)
Section module_graph_moves.
Import ModuleGraphJs.
Implicit Types (g : ModuleGraph) (m k : ModuleId) (d : DependencyId) (c : ConnRef).

Lemma set_module_back (x : ModuleGraphConnection) m :
  set_module (module x) (set_module m x) = x.
Proof. by destruct x. Qed.

Lemma delete_add_fresh {A} `{EqDecision A} (x : A) (s : list A) :
  x ∉ s → JsSet.delete x (JsSet.add x s) = s.
Proof.
  intros Hx. rewrite add_absent by done. unfold JsSet.delete.
  rewrite filter_app, filter_cons_False, filter_nil, app_nil_r by (intros ?; done).
  by apply delete_absent.
Qed.

(** X8. [updateModule(d, C)] followed by [updateModule(d, B)], where [B]
    is the module of [d] and [C] another one, gives back the connection
    objects and every set as they were, but for the order of the
    incoming connections of [B]: the connection of [d] is now the last
    of them. *)
Theorem updateModule_there_and_back (ops : list Op) (d : DependencyId)
    (B C : ModuleId) (c : ConnRef) :
  let g := run ops new_ModuleGraph in
  (getConnection d g).2 = val c →
  (getModule d g).2 = val B →
  C ≠ B →
  let g2 := (updateModule d B (updateModule d C g).1).1 in
  (getModule d g2).2 = val B ∧
  heap g2 = heap g ∧
  incoming g2 B = JsSet.delete c (incoming g B) ++ [c] ∧
  (∀ x, x ∈ incoming g2 B ↔ x ∈ incoming g B) ∧
  (∀ k, k ≠ B → incoming g2 k = incoming g k) ∧
  (∀ k, outgoing g2 k = outgoing g k).
Proof.
  intros g. rewrite getConnection_result, getModule_result.
  destruct (connection (dependency_record_of g d)) as [c0 |] eqn:Hconn; [| done].
  intros [= ->] [= Hmod] Hne g2.
  pose proof (consistent_run ops _ consistent_new) as Hg. fold g in Hg.
  pose proof (consistent_dependencies g Hg d c Hconn) as Hlt.
  assert (module (deref g c) ≠ C) as Hne1 by congruence.
  set (g1 := (updateModule d C g).1) in *.
  assert (connection (dependency_record_of g1 d) = Some c) as Hconn1.
  { unfold g1. by rewrite (updateModule_moved_connection d C g c). }
  assert (heap g1 = <[c := set_module C (deref g c)]> (heap g)) as Hheap1.
  { unfold g1. by rewrite (updateModule_moved_heap d C g c). }
  assert (deref g1 c = set_module C (deref g c)) as Hderef1.
  { unfold deref at 1. rewrite Hheap1.
    apply list_lookup_total_insert_eq. done. }
  assert (module (deref g1 c) ≠ B) as Hne2 by (rewrite Hderef1; simpl; congruence).
  assert (c ∈ incoming g B) as HinB by (apply (consistent_incoming g Hg); done).
  assert (c ∉ incoming g C) as HninC.
  { intros Hin. apply (consistent_incoming g Hg) in Hin as [_ Heq]. congruence. }
  assert (incoming g2 B = JsSet.delete c (incoming g B) ++ [c]) as HB.
  { unfold g2. rewrite (updateModule_moved_incoming d B g1 c) by done.
    rewrite decide_True by done.
    unfold g1. rewrite (updateModule_moved_incoming d C g c) by done.
    rewrite decide_False, decide_True by congruence.
    apply add_absent. rewrite elem_of_delete. by intros [? _]. }
  split_and!.
  - rewrite getModule_result. unfold g2.
    rewrite (updateModule_moved_connection d B g1 c) by done. rewrite Hconn1.
    f_equal. unfold deref. rewrite (updateModule_moved_heap d B g1 c) by done.
    rewrite list_lookup_total_insert_eq; [done |].
    rewrite Hheap1, length_insert. done.
  - unfold g2. rewrite (updateModule_moved_heap d B g1 c) by done.
    rewrite Hderef1, Hheap1, list_insert_insert_eq, <- Hmod, set_module_back.
    apply list_insert_id. unfold deref. by apply list_lookup_lookup_total_lt.
  - done.
  - intros x. rewrite HB, elem_of_app, elem_of_delete, list_elem_of_singleton.
    destruct (decide (x = c)) as [-> | Hx]; [tauto | tauto].
  - intros k Hk. unfold g2. rewrite (updateModule_moved_incoming d B g1 c) by done.
    rewrite decide_False by done. rewrite Hderef1. simpl.
    unfold g1. rewrite (updateModule_moved_incoming d C g c) by done.
    destruct (decide (k = C)) as [-> | HkC].
    + by apply delete_add_fresh.
    + rewrite decide_False by congruence. done.
  - intros k. unfold g2. rewrite (updateModule_moved_outgoing d B g1 c) by done.
    unfold g1. by rewrite (updateModule_moved_outgoing d C g c).
Qed.

Lemma updateModule_there_and_back_witness :
  let g := run example_ops new_ModuleGraph in
  let g2 := (updateModule 7 3 (updateModule 7 4 g).1).1 in
  (getModule 7 g2).2 = val 3 ∧
  heap g2 = heap g ∧
  incoming g2 3 = JsSet.delete 0 (incoming g 3) ++ [0] ∧
  (∀ x, x ∈ incoming g2 3 ↔ x ∈ incoming g 3) ∧
  (∀ k, k ≠ 3 → incoming g2 k = incoming g k) ∧
  (∀ k, outgoing g2 k = outgoing g k).
Proof.
  apply (updateModule_there_and_back example_ops 7 3 4 0).
  - vm_compute. reflexivity.
  - vm_compute. reflexivity.
  - discriminate.
Defined.
End module_graph_moves.

(** * Replacing a module for all its connections, or for none *)
Section module_graph_replace_all.
Import ModuleGraphJs.
Implicit Types (g : ModuleGraph) (m k : ModuleId) (d : DependencyId) (c : ConnRef).

Lemma filter_none {A} (P : A → Prop) `{∀ x, Decision (P x)} (s : list A) :
  (∀ x, x ∈ s → ¬ P x) → filter P s = [].
Proof.
  induction s as [| y s IH]; intros Hnone; [done |].
  rewrite filter_cons_False by (apply Hnone; left).
  apply IH. intros x Hx. apply Hnone. by right.
Qed.

(** The loops of [replaceModule] write the sets of the records only. *)
Lemma replaceModule_record a b f g k :
  consistent g →
  issuer (record_of (replaceModule a b f g) k) = issuer (record_of g k) ∧
  usedExports (record_of (replaceModule a b f g) k) = usedExports (record_of g k) ∧
  optimizationBailout (record_of (replaceModule a b f g) k)
  = optimizationBailout (record_of g k).
Proof.
  intros Hg. destruct (decide (a = b)) as [-> | Hne].
  { unfold replaceModule. by rewrite decide_True. }
  destruct (replaceModule_loops a b f g Hne Hg) as (Hout & Hin & _).
  destruct (loop_record _ _ _ _ _ _ _ _ Hout k) as [F1 H1].
  destruct (loop_record _ _ _ _ _ _ _ _ Hin k) as [F2 H2].
  rewrite H2, H1. autorewrite with mg. done.
Qed.

Lemma getOptimizationBailout_result m g :
  (getOptimizationBailout m g).2 = optimizationBailout (record_of g m).
Proof. unfold getOptimizationBailout. by rewrite (get_mgm_pair m g). Qed.

(** X9. [replaceModule(A, D, pred)] with a predicate that accepts every
    connection, and [A] other than [D], leaves [A] without incoming and
    without outgoing connections and hands them all to [D]; afterwards no
    dependency has [A] as its module or as its origin. The issuer, the
    used exports and the bailouts of the two modules are not part of the
    replacement: each module keeps its own. *)
Theorem replaceModule_all (ops : list Op) (A D : ModuleId) (pred : Filter) :
  A ≠ D →
  (∀ c x, pred c x = true) →
  let g := run ops new_ModuleGraph in
  let g' := replaceModule A D pred g in
  (getIncomingConnections A g').2 = [] ∧
  (getOutgoingConnection A g').2 = [] ∧
  (∀ c, c ∈ incoming g' D ↔ c ∈ incoming g D ∨ c ∈ incoming g A) ∧
  (∀ c, c ∈ outgoing g' D ↔ c ∈ outgoing g D ∨ c ∈ outgoing g A) ∧
  (∀ d, (getModule d g').2 ≠ val A ∧ (getOrigin d g').2 ≠ val A) ∧
  (∀ k, (getIssuer k g').2 = (getIssuer k g).2 ∧
        (getUsedExports k g').2 = (getUsedExports k g).2 ∧
        (getOptimizationBailout k g').2 = (getOptimizationBailout k g).2).
Proof.
  intros Hne Hall g g'.
  pose proof (consistent_run ops _ consistent_new) as Hg. fold g in Hg.
  pose proof (consistent_replaceModule A D pred g Hg) as Hg'. fold g' in Hg'.
  destruct (replaceModule_effect A D pred g Hne Hg)
    as (_ & HoutA & HinA & HoutD & HinD & _).
  fold g' in HoutA, HinA, HoutD, HinD.
  assert (incoming g' A = []) as HinA'.
  { rewrite HinA. apply filter_none. intros x _. by rewrite Hall. }
  assert (outgoing g' A = []) as HoutA'.
  { rewrite HoutA. apply filter_none. intros x _. by rewrite Hall. }
  rewrite getIncomingConnections_result, getOutgoingConnection_result.
  split_and!; [done | done | | | |].
  - intros c. rewrite HinD. rewrite Hall. tauto.
  - intros c. rewrite HoutD. rewrite Hall. tauto.
  - intros d. rewrite getModule_result, getOrigin_result.
    destruct (connection (dependency_record_of g' d)) as [c |] eqn:Hc; [| done].
    pose proof (consistent_dependencies g' Hg' d c Hc) as Hlt.
    split.
    + intros [= Heq].
      assert (c ∈ incoming g' A) as Hin by (by apply (consistent_incoming g' Hg')).
      rewrite HinA' in Hin. by apply elem_of_nil in Hin.
    + destruct (originModule (deref g' c)) as [o |] eqn:Ho; [| done].
      intros [= ->].
      assert (c ∈ outgoing g' A) as Hin by (by apply (consistent_outgoing g' Hg')).
      rewrite HoutA' in Hin. by apply elem_of_nil in Hin.
  - intros k.
    rewrite !getIssuer_result, !getUsedExports_result, !getOptimizationBailout_result.
    apply replaceModule_record, Hg.
Qed.

Lemma replaceModule_all_witness :
  let g := run example_ops new_ModuleGraph in
  let g' := replaceModule 5 6 (λ _ _, true) g in
  (getIncomingConnections 5 g').2 = [] ∧
  (getOutgoingConnection 5 g').2 = [] ∧
  (∀ c, c ∈ incoming g' 6 ↔ c ∈ incoming g 6 ∨ c ∈ incoming g 5) ∧
  (∀ c, c ∈ outgoing g' 6 ↔ c ∈ outgoing g 6 ∨ c ∈ outgoing g 5) ∧
  (∀ d, (getModule d g').2 ≠ val 5 ∧ (getOrigin d g').2 ≠ val 5) ∧
  (∀ k, (getIssuer k g').2 = (getIssuer k g).2 ∧
        (getUsedExports k g').2 = (getUsedExports k g).2 ∧
        (getOptimizationBailout k g').2 = (getOptimizationBailout k g).2).
Proof.
  exact (replaceModule_all example_ops 5 6 (λ _ _, true)
           ltac:(lia) (λ _ _, eq_refl)).
Defined.

Lemma foldl_loop_step_rejected a b f on_set assign g l :
  (∀ c, c ∈ l → f c (deref g c) = false) →
  foldl (loop_step a b f on_set assign) g l = g.
Proof.
  induction l as [| c l IH]; intros Hrej; simpl; [done |].
  assert (loop_step a b f on_set assign g c = g) as ->.
  { unfold loop_step. rewrite Hrej; [done | left]. }
  apply IH. intros x Hx. apply Hrej. by right.
Qed.

(** X10. [replaceModule(A, D, pred)] with a predicate that rejects every
    connection of the two sets of [A] shows in no query: every query, on
    every key, returns what it returned before the call. (The call may
    have created the records of [A] and [D].) *)
Theorem replaceModule_none (g : ModuleGraph) (A D : ModuleId) (pred : Filter)
    (q : Query) :
  (∀ c, c ∈ outgoing g A ∨ c ∈ incoming g A → pred c (deref g c) = false) →
  (query q (replaceModule A D pred g)).2 = (query q g).2.
Proof.
  intros Hrej. destruct (decide (A = D)) as [-> | Hne].
  { unfold replaceModule. by rewrite decide_True. }
  set (g2 := (_getModuleGraphModule D (_getModuleGraphModule A g).1).1).
  assert (same_view g2 g) as Hview.
  { unfold g2. split; intros; autorewrite with mg; try done.
    rewrite !meta_of_lookup.
    destruct (get_mgm_rest D (_getModuleGraphModule A g).1) as (_ & -> & _).
    by destruct (get_mgm_rest A g) as (_ & -> & _). }
  assert (replaceModule A D pred g = g2) as ->.
  { rewrite replaceModule_unfold by done. fold g2.
    rewrite (foldl_loop_step_rejected _ _ _ _ _ g2 (outgoing g A)).
    - apply foldl_loop_step_rejected. intros c Hc.
      unfold deref. rewrite (view_heap _ _ Hview). apply Hrej. by right.
    - intros c Hc. unfold deref. rewrite (view_heap _ _ Hview). apply Hrej. by left. }
  rewrite !query_answer. by apply answer_of_view.
Qed.

Lemma replaceModule_none_witness :
  (query (QIncomingConnections 5)
     (replaceModule 5 6 (λ _ _, false) (run example_ops new_ModuleGraph))).2
  = (query (QIncomingConnections 5) (run example_ops new_ModuleGraph)).2.
Proof.
  apply (replaceModule_none (run example_ops new_ModuleGraph) 5 6 (λ _ _, false)
           (QIncomingConnections 5)).
  reflexivity.
Defined.
End module_graph_replace_all.

(** * Explanations *)
Section module_graph_explanations.
Import ModuleGraphJs.
Implicit Types (g : ModuleGraph) (m k : ModuleId) (d : DependencyId) (c : ConnRef).

(** X11. For a dependency with a connection, [addExplanation(d, s)]
    returns and hands [s] to the connection of [d]; it writes no other
    connection object, no set and no record, so that every query of the
    graph, on every key, returns what it returned before the call. *)
Theorem addExplanation_effect (ops : list Op) (d : DependencyId) (s : string)
    (c : ConnRef) :
  let g := run ops new_ModuleGraph in
  (getConnection d g).2 = val c →
  let g' := (addExplanation d s g).1 in
  (addExplanation d s g).2 = Returned () ∧
  deref g' c = connection_addExplanation s (deref g c) ∧
  (∀ c', c' ≠ c → deref g' c' = deref g c') ∧
  (∀ q, (query q g').2 = (query q g).2).
Proof.
  intros g. rewrite getConnection_result.
  destruct (connection (dependency_record_of g d)) as [c0 |] eqn:Hconn; [| done].
  intros [= ->] g'.
  pose proof (consistent_run ops _ consistent_new) as Hg. fold g in Hg.
  pose proof (consistent_dependencies g Hg d c Hconn) as Hlt.
  assert (addExplanation d s g
          = (mutate c (connection_addExplanation s) (_getModuleGraphDependency d g).1,
             Returned ())) as Heq.
  { rewrite addExplanation_unfold. simpl. by rewrite Hconn. }
  unfold g'. rewrite Heq. simpl.
  assert (∀ c', deref (mutate c (connection_addExplanation s)
                         (_getModuleGraphDependency d g).1) c'
                = if decide (c' = c) then connection_addExplanation s (deref g c)
                  else deref g c') as Hderef.
  { intros c'. unfold deref, mutate. simpl. rewrite heap_get_mgd.
    destruct (decide (c' = c)) as [-> | Hne].
    - by rewrite list_lookup_total_insert_eq.
    - by rewrite list_lookup_total_insert_ne. }
  split_and!; [done | | |].
  - by rewrite Hderef, decide_True.
  - intros c' Hc'. by rewrite Hderef, decide_False.
  - intros q. rewrite !query_answer. unfold answer_of, incoming, outgoing.
    destruct q as [x | x | x | x | x | x | x | x | x | x | x | x | x];
      autorewrite with mg; try done;
      try (destruct (connection (dependency_record_of g x)) as [c1 |]; [| done];
           rewrite Hderef; by case_decide; subst).
    rewrite !meta_of_lookup. simpl.
    by destruct (get_mgd_rest d g) as (_ & -> & _).
Qed.

Lemma addExplanation_effect_witness :
  let g := run example_ops new_ModuleGraph in
  let g' := (addExplanation 7 "why" g).1 in
  (addExplanation 7 "why" g).2 = Returned () ∧
  deref g' 0 = connection_addExplanation "why" (deref g 0) ∧
  (∀ c', c' ≠ 0 → deref g' c' = deref g c') ∧
  (∀ q, (query q g').2 = (query q g).2).
Proof.
  intros g.
  exact (addExplanation_effect example_ops 7 "why" 0 ltac:(vm_compute; reflexivity)).
Defined.
End module_graph_explanations.

(** * The groups of a chunk *)
Section chunk_groups.
Import ChunkJs.
Implicit Types (H : Store) (this c : ChunkRef) (g : GroupRef).

Lemma chunk_with_chunk this f H c :
  is_Some (chunk_objects H !! this) →
  chunk (with_chunk this f H) c = if decide (c = this) then f (chunk H this) else chunk H c.
Proof.
  intros [x Hx]. unfold chunk, with_chunk. simpl.
  case_decide as Hc.
  - subst c. rewrite !lookup_total_alt, lookup_alter_eq, Hx. done.
  - rewrite !lookup_total_alt, lookup_alter_ne by done. done.
Qed.

Lemma is_Some_with_chunk this f H c :
  is_Some (chunk_objects (with_chunk this f H) !! c) ↔ is_Some (chunk_objects H !! c).
Proof.
  unfold with_chunk. simpl. destruct (decide (this = c)) as [-> | Hne].
  - rewrite lookup_alter_eq. by rewrite fmap_is_Some.
  - by rewrite lookup_alter_ne.
Qed.

Lemma addGroup_groups this g H :
  is_Some (chunk_objects H !! this) →
  groupsIterable (addGroup this g H).1 this = JsSet.add g (groupsIterable H this).
Proof.
  intros Hthis. unfold addGroup, groupsIterable.
  destruct (JsSet.has g (_groups (chunk H this))) eqn:Hhas; simpl.
  - symmetry. by apply add_present, has_true.
  - rewrite chunk_with_chunk, decide_True by done. done.
Qed.

Lemma addGroup_other this g H c :
  c ≠ this → chunk (addGroup this g H).1 c = chunk H c.
Proof.
  intros Hc. unfold addGroup. destruct (JsSet.has g _); simpl; [done |].
  unfold chunk, with_chunk. simpl. by rewrite !lookup_total_alt, lookup_alter_ne.
Qed.

Lemma addGroup_group_objects this g H :
  group_objects (addGroup this g H).1 = group_objects H.
Proof. unfold addGroup. by destruct (JsSet.has g _). Qed.

Lemma addGroup_is_Some this g H c :
  is_Some (chunk_objects (addGroup this g H).1 !! c) ↔ is_Some (chunk_objects H !! c).
Proof.
  unfold addGroup. destruct (JsSet.has g _); simpl; [done |].
  apply is_Some_with_chunk.
Qed.

Lemma has_false {A} `{EqDecision A} (x : A) (s : list A) : JsSet.has x s = false ↔ x ∉ s.
Proof. unfold JsSet.has. apply bool_decide_eq_false. Qed.

Lemma set_groups_back g (x : Chunk) :
  g ∉ _groups x → set_groups (JsSet.delete g) (set_groups (JsSet.add g) x) = x.
Proof. intros Hg. destruct x. unfold set_groups. simpl in *. f_equal. by apply delete_add_fresh. Qed.

(** X12. [addGroup(g)] returns whether the chunk was not yet in [g];
    afterwards the chunk is in [g], which when it was added is the last
    of its groups, and the number of groups went up by one, or by none.
    A second [addGroup(g)] returns [false] and changes nothing;
    [removeGroup(g)] after an [addGroup(g)] that returned [true] gives
    back the state before. The call writes the group set of the chunk
    only: the other chunks and all the groups, [g] included, are as they
    were. *)
Theorem addGroup_laws (H : Store) (this : ChunkRef) (g : GroupRef) :
  is_Some (chunk_objects H !! this) →
  let H1 := (addGroup this g H).1 in
  (addGroup this g H).2 = negb (isInGroup this g H) ∧
  isInGroup this g H1 = true ∧
  groupsIterable H1 this
  = (if isInGroup this g H then groupsIterable H this else groupsIterable H this ++ [g]) ∧
  getNumberOfGroups this H1
  = getNumberOfGroups this H + (if isInGroup this g H then 0 else 1) ∧
  addGroup this g H1 = (H1, false) ∧
  (isInGroup this g H = false → removeGroup this g H1 = (H, true)) ∧
  (∀ c, c ≠ this → chunk H1 c = chunk H c) ∧
  group_objects H1 = group_objects H.
Proof.
  intros Hthis H1.
  assert (groupsIterable H1 this
          = if isInGroup this g H then groupsIterable H this
            else groupsIterable H this ++ [g]) as Hgroups.
  { unfold H1. rewrite addGroup_groups by done. unfold isInGroup.
    destruct (JsSet.has g (_groups (chunk H this))) eqn:Hhas.
    - by apply add_present, has_true.
    - by apply add_absent, has_false. }
  assert (isInGroup this g H1 = true) as Hin1.
  { unfold isInGroup. fold (groupsIterable H1 this). rewrite Hgroups.
    apply has_true. destruct (isInGroup this g H) eqn:Hin.
    - by apply has_true.
    - apply elem_of_app. right. by apply list_elem_of_singleton. }
  split_and!.
  - unfold addGroup, isInGroup. by destruct (JsSet.has g _).
  - done.
  - done.
  - unfold getNumberOfGroups. fold (groupsIterable H1 this). rewrite Hgroups.
    fold (groupsIterable H this).
    destruct (isInGroup this g H); [lia |]. rewrite length_app. simpl. lia.
  - unfold isInGroup in Hin1. unfold addGroup at 1. by rewrite Hin1.
  - intros Hout. unfold removeGroup. unfold isInGroup in Hin1. rewrite Hin1. simpl.
    f_equal. unfold H1, addGroup. unfold isInGroup in Hout. rewrite Hout. simpl.
    destruct H as [cs gs]. unfold with_chunk. simpl. f_equal.
    rewrite alter_alter_eq. apply alter_id. intros x Hx. simpl.
    apply set_groups_back. apply has_false in Hout.
    unfold chunk in Hout. simpl in Hout.
    by rewrite lookup_total_alt, Hx in Hout.
  - intros c Hc. by apply addGroup_other.
  - apply addGroup_group_objects.
Qed.

Lemma addGroup_laws_witness :
  let H1 := (addGroup 2 0 example_store).1 in
  (addGroup 2 0 example_store).2 = negb (isInGroup 2 0 example_store) ∧
  isInGroup 2 0 H1 = true ∧
  groupsIterable H1 2
  = (if isInGroup 2 0 example_store then groupsIterable example_store 2
     else groupsIterable example_store 2 ++ [0]) ∧
  getNumberOfGroups 2 H1
  = getNumberOfGroups 2 example_store + (if isInGroup 2 0 example_store then 0 else 1) ∧
  addGroup 2 0 H1 = (H1, false) ∧
  (isInGroup 2 0 example_store = false → removeGroup 2 0 H1 = (example_store, true)) ∧
  (∀ c, c ≠ 2 → chunk H1 c = chunk example_store c) ∧
  group_objects H1 = group_objects example_store.
Proof.
  apply (addGroup_laws example_store 2 0).
  vm_compute. eexists. reflexivity.
Defined.

(** X13. [removeGroup(g)] returns whether the chunk was in [g];
    afterwards the chunk is not in [g], its other groups keep their
    order, and a second [removeGroup(g)] returns [false] and changes
    nothing. [addGroup(g)] after it does not give back the order: [g] is
    then the last of the groups. The call writes the group set of the
    chunk only: the member list of [g] still holds the chunk if it held
    it. *)
Theorem removeGroup_laws (H : Store) (this : ChunkRef) (g : GroupRef) :
  is_Some (chunk_objects H !! this) →
  let H1 := (removeGroup this g H).1 in
  (removeGroup this g H).2 = isInGroup this g H ∧
  isInGroup this g H1 = false ∧
  groupsIterable H1 this = filter (λ x, x ≠ g) (groupsIterable H this) ∧
  removeGroup this g H1 = (H1, false) ∧
  groupsIterable (addGroup this g H1).1 this
  = filter (λ x, x ≠ g) (groupsIterable H this) ++ [g] ∧
  (∀ c, c ≠ this → chunk H1 c = chunk H c) ∧
  group_objects H1 = group_objects H.
Proof.
  intros Hthis H1.
  assert (groupsIterable H1 this = filter (λ x, x ≠ g) (groupsIterable H this)) as Hgroups.
  { unfold H1, removeGroup, groupsIterable.
    destruct (JsSet.has g (_groups (chunk H this))) eqn:Hhas; simpl.
    - rewrite chunk_with_chunk, decide_True by done. done.
    - symmetry. apply has_false in Hhas. by apply delete_absent. }
  assert (g ∉ groupsIterable H1 this) as Hout.
  { rewrite Hgroups, list_elem_of_filter. by intros [? _]. }
  assert (isInGroup this g H1 = false) as Hin1 by (by apply has_false).
  assert (is_Some (chunk_objects H1 !! this)) as Hthis1.
  { unfold H1, removeGroup. destruct (negb _); simpl; [done |].
    by apply is_Some_with_chunk. }
  split_and!.
  - unfold removeGroup, isInGroup. by destruct (JsSet.has g _).
  - done.
  - done.
  - unfold isInGroup in Hin1. unfold removeGroup at 1. by rewrite Hin1.
  - rewrite addGroup_groups by done. rewrite add_absent by done. by rewrite Hgroups.
  - intros c Hc. unfold H1, removeGroup. destruct (negb _); simpl; [done |].
    unfold chunk, with_chunk. simpl. by rewrite !lookup_total_alt, lookup_alter_ne.
  - unfold H1, removeGroup. by destruct (negb _).
Qed.

Lemma removeGroup_laws_witness :
  let H1 := (removeGroup 0 0 example_store).1 in
  (removeGroup 0 0 example_store).2 = isInGroup 0 0 example_store ∧
  isInGroup 0 0 H1 = false ∧
  groupsIterable H1 0 = filter (λ x, x ≠ 0) (groupsIterable example_store 0) ∧
  removeGroup 0 0 H1 = (H1, false) ∧
  groupsIterable (addGroup 0 0 H1).1 0
  = filter (λ x, x ≠ 0) (groupsIterable example_store 0) ++ [0] ∧
  (∀ c, c ≠ 0 → chunk H1 c = chunk example_store c) ∧
  group_objects H1 = group_objects example_store.
Proof.
  apply (removeGroup_laws example_store 0 0).
  vm_compute. eexists. reflexivity.
Defined.
End chunk_groups.

(** * The kind of the groups of a chunk *)
Section chunk_kinds.
Import ChunkJs.
Implicit Types (H : Store) (this c : ChunkRef) (g : GroupRef).
Context (isInitial isEntrypoint : GroupRef → bool) (getRuntimeChunk : GroupRef → ChunkRef).

Lemma canBeInitial_loop_spec (groups : list GroupRef) :
  canBeInitial_loop isInitial groups = true ↔ ∃ g, g ∈ groups ∧ isInitial g = true.
Proof.
  induction groups as [| x groups IH]; simpl.
  - split; [done | intros (g & Hg & _); by apply elem_of_nil in Hg].
  - destruct (isInitial x) eqn:Hx.
    + split; [intros _; exists x; split; [left | done] | done].
    + rewrite IH. split.
      * intros (g & Hg & Hi). exists g. split; [by right | done].
      * intros (g & Hg & Hi). apply elem_of_cons in Hg as [-> | Hg]; [congruence |].
        by exists g.
Qed.

Lemma isOnlyInitial_loop_spec (groups : list GroupRef) :
  isOnlyInitial_loop isInitial groups = true ↔ ∀ g, g ∈ groups → isInitial g = true.
Proof.
  induction groups as [| x groups IH]; simpl.
  - split; [intros _ g Hg; by apply elem_of_nil in Hg | done].
  - destruct (isInitial x) eqn:Hx; simpl.
    + rewrite IH. split.
      * intros Hall g Hg. apply elem_of_cons in Hg as [-> | Hg]; [done | by apply Hall].
      * intros Hall g Hg. apply Hall. by right.
    + split; [done |]. intros Hall. rewrite <- Hx. apply Hall. left.
Qed.

(** X14. [canBeInitial()] holds when some group of the chunk is initial,
    [isOnlyInitial()] when the chunk has a group and all its groups are
    initial, and [hasRuntime()] when the first group of the chunk, in the
    order of the set, is an initial entrypoint whose runtime chunk the
    chunk is: the groups after the first do not count. So
    [isOnlyInitial()] and [hasRuntime()] each imply [canBeInitial()], and
    a chunk without groups passes none of the three tests. *)
Theorem initial_tests (H : Store) (this : ChunkRef) :
  let groups := groupsIterable H this in
  (canBeInitial isInitial H this = true ↔ ∃ g, g ∈ groups ∧ isInitial g = true) ∧
  (isOnlyInitial isInitial H this = true ↔
   groups ≠ [] ∧ ∀ g, g ∈ groups → isInitial g = true) ∧
  (hasRuntime isInitial isEntrypoint getRuntimeChunk H this = true ↔
   ∃ g, head groups = Some g ∧ isInitial g = true ∧ isEntrypoint g = true ∧
        getRuntimeChunk g = this) ∧
  (isOnlyInitial isInitial H this = true → canBeInitial isInitial H this = true) ∧
  (hasRuntime isInitial isEntrypoint getRuntimeChunk H this = true →
   canBeInitial isInitial H this = true) ∧
  (groups = [] →
   canBeInitial isInitial H this = false ∧ isOnlyInitial isInitial H this = false ∧
   hasRuntime isInitial isEntrypoint getRuntimeChunk H this = false).
Proof.
  intros groups.
  assert (canBeInitial isInitial H this = true ↔ ∃ g, g ∈ groups ∧ isInitial g = true)
    as Hcan by apply canBeInitial_loop_spec.
  assert (isOnlyInitial isInitial H this = true ↔
          groups ≠ [] ∧ ∀ g, g ∈ groups → isInitial g = true) as Honly.
  { unfold isOnlyInitial. fold groups. case_decide as Hlen.
    - split; [done |]. intros [Hne _]. destruct groups; [done | simpl in Hlen; lia].
    - rewrite isOnlyInitial_loop_spec. split; [| by intros [_ ?]].
      intros Hall. split; [| done]. intros Hnil. rewrite Hnil in Hlen. simpl in Hlen. lia. }
  assert (hasRuntime isInitial isEntrypoint getRuntimeChunk H this = true ↔
          ∃ g, head groups = Some g ∧ isInitial g = true ∧ isEntrypoint g = true ∧
               getRuntimeChunk g = this) as Hrun.
  { unfold hasRuntime. fold groups. destruct groups as [| x rest]; simpl.
    - split; [done | by intros (g & Hg & _)].
    - rewrite !andb_true_iff, bool_decide_eq_true. split.
      + intros [[Hi He] Hr]. by exists x.
      + intros (g & [= <-] & Hi & He & Hr). done. }
  split_and!; try done.
  - rewrite Honly, Hcan. intros [Hne Hall].
    destruct groups as [| x rest]; [done |]. exists x. split; [left | apply Hall; left].
  - rewrite Hrun, Hcan. intros (g & Hhead & Hi & _). exists g. split; [| done].
    destruct groups as [| x rest]; [done |]. injection Hhead as ->. left.
  - intros Hnil. unfold canBeInitial, isOnlyInitial, hasRuntime. fold groups.
    by rewrite Hnil.
Qed.

(** X15. A chunk that has a group keeps its answer to [hasRuntime()]
    whatever group [addGroup] adds, the added group coming last;
    [addGroup] of an initial group makes [canBeInitial()] hold, and
    [addGroup] of a group that is not initial makes [isOnlyInitial()]
    fail unless the chunk was already in the group. *)
Theorem addGroup_initial_tests (H : Store) (this : ChunkRef) (g : GroupRef) :
  is_Some (chunk_objects H !! this) →
  let H1 := (addGroup this g H).1 in
  (groupsIterable H this ≠ [] →
   hasRuntime isInitial isEntrypoint getRuntimeChunk H1 this
   = hasRuntime isInitial isEntrypoint getRuntimeChunk H this) ∧
  (isInitial g = true → canBeInitial isInitial H1 this = true) ∧
  (canBeInitial isInitial H this = true → canBeInitial isInitial H1 this = true) ∧
  (isInitial g = false → isOnlyInitial isInitial H1 this = false).
Proof.
  intros Hthis H1.
  assert (groupsIterable H1 this = JsSet.add g (groupsIterable H this)) as Hgroups
    by (by apply addGroup_groups).
  assert (∀ x, x ∈ groupsIterable H1 this ↔ x = g ∨ x ∈ groupsIterable H this) as Hmem.
  { intros x. rewrite Hgroups. apply elem_of_add. }
  split_and!.
  - intros Hne. unfold hasRuntime. rewrite Hgroups. unfold JsSet.add.
    case_decide; [done |]. by destruct (groupsIterable H this).
  - intros Hg. apply canBeInitial_loop_spec. exists g. split; [| done].
    apply Hmem. by left.
  - unfold canBeInitial. rewrite !canBeInitial_loop_spec.
    intros (x & Hx & Hi). exists x. split; [| done]. apply Hmem. by right.
  - intros Hg. destruct (isOnlyInitial isInitial H1 this) eqn:Honly; [| done].
    unfold isOnlyInitial in Honly. case_decide; [done |].
    apply isOnlyInitial_loop_spec with (g := g) in Honly; [congruence |].
    apply Hmem. by left.
Qed.

End chunk_kinds.

Lemma addGroup_initial_tests_witness :
  let isInitial := λ g : ChunkJs.GroupRef, bool_decide (g = 0) in
  let isEntrypoint := λ g : ChunkJs.GroupRef, bool_decide (g = 0) in
  let getRuntimeChunk := λ _ : ChunkJs.GroupRef, 0 in
  let H1 := (ChunkJs.addGroup 2 0 ChunkJs.example_store).1 in
  (ChunkJs.groupsIterable ChunkJs.example_store 2 ≠ [] →
   ChunkJs.hasRuntime isInitial isEntrypoint getRuntimeChunk H1 2
   = ChunkJs.hasRuntime isInitial isEntrypoint getRuntimeChunk ChunkJs.example_store 2) ∧
  (isInitial 0 = true → ChunkJs.canBeInitial isInitial H1 2 = true) ∧
  (ChunkJs.canBeInitial isInitial ChunkJs.example_store 2 = true →
   ChunkJs.canBeInitial isInitial H1 2 = true) ∧
  (isInitial 0 = false → ChunkJs.isOnlyInitial isInitial H1 2 = false).
Proof.
  intros isInitial isEntrypoint getRuntimeChunk.
  apply (addGroup_initial_tests isInitial isEntrypoint getRuntimeChunk
           ChunkJs.example_store 2 0).
  vm_compute. eexists. reflexivity.
Defined.

(** * Splitting a chunk *)
Section chunk_split.
Import ChunkJs.
Implicit Types (H : Store) (this c : ChunkRef) (g : GroupRef).
Context (insertChunk : ChunkGroup → ChunkRef → ChunkRef → option ChunkGroup).

Lemma group_with_group g f H g' :
  g' ≠ g → group (with_group g f H) g' = group H g'.
Proof.
  intros Hne. unfold group, with_group. simpl.
  by rewrite !lookup_total_alt, lookup_alter_ne.
Qed.

Lemma split_loop_spec this newChunk groups : ∀ H,
  is_Some (chunk_objects H !! newChunk) →
  ∃ visited,
    visited `prefix_of` groups ∧
    ((split_loop insertChunk this newChunk groups H).2 = true → visited = groups) ∧
    groupsIterable (split_loop insertChunk this newChunk groups H).1 newChunk
    = JsSet.add_all visited (groupsIterable H newChunk) ∧
    (∀ c, c ≠ newChunk →
          chunk (split_loop insertChunk this newChunk groups H).1 c = chunk H c) ∧
    (∀ g, g ∉ groups →
          group (split_loop insertChunk this newChunk groups H).1 g = group H g).
Proof.
  induction groups as [| x groups IH]; intros H Hnew; simpl.
  - exists []. split_and!; done.
  - destruct (insertChunk (group H x) newChunk this) as [r |] eqn:Hins; simpl.
    + set (H1 := with_group x (λ _, r) H).
      assert (is_Some (chunk_objects (addGroup newChunk x H1).1 !! newChunk)) as Hnew1
        by (by apply addGroup_is_Some).
      destruct (IH _ Hnew1) as (visited & Hpre & Hall & Hgroups & Hchunks & Hothers).
      exists (x :: visited). split_and!.
      * by apply prefix_cons.
      * intros Hret. by rewrite Hall.
      * rewrite Hgroups. rewrite addGroup_groups by done. done.
      * intros c Hc. rewrite Hchunks by done. by rewrite addGroup_other.
      * intros g Hg. apply not_elem_of_cons in Hg as [Hgx Hg].
        rewrite Hothers by done. unfold group. rewrite addGroup_group_objects.
        by apply group_with_group.
    + exists []. split_and!; try done. apply prefix_nil.
Qed.

Lemma split_loop_returns this newChunk groups : ∀ H,
  (∀ r, is_Some (insertChunk r newChunk this)) →
  (split_loop insertChunk this newChunk groups H).2 = true.
Proof.
  induction groups as [| x groups IH]; intros H Hins; simpl; [done |].
  destruct (Hins (group H x)) as [r ->]. by apply IH.
Qed.

(** The groups the loop has not reached yet are as they were before the
    call, so the loop comes to its end when [insertChunk] returns on
    each group of the chunk as the call finds it. *)
Lemma split_loop_completes this newChunk groups : ∀ H,
  NoDup groups →
  (∀ g, g ∈ groups → is_Some (insertChunk (group H g) newChunk this)) →
  (split_loop insertChunk this newChunk groups H).2 = true.
Proof.
  induction groups as [| x groups IH]; intros H Hnd Hins; simpl; [done |].
  apply NoDup_cons in Hnd as [Hx Hnd].
  destruct (Hins x ltac:(left)) as [r ->].
  apply IH; [done |]. intros g Hg.
  assert (g ≠ x) as Hne by (intros ->; done).
  unfold group at 1. rewrite addGroup_group_objects.
  fold (group (with_group x (λ _, r) H) g). rewrite group_with_group by done.
  apply Hins. by right.
Qed.

(** X16. When [split(newChunk)] comes to its end, the groups of
    [newChunk] are the ones it had, in their order, followed by the
    groups of the chunk it was not in, so that [newChunk] is in every
    group of the chunk. Whether or not a call of [insertChunk] raised on
    the way, [newChunk] has lost no group, no other chunk has changed
    (the chunk that is split included), and no group but those of the
    chunk has changed. [split] comes to its end when [insertChunk]
    returns on each group of the chunk as it is before the call (for an
    [insertChunk] that raises when the chunk is no member of the group:
    when every group of the chunk lists the chunk). *)
Theorem split_groups (H : Store) (this newChunk : ChunkRef) :
  is_Some (chunk_objects H !! newChunk) →
  let R := split insertChunk this newChunk H in
  (R.2 = true →
   groupsIterable R.1 newChunk
   = JsSet.add_all (groupsIterable H this) (groupsIterable H newChunk) ∧
   ∀ g, isInGroup this g H = true → isInGroup newChunk g R.1 = true) ∧
  groupsIterable H newChunk `prefix_of` groupsIterable R.1 newChunk ∧
  (∀ c, c ≠ newChunk → chunk R.1 c = chunk H c) ∧
  (∀ g, g ∉ groupsIterable H this → group R.1 g = group H g) ∧
  ((∀ r, is_Some (insertChunk r newChunk this)) → R.2 = true) ∧
  (NoDup (groupsIterable H this) →
   (∀ g, g ∈ groupsIterable H this →
         is_Some (insertChunk (group H g) newChunk this)) →
   R.2 = true).
Proof.
  intros Hnew R.
  destruct (split_loop_spec this newChunk (groupsIterable H this) H Hnew)
    as (visited & Hpre & Hall & Hgroups & Hchunks & Hothers).
  fold (split insertChunk this newChunk H) in Hall, Hgroups, Hchunks, Hothers.
  fold R in Hall, Hgroups, Hchunks, Hothers.
  split_and!.
  - intros Hret. rewrite Hgroups, (Hall Hret). split; [done |].
    intros g Hg. unfold isInGroup in *. fold (groupsIterable R.1 newChunk).
    rewrite Hgroups, (Hall Hret). apply has_true, elem_of_add_all. left.
    by apply has_true in Hg.
  - rewrite Hgroups. apply add_all_prefix.
  - done.
  - done.
  - intros Hins. by apply split_loop_returns.
  - intros Hnd Hins. by apply split_loop_completes.
Qed.
End chunk_split.

Lemma split_groups_witness :
  let R := ChunkJs.split ChunkJs.insert_before 0 2 ChunkJs.example_store in
  R.2 = true ∧
  ChunkJs.groupsIterable R.1 2
  = JsSet.add_all (ChunkJs.groupsIterable ChunkJs.example_store 0)
                  (ChunkJs.groupsIterable ChunkJs.example_store 2) ∧
  (∀ g, ChunkJs.isInGroup 0 g ChunkJs.example_store = true →
        ChunkJs.isInGroup 2 g R.1 = true) ∧
  (∀ c, c ≠ 2 → ChunkJs.chunk R.1 c = ChunkJs.chunk ChunkJs.example_store c).
Proof.
  intros R.
  destruct (split_groups ChunkJs.insert_before ChunkJs.example_store 0 2)
    as (Hend & _ & Hchunks & _ & _ & Hcompletes).
  { vm_compute. eexists. reflexivity. }
  fold R in Hend, Hchunks, Hcompletes.
  assert (R.2 = true) as Hreturned.
  { apply Hcompletes.
    - apply (bool_decide_unpack _). vm_compute. exact I.
    - intros g Hg.
      assert (g = 0 ∨ g = 1) as [-> | ->].
      { revert Hg. change (ChunkJs.groupsIterable ChunkJs.example_store 0) with [0; 1].
        rewrite !elem_of_cons, elem_of_nil. tauto. }
      + vm_compute. eexists. reflexivity.
      + vm_compute. eexists. reflexivity. }
  destruct (Hend Hreturned) as [Hgroups Hin].
  split_and!; done.
Defined.

(** * Building chunks *)
Section chunk_constructor.
Import ChunkJs.

Lemma construct_all_snoc names name :
  construct_all (names ++ [name])
  = ((construct_all names).1 ++ [new_Chunk name (construct_all names).2],
     S (construct_all names).2).
Proof. unfold construct_all. by rewrite foldl_snoc. Qed.

Lemma construct_all_spec names :
  (construct_all names).2 = first_debugId + length names ∧
  (construct_all names).1 = imap (λ i name, new_Chunk name (first_debugId + i)) names.
Proof.
  induction names as [| name names [IHn IHc]] using rev_ind; [done |].
  rewrite construct_all_snoc. simpl. rewrite IHn, IHc.
  rewrite length_app, imap_app. simpl. rewrite Nat.add_0_r.
  split; [lia | done].
Qed.

(** X17. The chunks built one after the other get the debug ids 1000,
    1001, 1002 and so on, each its own: no two chunks share a debug id.
    Every chunk starts with the name it was given, without an id and in
    no group. *)
Theorem debugId_unique (names : list (js string)) :
  let built := (construct_all names).1 in
  length built = length names ∧
  (∀ i c, built !! i = Some c →
          debugId c = 1000 + i ∧ names !! i = Some (name c) ∧
          id c = IdNull ∧ _groups c = []) ∧
  NoDup (debugId <$> built) ∧
  (construct_all names).2 = 1000 + length names.
Proof.
  intros built. destruct (construct_all_spec names) as [Hn Hc].
  assert (∀ i c, built !! i = Some c →
                 debugId c = 1000 + i ∧ names !! i = Some (name c) ∧
                 id c = IdNull ∧ _groups c = []) as Hat.
  { intros i c Hi. unfold built in Hi. rewrite Hc, list_lookup_imap in Hi.
    destruct (names !! i) as [nm |]; [| done]. injection Hi as <-. done. }
  split_and!.
  - unfold built. by rewrite Hc, length_imap.
  - done.
  - apply NoDup_alt. intros i j x Hi Hj.
    apply list_lookup_fmap_Some in Hi as (ci & -> & Hci).
    apply list_lookup_fmap_Some in Hj as (cj & Heq & Hcj).
    destruct (Hat i ci Hci) as [Hdi _]. destruct (Hat j cj Hcj) as [Hdj _]. lia.
  - done.
Qed.
End chunk_constructor.

(** * The maps over the async chunks *)
Section last_writes.
Import ChunkJs.
Context {K V : Type} `{Countable K}.
Implicit Types (writes : list (K * V)) (k : K).

Lemma last_write_app k writes writes' :
  last_write k (writes ++ writes')
  = match last_write k writes' with
    | Some v => Some v
    | None => last_write k writes
    end.
Proof.
  unfold last_write. rewrite filter_app, last_app.
  by destruct (last (filter _ writes')).
Qed.

Lemma last_write_singleton k k' (v : V) :
  last_write k [(k', v)] = if decide (k' = k) then Some v else None.
Proof.
  unfold last_write. rewrite filter_cons. simpl.
  by case_decide.
Qed.

Lemma last_write_Some k writes v :
  last_write k writes = Some v → (k, v) ∈ writes.
Proof.
  unfold last_write. intros Hlast.
  apply fmap_Some in Hlast as ([k' v'] & Hlast & ->).
  apply last_Some_elem_of, list_elem_of_filter in Hlast as [Hk Hin].
  simpl in Hk. by subst k'.
Qed.

Lemma foldl_insert_last_write writes (m : gmap K V) k :
  foldl (λ m kv, <[kv.1 := kv.2]> m) m writes !! k
  = match last_write k writes with
    | Some v => Some v
    | None => m !! k
    end.
Proof.
  induction writes as [| [k' v] writes IH] using rev_ind; [done |].
  rewrite foldl_snoc, last_write_app, last_write_singleton. simpl.
  destruct (decide (k' = k)) as [-> | Hne].
  - by rewrite lookup_insert_eq.
  - by rewrite lookup_insert_ne.
Qed.

(** Where every element of a list writes under its own key only, and no
    two elements share a key, what is left under the key of an element
    is what the element wrote. *)
Lemma last_write_bind_unique {A K'} (π : K → K') (key : A → K')
    (F : A → list (K * V)) (l : list A) a k :
  NoDup (key <$> l) → a ∈ l →
  (∀ x kv, kv ∈ F x → π kv.1 = key x) → π k = key a →
  last_write k (l ≫= F) = last_write k (F a).
Proof.
  intros Hnd Ha Hkeys Hk.
  assert (∀ x, key x ≠ key a → last_write k (F x) = None) as Hother.
  { intros x Hx. destruct (last_write k (F x)) as [v |] eqn:Hlast; [| done].
    apply last_write_Some, Hkeys in Hlast. simpl in Hlast. congruence. }
  induction l as [| x l IH]; [by apply elem_of_nil in Ha |].
  rewrite fmap_cons in Hnd. apply NoDup_cons in Hnd as [Hx Hnd].
  rewrite bind_cons, last_write_app.
  apply elem_of_cons in Ha as [-> | Ha].
  - assert (last_write k (l ≫= F) = None) as ->; [| done].
    destruct (last_write k (l ≫= F)) as [v |] eqn:Hlast; [| done].
    apply last_write_Some, list_elem_of_bind in Hlast as (y & Hin & Hy).
    apply Hkeys in Hin. simpl in Hin. exfalso. apply Hx.
    apply list_elem_of_fmap. exists y. split; [congruence | done].
  - rewrite IH by done. destruct (last_write k (F a)) as [v |] eqn:Hlast; [done |].
    apply Hother. intros Heq. apply Hx. rewrite Heq.
    apply list_elem_of_fmap. by exists a.
Qed.
End last_writes.

Section nested_writes.
Import ChunkJs.
Context {V : Type}.
Implicit Types (obj : gmap string (gmap string V)).

Lemma nested_get_set key k (v : V) obj key' k' :
  nested_get key' k' (nested_set key k v obj)
  = if decide ((key, k) = (key', k')) then Some v else nested_get key' k' obj.
Proof.
  unfold nested_get, nested_set.
  destruct (decide (key = key')) as [-> | Hkey].
  - rewrite lookup_insert_eq. simpl.
    destruct (decide (k = k')) as [-> | Hk].
    + by rewrite lookup_insert_eq, decide_True.
    + rewrite lookup_insert_ne, decide_False by congruence.
      destruct (obj !! key'); [done | simpl; apply lookup_empty].
  - rewrite lookup_insert_ne, decide_False by congruence. done.
Qed.

Lemma foldl_nested_last_write (writes : list ((string * string) * V)) obj key k :
  nested_get key k (foldl (λ obj w, nested_set w.1.1 w.1.2 w.2 obj) obj writes)
  = match last_write (key, k) writes with
    | Some v => Some v
    | None => nested_get key k obj
    end.
Proof.
  induction writes as [| [[key' k'] v] writes IH] using rev_ind; [done |].
  rewrite foldl_snoc, last_write_app, last_write_singleton. simpl.
  rewrite nested_get_set. by case_decide.
Qed.

(** [nested_set] makes no inner object without a key. *)
Lemma foldl_nested_inhabited (writes : list ((string * string) * V)) obj :
  (∀ key inner, obj !! key = Some inner → inner ≠ ∅) →
  ∀ key inner,
    foldl (λ obj w, nested_set w.1.1 w.1.2 w.2 obj) obj writes !! key = Some inner →
    inner ≠ ∅.
Proof.
  induction writes as [| [[key' k'] v] writes IH] using rev_ind; intros Hobj; [done |].
  rewrite foldl_snoc. simpl. intros key inner. unfold nested_set.
  destruct (decide (key' = key)) as [-> | Hne].
  - rewrite lookup_insert_eq. intros [= <-]. apply insert_non_empty.
  - rewrite lookup_insert_ne by done. by apply IH.
Qed.
End nested_writes.

Section chunk_maps.
Import ChunkJs.
Implicit Types (H : Store) (this c : ChunkRef) (g : GroupRef).
Context (Number_toString : Z → string).

Local Abbreviation property_key := (ChunkJs.property_key Number_toString).
Local Abbreviation getChunkMaps_step := (ChunkJs.getChunkMaps_step Number_toString).
Local Abbreviation getChunkMaps := (ChunkJs.getChunkMaps Number_toString).
Local Abbreviation hash_writes := (ChunkJs.hash_writes Number_toString).
Local Abbreviation name_writes := (ChunkJs.name_writes Number_toString).
Local Abbreviation contentHash_writes := (ChunkJs.contentHash_writes Number_toString).

Lemma maps_hash_foldl realHash H l maps :
  maps_hash (foldl (getChunkMaps_step realHash H) maps l)
  = foldl (λ m kv, <[kv.1 := kv.2]> m) (maps_hash maps) (hash_writes realHash H l).
Proof.
  revert maps. induction l as [| c l IH]; intros maps; [done |].
  unfold ChunkJs.hash_writes. rewrite bind_cons, foldl_app. simpl. by rewrite IH.
Qed.

Lemma maps_name_foldl realHash H l maps :
  maps_name (foldl (getChunkMaps_step realHash H) maps l)
  = foldl (λ m kv, <[kv.1 := kv.2]> m) (maps_name maps) (name_writes H l).
Proof.
  revert maps. induction l as [| c l IH]; intros maps; [done |].
  unfold ChunkJs.name_writes. rewrite bind_cons, foldl_app. simpl. rewrite IH. simpl.
  unfold truthy_name. destruct (name (chunk H c)) as [| | n]; try done.
  by case_decide.
Qed.

Lemma maps_contentHash_foldl realHash H l maps :
  maps_contentHash (foldl (getChunkMaps_step realHash H) maps l)
  = foldl (λ obj w, nested_set w.1.1 w.1.2 w.2 obj) (maps_contentHash maps)
          (contentHash_writes H l).
Proof.
  revert maps. induction l as [| c l IH]; intros maps; [done |].
  unfold ChunkJs.contentHash_writes. rewrite bind_cons, foldl_app. simpl. rewrite IH. simpl.
  by rewrite foldl_fmap.
Qed.

(** X18. [getChunkMaps(realHash)] returns, and under a property name
    each of its maps holds what the last async chunk whose id makes that
    name wrote there: the hash map the full or the rendered hash as
    [realHash] says, the name map the name of the chunks that have a
    non-empty one, the content hash map under a content type the hash of
    that type. Ids that make the same property name (the number [1] and
    the string ["1"], [null] and ["null"]) write the same entry. Every
    async chunk has an entry in the hash map, so every id in the name map
    is in the hash map; and when the ids of the async chunks make
    different property names, the entries of an async chunk are its own
    hash and its own name, and it has no name entry when its name is
    missing or empty. *)
Theorem getChunkMaps_last_write (fuel : nat) (realHash : bool) (H : Store)
    (this : ChunkRef) :
  length (all_children H) < fuel →
  ∃ async maps,
    getAllAsyncChunks fuel H this = Some async ∧
    getChunkMaps fuel realHash H this = Some maps ∧
    (∀ k, maps_hash maps !! k = last_write k (hash_writes realHash H async)) ∧
    (∀ k, maps_name maps !! k = last_write k (name_writes H async)) ∧
    (∀ t k, nested_get t k (maps_contentHash maps)
            = last_write (t, k) (contentHash_writes H async)) ∧
    (∀ c, c ∈ async → is_Some (maps_hash maps !! property_key (id (chunk H c)))) ∧
    (∀ k, is_Some (maps_name maps !! k) → is_Some (maps_hash maps !! k)) ∧
    (NoDup ((λ c, property_key (id (chunk H c))) <$> async) →
     ∀ c, c ∈ async →
          maps_hash maps !! property_key (id (chunk H c))
          = Some (if realHash then hash (chunk H c) else renderedHash (chunk H c)) ∧
          (∀ n, name (chunk H c) = val n → n ≠ ""%string →
                maps_name maps !! property_key (id (chunk H c)) = Some n) ∧
          (name (chunk H c) = undefined ∨ name (chunk H c) = null ∨
           name (chunk H c) = val ""%string →
           maps_name maps !! property_key (id (chunk H c)) = None)).
Proof.
  intros Hfuel. destruct (getAllAsyncChunks_returns H this fuel Hfuel) as [async Ha].
  exists async, (foldl (getChunkMaps_step realHash H) (mkChunkMaps ∅ ∅ ∅) async).
  assert (∀ k, maps_hash (foldl (getChunkMaps_step realHash H) (mkChunkMaps ∅ ∅ ∅) async)
               !! k = last_write k (hash_writes realHash H async)) as Hhash.
  { intros k. rewrite maps_hash_foldl, foldl_insert_last_write. simpl.
    rewrite lookup_empty. by destruct (last_write _ _). }
  assert (∀ k, maps_name (foldl (getChunkMaps_step realHash H) (mkChunkMaps ∅ ∅ ∅) async)
               !! k = last_write k (name_writes H async)) as Hname.
  { intros k. rewrite maps_name_foldl, foldl_insert_last_write. simpl.
    rewrite lookup_empty. by destruct (last_write _ _). }
  assert (∀ c, c ∈ async →
               is_Some (last_write (property_key (id (chunk H c)))
                                   (hash_writes realHash H async))) as Hevery.
  { intros c Hc. apply list_elem_of_split in Hc as (l1 & l2 & ->).
    unfold ChunkJs.hash_writes.
    rewrite bind_app, bind_cons, last_write_app, last_write_app.
    rewrite last_write_singleton, decide_True by done.
    by destruct (last_write _ (l2 ≫= _)). }
  assert (∀ x kv,
            kv ∈ match name (chunk H x) with
                 | val n => if decide (n = ""%string) then []
                            else [(property_key (id (chunk H x)), n)]
                 | _ => []
                 end →
            kv.1 = property_key (id (chunk H x))) as Hkeys.
  { intros x kv Hkv. destruct (name (chunk H x)) as [| | n];
      try (by apply elem_of_nil in Hkv).
    case_decide; [by apply elem_of_nil in Hkv |].
    by apply list_elem_of_singleton in Hkv as ->. }
  split_and!; try done.
  - unfold ChunkJs.getChunkMaps. by rewrite Ha.
  - intros t k. rewrite maps_contentHash_foldl, foldl_nested_last_write. simpl.
    by destruct (last_write _ _).
  - intros c Hc. rewrite Hhash. by apply Hevery.
  - intros k [n Hn]. rewrite Hname in Hn. rewrite Hhash.
    apply last_write_Some in Hn. unfold ChunkJs.name_writes in Hn.
    apply list_elem_of_bind in Hn as (c & Hin & Hc).
    apply Hkeys in Hin. simpl in Hin. subst k. by apply Hevery.
  - intros Hnd c Hc. rewrite Hhash, Hname.
    assert (last_write (property_key (id (chunk H c))) (name_writes H async)
            = last_write (property_key (id (chunk H c)))
                match name (chunk H c) with
                | val n => if decide (n = ""%string) then []
                           else [(property_key (id (chunk H c)), n)]
                | _ => []
                end) as ->.
    { unfold ChunkJs.name_writes.
      by rewrite (last_write_bind_unique (λ k, k) (λ c, property_key (id (chunk H c)))
                    _ async c). }
    split_and!.
    + unfold ChunkJs.hash_writes.
      rewrite (last_write_bind_unique (λ k, k) (λ c, property_key (id (chunk H c)))
                 _ async c) by
        (done || (intros x kv Hkv; apply list_elem_of_singleton in Hkv as ->; done)).
      by rewrite last_write_singleton, decide_True.
    + intros n -> Hn. rewrite decide_False by done.
      by rewrite last_write_singleton, decide_True.
    + intros [-> | [-> | ->]]; done.
Qed.
End chunk_maps.

Lemma getChunkMaps_last_write_witness :
  ∃ async maps,
    ChunkJs.getAllAsyncChunks 2 ChunkJs.example_store 0 = Some async ∧
    ChunkJs.getChunkMaps ChunkJs.decimal 2 true ChunkJs.example_store 0 = Some maps ∧
    (∀ c, c ∈ async →
          is_Some (ChunkJs.maps_hash maps
                     !! ChunkJs.property_key ChunkJs.decimal
                          (ChunkJs.id (ChunkJs.chunk ChunkJs.example_store c)))) ∧
    (∀ k, is_Some (ChunkJs.maps_name maps !! k) → is_Some (ChunkJs.maps_hash maps !! k)).
Proof.
  destruct (getChunkMaps_last_write ChunkJs.decimal 2 true ChunkJs.example_store 0)
    as (async & maps & Ha & Hm & _ & _ & _ & Hevery & Hnames & _).
  { vm_compute. lia. }
  exists async, maps. split_and!; done.
Defined.

Section child_ids_map.
Import ChunkJs.
Implicit Types (H : Store) (this c : ChunkRef) (g : GroupRef).
Context (Number_toString : Z → string).

Local Abbreviation property_key := (ChunkJs.property_key Number_toString).
Local Abbreviation addChildIdsByOrdersToMap :=
  (ChunkJs.addChildIdsByOrdersToMap Number_toString).
Local Abbreviation getChildIdsByOrdersMap :=
  (ChunkJs.getChildIdsByOrdersMap Number_toString).
Local Abbreviation childIds_writes := (ChunkJs.childIds_writes Number_toString).

Lemma lists_push_names n item (L : list (string * list Item)) x :
  x ∈ (lists_push n item L).*1 ↔ x = n ∨ x ∈ L.*1.
Proof.
  induction L as [| [n' l] L IH].
  - cbn. rewrite list_elem_of_singleton, elem_of_nil. tauto.
  - cbn [lists_push]. destruct (decide (n' = n)) as [-> | Hne].
    + rewrite !fmap_cons. cbn [fst]. rewrite elem_of_cons. tauto.
    + rewrite !fmap_cons. cbn [fst]. rewrite !elem_of_cons, IH. tauto.
Qed.

Lemma NoDup_lists_push n item (L : list (string * list Item)) :
  NoDup L.*1 → NoDup (lists_push n item L).*1.
Proof.
  induction L as [| [n' l] L IH]; intros HL.
  - cbn. apply NoDup_singleton.
  - rewrite fmap_cons in HL. apply NoDup_cons in HL as [Hn' HL]. cbn [fst] in Hn'.
    cbn [lists_push]. destruct (decide (n' = n)) as [-> | Hne].
    + rewrite fmap_cons. cbn [fst]. by apply NoDup_cons.
    + rewrite fmap_cons. cbn [fst]. apply NoDup_cons. split; [| by apply IH].
      rewrite lists_push_names. intros [-> | Hin]; done.
Qed.

Lemma NoDup_getChildIdsByOrders compareTo H c :
  NoDup (getChildIdsByOrders compareTo H c).*1.
Proof.
  unfold getChildIdsByOrders. rewrite collect_lists_collected.
  assert (∀ (L : list (string * list Item)) F,
            (map (λ nl, (nl.1, F nl.2)) L : list (string * list ChunkId)).*1 = L.*1)
    as Hmap.
  { intros L F. induction L as [| [n l] L IH]; [done |]. cbn. f_equal. exact IH. }
  rewrite (Hmap _ (λ l, ids_of H (array_sort (compare_items compareTo) l))).
  assert (∀ pairs (acc : list (string * list Item)),
            NoDup acc.*1 → NoDup (foldl push acc pairs).*1) as Hfold.
  { induction pairs as [| p pairs IH]; intros acc Hacc; simpl; [done |].
    apply IH. by apply NoDup_lists_push. }
  apply Hfold. constructor.
Qed.

Lemma last_write_cons {K V} `{EqDecision K} (k : K) (kv : K * V) writes :
  last_write k (kv :: writes)
  = match last_write k writes with
    | Some v => Some v
    | None => if decide (kv.1 = k) then Some kv.2 else None
    end.
Proof.
  unfold last_write. rewrite filter_cons.
  case_decide; [| by destruct (last (filter _ writes))].
  rewrite last_cons. by destruct (last (filter _ writes)).
Qed.

Lemma last_write_property {A} name (L : list (string * A)) :
  NoDup L.*1 → last_write name L = property name L.
Proof.
  induction L as [| [n l] L IH]; intros HL; [done |].
  rewrite fmap_cons in HL. apply NoDup_cons in HL as [Hn HL]. simpl in Hn.
  rewrite last_write_cons, property_cons. simpl. specialize (IH HL).
  destruct (last_write name L) as [v |] eqn:Hlast.
  - case_decide as Heq; [| done]. subst n.
    apply last_write_Some in Hlast.
    exfalso. apply Hn. apply list_elem_of_fmap. by exists (name, v).
  - by case_decide.
Qed.

Lemma last_write_tagged {A} name (k : string) (L : list (string * A)) :
  last_write (name, k) ((λ nl, ((nl.1, k), nl.2)) <$> L) = last_write name L.
Proof.
  induction L as [| [n l] L IH]; [done |].
  rewrite fmap_cons, !last_write_cons, IH. simpl.
  destruct (last_write name L); [done |].
  destruct (decide (n = name)) as [-> | Hne].
  - by rewrite decide_True.
  - rewrite decide_False; [done | congruence].
Qed.

Lemma addChildIdsByOrdersToMap_foldl compareTo H l obj :
  foldl (addChildIdsByOrdersToMap compareTo H) obj l
  = foldl (λ obj w, nested_set w.1.1 w.1.2 w.2 obj) obj (childIds_writes compareTo H l).
Proof.
  revert obj. induction l as [| c l IH]; intros obj; [done |].
  unfold ChunkJs.childIds_writes. rewrite bind_cons, foldl_app. simpl. rewrite IH.
  unfold ChunkJs.addChildIdsByOrdersToMap. by rewrite foldl_fmap.
Qed.

(** X19. [getChildIdsByOrdersMap] returns, and under an order name and
    the property name of a chunk id it holds what the last chunk whose id
    makes that name wrote there, of the chunk itself (looked at first,
    and only when [includeDirectChildren] is set) and its async chunks.
    No order name comes without an entry. When the ids of these chunks
    make different property names, the entry of a chunk under an order
    name is the list that [getChildIdsByOrders] of the chunk gives for
    the name, and there is none where it gives none. *)
Theorem getChildIdsByOrdersMap_entries (fuel : nat)
    (compareTo : GroupRef → GroupRef → Z) (includeDirectChildren : bool)
    (H : Store) (this : ChunkRef) :
  length (all_children H) < fuel →
  ∃ async maps,
    getAllAsyncChunks fuel H this = Some async ∧
    getChildIdsByOrdersMap fuel compareTo includeDirectChildren H this = Some maps ∧
    let visited := (if includeDirectChildren then [this] else []) ++ async in
    (∀ name k, nested_get name k maps
               = last_write (name, k) (childIds_writes compareTo H visited)) ∧
    (∀ name inner, maps !! name = Some inner → inner ≠ ∅) ∧
    (NoDup ((λ c, property_key (id (chunk H c))) <$> visited) →
     ∀ c name, c ∈ visited →
       nested_get name (property_key (id (chunk H c))) maps
       = property name (getChildIdsByOrders compareTo H c)).
Proof.
  intros Hfuel. destruct (getAllAsyncChunks_returns H this fuel Hfuel) as [async Ha].
  set (visited := (if includeDirectChildren then [this] else []) ++ async).
  exists async, (foldl (addChildIdsByOrdersToMap compareTo H) ∅ visited).
  assert (∀ name k,
            nested_get name k (foldl (addChildIdsByOrdersToMap compareTo H) ∅ visited)
            = last_write (name, k) (childIds_writes compareTo H visited)) as Hget.
  { intros name k. rewrite addChildIdsByOrdersToMap_foldl, foldl_nested_last_write.
    by destruct (last_write _ _). }
  split; [done |]. split.
  { unfold ChunkJs.getChildIdsByOrdersMap. rewrite Ha. simpl. f_equal. unfold visited.
    rewrite foldl_app. by destruct includeDirectChildren. }
  fold visited. cbv zeta. split_and!.
  - done.
  - intros name inner. rewrite addChildIdsByOrdersToMap_foldl.
    apply foldl_nested_inhabited. intros key0 inner0 Hin. by rewrite lookup_empty in Hin.
  - intros Hnd c name Hc. rewrite Hget. unfold ChunkJs.childIds_writes.
    rewrite (last_write_bind_unique snd (λ c, property_key (id (chunk H c)))
               _ visited c); [| done | done | | done].
    + rewrite last_write_tagged. apply last_write_property, NoDup_getChildIdsByOrders.
    + intros x kv Hkv. apply list_elem_of_fmap in Hkv as (nl & -> & _). done.
Qed.
End child_ids_map.

Lemma getChildIdsByOrdersMap_entries_witness :
  ∃ async maps,
    ChunkJs.getAllAsyncChunks 3 ChunkJs.prefetch_store 0 = Some async ∧
    ChunkJs.getChildIdsByOrdersMap ChunkJs.decimal 3 ChunkJs.compare_refs true
      ChunkJs.prefetch_store 0 = Some maps ∧
    (∀ name inner, maps !! name = Some inner → inner ≠ ∅).
Proof.
  destruct (getChildIdsByOrdersMap_entries ChunkJs.decimal 3 ChunkJs.compare_refs true
              ChunkJs.prefetch_store 0) as (async & maps & Ha & Hm & _ & Hinner & _).
  { vm_compute. lia. }
  exists async, maps. split_and!; done.
Defined.
